(** * Bright Sigma frontend: target configuration and leaderboard

    A shallow embedding of the computational parts of the target-management
    wizard ([TargetManagement], [PeriodFulfillment]) and of the leaderboard
    page ([Leaderboard]), with the properties the specification states about
    them. Further parts of the same sources are embedded after these: the
    loading of a period into the wizard, the month selector and the history
    tab, the date ranges and the awards of the leaderboard page, the cached
    access token and the origin of the API in [lib/api], and the toggles of
    the weekly breakdown.

    JavaScript numbers are interpreted through the interface [JsNumber], which
    has two instances. [Binary64] is the IEEE 754 binary64 arithmetic that
    JavaScript computes with. What is sent on save and how the leaderboard is
    ranked is proved for it, with a bound on every rounding that the code
    performs, for all inputs within stated bounds; the code also runs on it
    at concrete inputs. [Exact] is arithmetic on rationals: no rounding, no
    NaN, no infinity; the statements that say so are about it. *)

From Stdlib Require Import ZArith QArith Qround Qabs Floats Lia Lqa Qpower.
From Stdlib Require Import String Ascii List Sorted.
From stdpp Require Import base option list gmap strings.

Local Open Scope Z_scope.

(** * JavaScript numbers *)

(** The operations on numbers that the embedded code uses. [num_lit q] is the
    number denoted by a numeric literal (or an array length) of decimal value
    [q]; [num_truthy] is [ToBoolean]; [toFixed2 x] is [x.toFixed(2)] and
    [num_toString x] is [String(x)]. *)
Class JsNumber (N : Type) := {
  num_lit : Q -> N;
  num_add : N -> N -> N;
  num_sub : N -> N -> N;
  num_mul : N -> N -> N;
  num_div : N -> N -> N;
  num_ltb : N -> N -> bool;
  num_leb : N -> N -> bool;
  num_eqb : N -> N -> bool;
  num_truthy : N -> bool;
  Math_max : N -> N -> N;
  Math_min : N -> N -> N;
  Math_abs : N -> N;
  Math_round : N -> N;
  toFixed2 : N -> string;
  num_toString : N -> string;
}.

(** ** Decimal digits *)

Definition digit_char (d : Z) : ascii := ascii_of_nat (48 + Z.to_nat d).

Fixpoint digits_aux (fuel : nat) (n : Z) (acc : list ascii) : list ascii :=
  match fuel with
  | O => acc
  | S fuel' =>
      let acc' := digit_char (n mod 10) :: acc in
      if n <? 10 then acc' else digits_aux fuel' (n / 10) acc'
  end.

(** The decimal representation of [n >= 0], without leading zeros; ["0"] for
    zero. A number has at most [log2 n + 1] decimal digits. *)
Definition decimal_digits (n : Z) : list ascii :=
  digits_aux (S (Z.to_nat (Z.log2 n))) n [].

Definition zeros (k : nat) : list ascii := replicate k "0"%char.

(** [Number.prototype.toFixed], steps 9 and 10 for [fractionDigits = 2]: the
    digits of [n], padded with zeros to three characters at least, with a
    point before the last two. *)
Definition fixed2_digits (n : Z) : list ascii :=
  let m := decimal_digits n in
  let m := zeros (3 - length m) ++ m in
  let k := length m in
  take (k - 2) m ++ "."%char :: drop (k - 2) m.

Definition fixed2_string (negative : bool) (n : Z) : string :=
  string_of_list_ascii ((if negative then ["-"%char] else []) ++ fixed2_digits n).

Definition is_digit (c : ascii) : bool :=
  (48 <=? nat_of_ascii c)%nat && (nat_of_ascii c <=? 57)%nat.

Definition digit_value (c : ascii) : Z := Z.of_nat (nat_of_ascii c) - 48.

Definition digits_value (ds : list ascii) : Z :=
  fold_left (fun acc c => acc * 10 + digit_value c) ds 0.

(** The amount, in hundredths, that a decimal string with exactly two
    fractional digits denotes: an optional minus sign, one digit at least, a
    point and two digits. Other strings denote no such amount. *)
Definition fixed2_value (s : string) : option Z :=
  let cs := list_ascii_of_string s in
  let '(negative, cs) :=
    match cs with
    | c :: cs' => if Ascii.eqb c "-" then (true, cs') else (false, cs)
    | [] => (false, cs)
    end in
  let k := length cs in
  let whole := take (k - 3) cs in
  match drop (k - 3) cs with
  | [point; d1; d2] =>
      if Ascii.eqb point "." && forallb is_digit (whole ++ [d1; d2])
         && negb (length whole =? 0)%nat
      then Some ((if negative then -1 else 1) * digits_value (whole ++ [d1; d2]))
      else None
  | _ => None
  end.

(** ** Exact numbers *)

Definition Q_ltb (a b : Q) : bool := negb (Qle_bool b a).

(** [x.toFixed(2)]: the sign, then the integer [n] for which [n / 100 - |x|]
    is closest to zero, the larger one on a tie. ECMAScript switches to
    exponent notation from [10^21] on, where binary64 numbers carry no
    fractional digits any more; exact numbers keep their two digits at every
    magnitude. *)
Definition Q_hundredths (x : Q) : Z := Qfloor (Qabs x * 100 + (1 # 2)).

Definition Q_toFixed2 (x : Q) : string :=
  fixed2_string (Q_ltb x 0) (Q_hundredths x).

(** ** Binary64 numbers *)

Definition pow10 (z : Z) : Q := Qpower 10 z.

(** [a / b] rounded to the nearest binary64 number, ties to even: the
    quotient is computed with 56 bits at least and the position of the
    remainder is handed to the rounding of [SpecFloat]. *)
Definition round_positive (negative : bool) (a b : positive) : spec_float :=
  let sh := Z.max 0 (Z.pos (digits2_pos b) + 56 - Z.pos (digits2_pos a)) in
  let n := Z.pos a * 2 ^ sh in
  let q := n / Z.pos b in
  let r := n mod Z.pos b in
  let loc := if r =? 0 then loc_Exact else loc_Inexact (2 * r ?= Z.pos b) in
  binary_round_aux prec emax negative q (- sh) loc.

Definition round_Q (q : Q) : float :=
  match Qnum q with
  | Z0 => PrimFloat.zero
  | Z.pos a => SF2Prim (round_positive false a (Qden q))
  | Z.neg a => SF2Prim (round_positive true a (Qden q))
  end.

(** The rational that a finite binary64 number is. *)
Definition exact_value (x : float) : option Q :=
  match Prim2SF x with
  | S754_zero _ => Some 0%Q
  | S754_finite s m e =>
      let v := Qred (inject_Z (Z.pos m) * Qpower 2 e) in
      Some (if s then Qopp v else v)
  | S754_infinity _ | S754_nan => None
  end.

(** Whether the real [c] rounds to the positive binary64 number [m * 2^e]:
    it lies between the midpoints to the two neighbours, the midpoints
    included when [m] is even. *)
Definition rounds_to (m : positive) (e : Z) (c : Q) : bool :=
  let lower :=
    if (Z.pos m =? 2 ^ 52) && (-1074 <? e)
    then (inject_Z (4 * Z.pos m - 1) * Qpower 2 (e - 2))%Q
    else (inject_Z (2 * Z.pos m - 1) * Qpower 2 (e - 1))%Q in
  let upper := (inject_Z (2 * Z.pos m + 1) * Qpower 2 (e - 1))%Q in
  if Z.even (Z.pos m)
  then Qle_bool lower c && Qle_bool c upper
  else Q_ltb lower c && Q_ltb c upper.

Fixpoint decimal_exponent_from (fuel : nat) (v : Q) (n : Z) : Z :=
  match fuel with
  | O => n
  | S fuel' => if Q_ltb v (pow10 n) then n else decimal_exponent_from fuel' v (n + 1)
  end.

(** The [n] with [10^(n-1) <= v < 10^n], for [v] in the range of the positive
    binary64 numbers. *)
Definition decimal_exponent (v : Q) : Z := decimal_exponent_from 640 v (-324).

(** [Number::toString], step 5: integers [s] and [n] such that [s] has [k]
    digits, [s * 10^(n-k)] rounds to the number, and [k] is as small as
    possible; among several [s] the closest one, the even one on a tie. The
    search returns [s] and [n]; 17 digits always suffice. *)
Fixpoint shortest_from (fuel : nat) (m : positive) (e : Z) (v : Q) (n k : Z)
  : Z * Z :=
  match fuel with
  | O => (0, n)
  | S fuel' =>
      let scale := pow10 (n - k) in
      let s1 := Qfloor (v / scale) in
      let s2 := s1 + 1 in
      let c1 := (inject_Z s1 * scale)%Q in
      let c2 := (inject_Z s2 * scale)%Q in
      let pick s := if s =? 10 ^ k then (1, n + 1) else (s, n) in
      match rounds_to m e c1, rounds_to m e c2 with
      | true, true =>
          match (v - c1 ?= c2 - v)%Q with
          | Lt => pick s1
          | Gt => pick s2
          | Eq => if Z.even s1 then pick s1 else pick s2
          end
      | true, false => pick s1
      | false, true => pick s2
      | false, false => shortest_from fuel' m e v n (k + 1)
      end
  end.

Definition exponent_part (e : Z) : list ascii :=
  "e"%char :: (if e <? 0 then "-"%char else "+"%char) :: decimal_digits (Z.abs e).

(** [Number::toString], steps 6 to 12: positional notation for
    [-6 < n <= 21], exponent notation otherwise. *)
Definition positional_or_exponent (s n : Z) : list ascii :=
  let digits := decimal_digits s in
  let k := Z.of_nat (length digits) in
  if (k <=? n) && (n <=? 21) then digits ++ zeros (Z.to_nat (n - k))
  else if (0 <? n) && (n <=? 21) then
    take (Z.to_nat n) digits ++ "."%char :: drop (Z.to_nat n) digits
  else if (-6 <? n) && (n <=? 0) then
    "0"%char :: "."%char :: zeros (Z.to_nat (- n)) ++ digits
  else if k =? 1 then digits ++ exponent_part (n - 1)
  else take 1 digits ++ "."%char :: drop 1 digits ++ exponent_part (n - 1).

Definition F_toString_chars (x : float) : list ascii :=
  match Prim2SF x with
  | S754_nan => list_ascii_of_string "NaN"
  | S754_zero _ => ["0"%char]
  | S754_infinity s =>
      (if s then ["-"%char] else []) ++ list_ascii_of_string "Infinity"
  | S754_finite s m e =>
      let v := Qred (inject_Z (Z.pos m) * Qpower 2 e) in
      let '(d, n) := shortest_from 17 m e v (decimal_exponent v) 1 in
      (if s then ["-"%char] else []) ++ positional_or_exponent d n
  end.

Definition F_toString (x : float) : string :=
  string_of_list_ascii (F_toString_chars x).

Definition F_toFixed2 (x : float) : string :=
  match exact_value x with
  | None => F_toString x
  | Some v =>
      let negative := PrimFloat.ltb x PrimFloat.zero in
      if Qle_bool (pow10 21) (Qabs v)
      then string_of_list_ascii
             ((if negative then ["-"%char] else [])
              ++ F_toString_chars (PrimFloat.abs x))
      else fixed2_string negative (Q_hundredths v)
  end.

(** [Math.round]: the closest integer, the one towards [+Infinity] on a tie;
    the sign of a zero result is the sign of the argument. *)
Definition F_round (x : float) : float :=
  match Prim2SF x with
  | S754_finite s m e =>
      let v := (inject_Z (Z.pos m) * Qpower 2 e)%Q in
      let z := Qfloor ((if s then Qopp v else v) + (1 # 2)) in
      if z =? 0 then (if s then PrimFloat.neg_zero else PrimFloat.zero)
      else round_Q (inject_Z z)
  | _ => x
  end.

(** [Math.max] and [Math.min] of two arguments: NaN when one of them is NaN,
    and [+0] counts as larger than [-0]. *)
Definition F_max (a b : float) : float :=
  if PrimFloat.is_nan a then a else if PrimFloat.is_nan b then b
  else if PrimFloat.ltb a b then b else if PrimFloat.ltb b a then a
  else if PrimFloat.get_sign a then b else a.

Definition F_min (a b : float) : float :=
  if PrimFloat.is_nan a then a else if PrimFloat.is_nan b then b
  else if PrimFloat.ltb a b then a else if PrimFloat.ltb b a then b
  else if PrimFloat.get_sign a then a else b.

#[export] Instance Binary64 : JsNumber float := {
  num_lit := round_Q;
  num_add := PrimFloat.add;
  num_sub := PrimFloat.sub;
  num_mul := PrimFloat.mul;
  num_div := PrimFloat.div;
  num_ltb := PrimFloat.ltb;
  num_leb := PrimFloat.leb;
  num_eqb := PrimFloat.eqb;
  num_truthy x := negb (PrimFloat.is_nan x || PrimFloat.is_zero x);
  Math_max := F_max;
  Math_min := F_min;
  Math_abs := PrimFloat.abs;
  Math_round := F_round;
  toFixed2 := F_toFixed2;
  num_toString := F_toString;
}.

(** [String(x)] of an exact number prints the binary64 number nearest to it,
    which is the number JavaScript holds for it. *)
#[export] Instance Exact : JsNumber Q := {
  num_lit q := q;
  num_add := Qplus;
  num_sub := Qminus;
  num_mul := Qmult;
  num_div := Qdiv;
  num_ltb := Q_ltb;
  num_leb := Qle_bool;
  num_eqb := Qeq_bool;
  num_truthy x := negb (Qeq_bool x 0);
  Math_max a b := if Q_ltb a b then b else a;
  Math_min a b := if Q_ltb b a then b else a;
  Math_abs := Qabs;
  Math_round x := inject_Z (Qfloor (x + (1 # 2)));
  toFixed2 := Q_toFixed2;
  num_toString q := F_toString (round_Q q);
}.

(** ** [parseFloat] on binary64 *)

Definition is_whitespace (c : ascii) : bool :=
  let n := nat_of_ascii c in
  ((9 <=? n)%nat && (n <=? 13)%nat) || (n =? 32)%nat.

Fixpoint skip_whitespace (cs : list ascii) : list ascii :=
  match cs with
  | c :: cs' => if is_whitespace c then skip_whitespace cs' else cs
  | [] => []
  end.

Fixpoint span_digits (cs : list ascii) : list ascii * list ascii :=
  match cs with
  | c :: cs' =>
      if is_digit c then let '(ds, rest) := span_digits cs' in (c :: ds, rest)
      else ([], cs)
  | [] => ([], [])
  end.

Fixpoint starts_with (word cs : list ascii) : bool :=
  match word, cs with
  | [], _ => true
  | w :: word', c :: cs' => (nat_of_ascii w =? nat_of_ascii c)%nat && starts_with word' cs'
  | _ :: _, [] => false
  end.

Definition take_sign (cs : list ascii) : bool * list ascii :=
  match cs with
  | "-"%char :: cs' => (true, cs')
  | "+"%char :: cs' => (false, cs')
  | _ => (false, cs)
  end.

(** The exponent part, when one follows: [e] or [E], an optional sign and one
    digit at least. *)
Definition exponent_value (cs : list ascii) : Z :=
  match cs with
  | c :: cs' =>
      if (nat_of_ascii c =? 101)%nat || (nat_of_ascii c =? 69)%nat then
        let '(negative, cs'') := take_sign cs' in
        let '(ds, _) := span_digits cs'' in
        if negative then - digits_value ds else digits_value ds
      else 0
  | [] => 0
  end.

(** [parseFloat]: leading white space is skipped and the longest prefix that
    is a decimal literal is read; the result is NaN when there is none. *)
Definition F_parseFloat (s : string) : float :=
  let cs := skip_whitespace (list_ascii_of_string s) in
  let '(negative, cs) := take_sign cs in
  if starts_with (list_ascii_of_string "Infinity") cs
  then (if negative then PrimFloat.neg_infinity else PrimFloat.infinity)
  else
    let '(whole, rest) := span_digits cs in
    let '(fraction, rest) :=
      match rest with
      | "."%char :: rest' => span_digits rest'
      | _ => ([], rest)
      end in
    match whole ++ fraction with
    | [] => PrimFloat.nan
    | ds =>
        let m := digits_value ds in
        if m =? 0 then (if negative then PrimFloat.neg_zero else PrimFloat.zero)
        else round_Q (inject_Z (if negative then - m else m)
                      * pow10 (exponent_value rest - Z.of_nat (length fraction)))
    end.

(** * Arrays *)

(** [Array.prototype.sort] is stable, and for a consistent comparator the
    sorted order is unique; it is modelled by stable insertion. [before a b]
    says that the comparator is negative at [(a, b)]: [a] has to come first. *)
Section ArraySort.
Context {A : Type} (before : A -> A -> bool).

Fixpoint sort_insert (x : A) (sorted : list A) : list A :=
  match sorted with
  | [] => [x]
  | y :: rest => if before x y then x :: y :: rest else y :: sort_insert x rest
  end.

Definition Array_sort (l : list A) : list A :=
  fold_left (fun sorted x => sort_insert x sorted) l [].
End ArraySort.

(** * Divisions *)

(** JavaScript divides by zero without complaint and yields an infinity or
    NaN. To state that a computation never does so, its divisions are run
    through [checked_div], which stops with [DivisionByZero] on a zero
    divisor. *)
Inductive Checked (A : Type) : Type :=
  | Done (a : A)
  | DivisionByZero.
Arguments Done {A} a.
Arguments DivisionByZero {A}.

#[export] Instance Checked_ret : MRet Checked := fun A a => Done a.

#[export] Instance Checked_bind : MBind Checked := fun A B k c =>
  match c with
  | Done a => k a
  | DivisionByZero => DivisionByZero
  end.

(** * Allocation: remainder distribution *)

Module Allocation.

(** Modelled from the spec: the remainder-distribution step of the Allocation
    Engine (section 4.2, step 3), which runs in the backend and is not part of
    these sources. Amounts are fixed-point decimals with 2 fractional digits
    and are held as integer numbers of hundredths, so that
    [floor(roleTarget / n, 2 decimals)] is integer division and one [+0.01]
    increment is [+ 1]. *)
Definition base (roleTarget : Z) (n : nat) : Z := roleTarget / Z.of_nat n.

(** Modelled from the spec: [remainder = roleTarget - base * n], in
    hundredths; it is also the number [remainder * 100] of members that
    receive an increment. *)
Definition remainder (roleTarget : Z) (n : nat) : Z :=
  roleTarget - base roleTarget n * Z.of_nat n.

(** Modelled from the spec: the share of the member at position [i] of the
    canonical order: the first [remainder * 100] members get [base + 0.01],
    the others [base]. *)
Definition share (roleTarget : Z) (n : nat) (i : nat) : Z :=
  base roleTarget n + (if Z.of_nat i <? remainder roleTarget n then 1 else 0).

(** Modelled from the spec: the per-user shares of one role target; [members]
    lists the user identifiers of the role's active members in the canonical
    order. With no member the role target stays unallocated. *)
Definition distribute (roleTarget : Z) (members : list string) : list (string * Z) :=
  imap (fun i user => (user, share roleTarget (length members) i)) members.

Definition total (shares : list (string * Z)) : Z :=
  foldr (fun s acc => s.2 + acc) 0 shares.

End Allocation.

(** * Period status buttons of the overview page *)

Inductive Status := draft | published | locked | archived.

Record PeriodSummary := {
  id : string;
  year : Z;
  month : Z;
  status : Status;
}.

Inductive View := overview | create.
Inductive Tab := current | history.

(** A click handler [() => handleStatusChange(period.id, newStatus)]: the
    period it was drawn for and the status it asks for. *)
Definition StatusRequest : Type := PeriodSummary * Status.

Definition Status_eqb (a b : Status) : bool :=
  match a, b with
  | draft, draft | published, published | locked, locked | archived, archived => true
  | _, _ => false
  end.

(** [cond && (<button .../>)] in JSX: the buttons are drawn when [cond] holds. *)
Definition when {A} (cond : bool) (buttons : list A) : list A :=
  if cond then buttons else [].

(** The status buttons of the summary card of the selected month. *)
Definition currentTabRequests (isManager : bool) (selectedPeriod : PeriodSummary)
  : list StatusRequest :=
  when (isManager && Status_eqb (status selectedPeriod) draft)
       [(selectedPeriod, published)]
  ++ when (isManager && Status_eqb (status selectedPeriod) published)
       [(selectedPeriod, locked)].

(** The status buttons of one card of the history tab. *)
Definition historyCardRequests (isManager : bool) (period : PeriodSummary)
  : list StatusRequest :=
  when isManager
    (when (Status_eqb (status period) draft) [(period, published)]
     ++ when (Status_eqb (status period) published)
          [(period, draft); (period, locked)]
     ++ when (Status_eqb (status period) locked) [(period, archived)]).

(** Every [handleStatusChange] handler that [renderOverview] attaches. The
    history cards are drawn sorted by month; the order plays no role for the
    handlers they carry, so the cards are taken in the order of
    [historyPeriods]. *)
Definition renderOverview (activeTab : Tab) (isManager : bool)
    (selectedPeriod : option PeriodSummary) (historyPeriods : list PeriodSummary)
  : list StatusRequest :=
  when (match activeTab with current => true | history => false end)
    (match selectedPeriod with
     | Some p => currentTabRequests isManager p
     | None => []
     end)
  ++ when (match activeTab with history => true | current => false end)
       (flat_map (historyCardRequests isManager) historyPeriods).

(** The handlers on screen: [renderOverview] is drawn in the overview view
    only, and the wizard steps attach no [handleStatusChange] handler. *)
Definition statusRequests (view : View) (activeTab : Tab) (isManager : bool)
    (selectedPeriod : option PeriodSummary) (historyPeriods : list PeriodSummary)
  : list StatusRequest :=
  match view with
  | overview => renderOverview activeTab isManager selectedPeriod historyPeriods
  | create => []
  end.

(** The four transitions of the period life cycle that the page offers. *)
Definition offeredTransition (from to : Status) : bool :=
  match from, to with
  | draft, published | published, draft | published, locked | locked, archived => true
  | _, _ => false
  end.

(** * Data of the API *)

Inductive Role := owner | manager | sales_junior | sales_senior.

#[export] Instance Role_eq_dec : EqDecision Role.
Proof. solve_decision. Defined.

Record ShopMember := {
  member_user_id : string;
  email : string;
  name : option string;
  role : Role;
}.

Record PeriodWeek := {
  period_week_index : nat;
  start_date : string;
  end_date : string;
}.

Record MonthlyTargetInput := {
  category_id : string;
  target_value : string;
}.

Record WeeklyDistributionInput := {
  week_index : nat;
  percentage : string;
}.

(** [RoleWeightInput], and [RoleWeight], which has the same fields. *)
Record RoleWeightInput := {
  weight_role : Role;
  weight_percentage : string;
}.

Record CategoryPerformance := {
  performance_category_id : string;
  category_name : string;
  performance_target_value : string;
  achieved_value : string;
}.

Record LeaderboardSnapshot := {
  snapshot_id : string;
  period_id : string;
  computed_at : string;
  rules_version : string;
}.

Inductive Trend := up | down | flat.

Record LeaderboardRow := {
  row_user_id : string;
  row_rank : Z;
  row_score : string;
  row_achievement_pct : string;
  row_trend : Trend;
  row_streak_days : Z;
  row_user_name : option string;
}.

Record UserWeeklyProgress := {
  progress_user_id : string;
  progress_user_name : string;
  progress_total_target : string;
  progress_total_achieved : string;
}.

(** [WeeklyProgressResponse]: [progress] holds, when present, the users of
    each week, in the order in which [Object.values] lists the weeks. *)
Record WeeklyProgressResponse := {
  progress : option (list (list UserWeeklyProgress));
}.

(** The requests of [lib/api] that [handleSaveTargets] sends. *)
Inductive ApiCall :=
  | upsertMonthlyTargets (periodId : string) (items : list MonthlyTargetInput)
  | upsertWeeklyDistribution (periodId : string) (items : list WeeklyDistributionInput)
  | upsertWeeklyRoleWeights (periodId : string) (weekIndex : nat)
      (items : list RoleWeightInput)
  | recomputeUserWeekTargets (periodId : string).

(** What [handleSaveTargets] does, in order: state updates, requests sent,
    and the settlements of their promises that the handler waits for. *)
Inductive Event :=
  | setSaving (saving : bool)
  | setLocalError (failed : bool)
  | Invoke (call : ApiCall)
  | Settle (call : ApiCall) (fulfilled : bool)
  | refreshPeriods
  | setView (view : View).

Definition is_recompute (call : ApiCall) : bool :=
  match call with
  | recomputeUserWeekTargets _ => true
  | _ => false
  end.

(** [await Promise.all(pending)]: the pending requests settle one after the
    other, in an order that the network decides: at each step [sched] picks
    one of those still pending. The handler resumes when all are fulfilled,
    or at the first rejection, whatever is still in flight then. The result
    is what the handler observes, and whether all were fulfilled. *)
Fixpoint await_all (n : nat) (pending : list (ApiCall * bool))
    (sched : nat -> nat) (step : nat) : list Event * bool :=
  match n with
  | O => ([], true)
  | S n' =>
      let i := (sched step mod length pending)%nat in
      match pending !! i with
      | None => ([], true)
      | Some (call, true) =>
          let '(events, all) := await_all n' (delete i pending) sched (S step) in
          (Settle call true :: events, all)
      | Some (call, false) => ([Settle call false], false)
      end
  end.

(** * The components, over any numbers *)

Declare Scope num_scope.
Delimit Scope num_scope with num.
Notation "a + b" := (num_add a b) : num_scope.
Notation "a - b" := (num_sub a b) : num_scope.
Notation "a * b" := (num_mul a b) : num_scope.
Notation "a / b" := (num_div a b) : num_scope.
Notation "a >? b" := (num_ltb b a) : num_scope.
Notation "a >=? b" := (num_leb b a) : num_scope.

Section Components.
Context {N : Type} `{JsNumber N}.

(** [parseFloat] and [new Date(s).getTime()] are built into the language;
    the components are embedded for whatever numbers and valid time stamps
    they return. *)
Variable parseFloat : string -> N.
Variable getTime : string -> Z.

Local Open Scope num_scope.

Definition zero : N := num_lit 0.
Definition hundred : N := num_lit 100.

(** [x || 0] *)
Definition or_zero (x : N) : N := if num_truthy x then x else zero.

(** [l.reduce((sum, p) => sum + p, 0)] *)
Definition sum (l : list N) : N := fold_left num_add l zero.

(** A division that is recorded when its divisor is zero. *)
Definition checked_div (a b : N) : Checked N :=
  if num_eqb b zero then DivisionByZero else Done (a / b).

(** ** [TargetManagement]: editing *)

(** [Record<Role, number>]; a property of an object built by spreading
    [undefined] is absent. *)
Definition RoleRecord : Type := Role -> option N.

Definition set_role (r : Role) (v : N) (weights : RoleRecord) : RoleRecord :=
  fun r' => if decide (r' = r) then Some v else weights r'.

Definition role_record (o m j s : N) : RoleRecord :=
  fun r =>
    Some match r with
         | owner => o
         | manager => m
         | sales_junior => j
         | sales_senior => s
         end.

Record State := {
  selectedPeriod : option PeriodSummary;
  members : list ShopMember;
  shopTargets : list (string * N);
  weeks : list PeriodWeek;
  weeklyPercentages : list N;
  roleWeights : gmap nat RoleRecord;
}.

(** [{ ...prev, [categoryId]: v }]: a key that is present keeps its place,
    a new key goes to the end. *)
Fixpoint set_target (prev : list (string * N)) (categoryId : string) (v : N)
  : list (string * N) :=
  match prev with
  | [] => [(categoryId, v)]
  | (category, old) :: rest =>
      if String.eqb category categoryId then (category, v) :: rest
      else (category, old) :: set_target rest categoryId v
  end.

(** [handleTargetChange] *)
Definition handleTargetChange (shopTargets : list (string * N))
    (categoryId value : string) : list (string * N) :=
  set_target shopTargets categoryId (or_zero (parseFloat value)).

(** [handleWeeklyPercentageChange]. An [index] past the end of the array
    would leave holes in it; such arrays are outside this embedding, and the
    result is [None] then. At [index = length] the new value is appended:
    the difference to the missing old value is NaN and nothing follows. *)
Definition handleWeeklyPercentageChange (weeklyPercentages : list N)
    (index : nat) (value : N) : option (list N) :=
  let newValue := Math_max zero (Math_min hundred value) in
  match weeklyPercentages !! index with
  | Some oldValue =>
      let newPercentages := <[index := newValue]> weeklyPercentages in
      let diff := oldValue - newValue in
      let itemsBelow := drop (S index) newPercentages in
      let totalBelow := sum itemsBelow in
      if (0 <? length itemsBelow)%nat && (totalBelow + diff >=? zero) then
        let newTotalBelow := totalBelow + diff in
        Some (take (S index) newPercentages
              ++ map (fun p =>
                        if totalBelow >? zero
                        then (p / totalBelow) * newTotalBelow
                        else newTotalBelow
                             / num_lit (inject_Z (Z.of_nat (length itemsBelow))))
                     itemsBelow)
      else Some newPercentages
  | None =>
      if (index =? length weeklyPercentages)%nat
      then Some (weeklyPercentages ++ [newValue])
      else None
  end.

(** [normalizePercentages]; [None] stands for the early return that leaves
    the state as it is. *)
Definition normalizePercentages (weeklyPercentages : list N) : option (list N) :=
  let total := sum weeklyPercentages in
  if num_eqb total zero then None
  else Some (map (fun p => (p / total) * hundred) weeklyPercentages).

Definition otherRole (role : Role) : Role :=
  match role with
  | sales_junior => sales_senior
  | _ => sales_junior
  end.

(** [handleRoleWeightChange]: the update that it passes to [setRoleWeights],
    applied to the previous state. *)
Definition handleRoleWeightChange (prev : gmap nat RoleRecord)
    (weekIndex : nat) (role : Role) (value : N) : gmap nat RoleRecord :=
  let newValue := Math_max zero (Math_min hundred value) in
  let otherValue := Math_max zero (hundred - newValue) in
  <[weekIndex :=
      set_role (otherRole role) otherValue
        (set_role role newValue
           (default (fun _ => None) (prev !! weekIndex)))]> prev.

Definition count_role (r : Role) (members : list ShopMember) : nat :=
  length (filter (fun m => role m = r) members).

(** [defaultWeights] of [loadPeriodData], and [getDefaultWeights]. *)
Definition defaultWeights (members : list ShopMember) : RoleRecord :=
  let jCount := count_role sales_junior members in
  let sCount := count_role sales_senior members in
  if (0 <? jCount)%nat && (sCount =? 0)%nat
  then role_record zero zero hundred zero
  else if (0 <? sCount)%nat && (jCount =? 0)%nat
  then role_record zero zero zero hundred
  else role_record zero zero (num_lit 40) (num_lit 60).

(** The role weights that [loadPeriodData] puts into the state: for week
    [i + 1] the defaults, overwritten by the rows that [getRoleWeights]
    answered. [answers] holds one answer per week; a request that failed
    and a null answer both leave the defaults and are given as []. *)
Definition loadRoleWeights (members : list ShopMember)
    (answers : list (list RoleWeightInput)) : gmap nat RoleRecord :=
  fold_left
    (fun weights '(i, weekWeights) =>
       <[S i :=
           fold_left
             (fun w row =>
                set_role (weight_role row)
                  (or_zero (parseFloat (weight_percentage row))) w)
             weekWeights (defaultWeights members)]> weights)
    (imap (fun i weekWeights => (i, weekWeights)) answers) ∅.

(** ** [TargetManagement]: saving *)

(** The weekly distribution that [handleSaveTargets] prepares: rounded to
    two decimals, the last entry adjusted when the total is off 100. *)
Definition roundedPercentages (weeklyPercentages : list N) : list N :=
  let rounded :=
    map (fun p => Math_round (p * hundred) / hundred) weeklyPercentages in
  let total := fold_left num_add rounded zero in
  if (0 <? length rounded)%nat
     && (Math_abs (total - hundred) >? num_lit (1 # 1000))
  then
    let diff := hundred - total in
    alter (fun last => last + diff) (length rounded - 1)%nat rounded
  else rounded.

Definition weeklyDistributionItems (weeklyPercentages : list N)
  : list WeeklyDistributionInput :=
  imap (fun idx p => {| week_index := idx + 1; percentage := toFixed2 p |})
       (roundedPercentages weeklyPercentages).

(** The values of [shopTargets] are numbers, so [value ?? 0] is [value]. *)
Definition monthlyTargetItems (shopTargets : list (string * N))
  : list MonthlyTargetInput :=
  map (fun '(category, value) =>
         {| category_id := category; target_value := num_toString value |})
      shopTargets.

(** The two rows that are sent for the week [weekIndex]. When the record of
    the week has no [sales_junior] property, the arithmetic on [undefined]
    gives NaN and both rows read ["NaN"]. *)
Definition roleWeightItems (members : list ShopMember)
    (roleWeights : gmap nat RoleRecord) (weekIndex : nat) : list RoleWeightInput :=
  let jCount := count_role sales_junior members in
  let sCount := count_role sales_senior members in
  let onlyJuniors := (0 <? jCount)%nat && (sCount =? 0)%nat in
  let onlySeniors := (0 <? sCount)%nat && (jCount =? 0)%nat in
  let '(junior, senior) :=
    if onlyJuniors then (toFixed2 hundred, toFixed2 zero)
    else if onlySeniors then (toFixed2 zero, toFixed2 hundred)
    else
      let weekWeights :=
        default (role_record zero zero (num_lit 40) (num_lit 60))
                (roleWeights !! weekIndex) in
      match weekWeights sales_junior with
      | Some weight =>
          let juniorWeight := Math_round (weight * hundred) / hundred in
          let seniorWeight :=
            Math_round ((hundred - juniorWeight) * hundred) / hundred in
          (toFixed2 juniorWeight, toFixed2 seniorWeight)
      | None => ("NaN"%string, "NaN"%string)
      end in
  [ {| weight_role := sales_junior; weight_percentage := junior |};
    {| weight_role := sales_senior; weight_percentage := senior |} ].

(** The configuration writes of one save, in the order in which they are
    invoked: the role weights of every week while [roleWeightPromises] is
    built, then the monthly targets and the weekly distribution inside the
    array that is handed to [Promise.all]. *)
Definition configurationWrites (st : State) (period : PeriodSummary)
  : list ApiCall :=
  imap (fun idx _ =>
          upsertWeeklyRoleWeights (id period) (idx + 1)
            (roleWeightItems (members st) (roleWeights st) (idx + 1)))
       (weeks st)
  ++ [ upsertMonthlyTargets (id period) (monthlyTargetItems (shopTargets st));
       upsertWeeklyDistribution (id period)
         (weeklyDistributionItems (weeklyPercentages st)) ].

(** [handleSaveTargets]. [outcome i] tells whether the [i]-th request that
    is invoked succeeds, and [sched] is the order in which the pending
    writes settle. *)
Definition handleSaveTargets (st : State) (outcome : nat -> bool)
    (sched : nat -> nat) : list Event :=
  match selectedPeriod st with
  | None => []
  | Some period =>
      let writes := configurationWrites st period in
      let pending := imap (fun i call => (call, outcome i)) writes in
      let '(settled, saved) := await_all (length pending) pending sched 0 in
      let recompute := recomputeUserWeekTargets (id period) in
      let recomputed := outcome (length writes) in
      [setSaving true; setLocalError false]
      ++ map Invoke writes
      ++ settled
      ++ (if saved then
            Invoke recompute :: Settle recompute recomputed
            :: (if recomputed then [refreshPeriods; setView overview]
                else [setLocalError true])
          else [setLocalError true])
      ++ [setSaving false]
  end.

(** ** Percentages of a target *)

(** [target > 0 ? (achieved / target) * 100 : 0] *)
Definition percentageOfTarget (achieved target : N) : Checked N :=
  if target >? zero
  then q ← checked_div achieved target; mret (q * hundred)
  else mret zero.

(** ** [PeriodFulfillment] *)

Record Fulfillment := {
  overallPercentage : N;
  categoryPercentages : list N;
}.

(** The figures that [PeriodFulfillment] shows; [None] is the "No data"
    branch. The breakdown by category is computed as for the expanded
    card. *)
Definition PeriodFulfillment (performance : option (list CategoryPerformance))
  : Checked (option Fulfillment) :=
  match performance with
  | None | Some [] => mret None
  | Some performance =>
      let totalTarget :=
        fold_left
          (fun sum p => sum + or_zero (parseFloat (performance_target_value p)))
          performance zero in
      let totalAchieved :=
        fold_left (fun sum p => sum + or_zero (parseFloat (achieved_value p)))
          performance zero in
      overall ← percentageOfTarget totalAchieved totalTarget;
      categories ←
        mapM (fun cat =>
                let target := or_zero (parseFloat (performance_target_value cat)) in
                let achieved := or_zero (parseFloat (achieved_value cat)) in
                percentageOfTarget achieved target)
             performance;
      mret (Some {| overallPercentage := overall;
                    categoryPercentages := categories |})
  end.

(** ** [Leaderboard] *)

(** [latestSnapshot]: the snapshots sorted by [computed_at], latest first,
    and the first of them taken. *)
Definition latestSnapshot (snapshots : option (list LeaderboardSnapshot))
  : option LeaderboardSnapshot :=
  match snapshots with
  | None | Some [] => None
  | Some snapshots =>
      head (Array_sort
              (fun a b => (getTime (computed_at b) - getTime (computed_at a) <? 0)%Z)
              snapshots)
  end.

(** The snapshot whose rows [useLeaderboardRows] fetches. *)
Definition displayedSnapshot (snapshots : option (list LeaderboardSnapshot))
  : option string :=
  snapshot_id <$> latestSnapshot snapshots.

(** An entry of the map in which the weekly progress is added up. The empty
    [monthly_achievements] of the source is never read. *)
Record UserData := {
  data_user_id : string;
  data_user_name : string;
  total_target : N;
  total_achieved : N;
}.

(** A row of [leaderboardData]. *)
Record LeaderboardEntry := {
  user_id : string;
  user_name : string;
  rank : Z;
  score : N;
  achievement_pct : N;
  trend : Trend;
  streak_days : Z;
}.

(** One step of the inner [forEach]: the entry of the user is created at
    the end of the map when it is missing, and the totals of the week are
    added to it. A [Map] lists its values in the order of insertion. *)
Fixpoint addProgress (userMap : list UserData) (user : UserWeeklyProgress)
  : list UserData :=
  let add (userData : UserData) :=
    {| data_user_id := data_user_id userData;
       data_user_name := data_user_name userData;
       total_target :=
         total_target userData + or_zero (parseFloat (progress_total_target user));
       total_achieved :=
         total_achieved userData
         + or_zero (parseFloat (progress_total_achieved user)) |} in
  match userMap with
  | [] =>
      [add {| data_user_id := progress_user_id user;
              data_user_name := progress_user_name user;
              total_target := zero;
              total_achieved := zero |}]
  | userData :: rest =>
      if String.eqb (data_user_id userData) (progress_user_id user)
      then add userData :: rest
      else userData :: addProgress rest user
  end.

Definition aggregateProgress (allProgressData : list WeeklyProgressResponse)
  : list UserData :=
  fold_left
    (fun userMap data =>
       match progress data with
       | None => userMap
       | Some weeks =>
           fold_left (fun userMap weekUsers => fold_left addProgress weekUsers userMap)
                     weeks userMap
       end)
    allProgressData [].

Definition toEntry (user : UserData) : Checked LeaderboardEntry :=
  pct ← percentageOfTarget (total_achieved user) (total_target user);
  mret {| user_id := data_user_id user;
          user_name := data_user_name user;
          rank := 0;
          score := total_achieved user;
          achievement_pct := pct;
          trend := flat;
          streak_days := 0 |}.

Definition set_rank (r : Z) (user : LeaderboardEntry) : LeaderboardEntry :=
  {| user_id := user_id user;
     user_name := user_name user;
     rank := r;
     score := score user;
     achievement_pct := achievement_pct user;
     trend := trend user;
     streak_days := streak_days user |}.

(** "Convert to array and rank": the entries sorted by
    [b.achievement_pct - a.achievement_pct], then numbered from 1. *)
Definition rankUsers (userMap : list UserData) : Checked (list LeaderboardEntry) :=
  entries ← mapM toEntry userMap;
  let users :=
    Array_sort (fun a b => num_ltb (achievement_pct b - achievement_pct a) zero)
               entries in
  mret (imap (fun idx user => set_rank (Z.of_nat idx + 1) user) users).

(** [a || b] on strings that may be missing. *)
Definition or_else (a : option string) (b : string) : string :=
  match a with
  | Some s => if String.eqb s "" then b else s
  | None => b
  end.

(** [userNameMap.get(user_id)]: the last member with that identifier has
    set the name. *)
Definition userNameMap (members : list ShopMember) (uid : string) : option string :=
  (fun m => or_else (name m) (or_else (Some (email m)) "Unknown"))
    <$> last (filter (fun m => member_user_id m = uid) members).

Definition fromRow (members : list ShopMember) (row : LeaderboardRow)
  : LeaderboardEntry :=
  {| user_id := row_user_id row;
     user_name :=
       or_else (row_user_name row)
               (or_else (userNameMap members (row_user_id row)) "Unknown");
     rank := row_rank row;
     score := or_zero (parseFloat (row_score row));
     achievement_pct := or_zero (parseFloat (row_achievement_pct row));
     trend := row_trend row;
     streak_days := row_streak_days row |}.

(** [leaderboardData]: the rows of the latest snapshot for a single month,
    the aggregated weekly progress for several months. *)
Definition leaderboardData (isSingleMonth : bool)
    (leaderboardRows : option (list LeaderboardRow))
    (allProgressData : list WeeklyProgressResponse)
    (members : list ShopMember) : Checked (list LeaderboardEntry) :=
  match isSingleMonth, leaderboardRows with
  | true, Some rows =>
      mret (map (fromRow members)
                (Array_sort (fun a b => (row_rank a - row_rank b <? 0)%Z) rows))
  | true, None => mret []
  | false, _ =>
      if (0 <? length allProgressData)%nat
      then rankUsers (aggregateProgress allProgressData)
      else mret []
  end.

End Components.

(** * Notions used in the statements *)

(** The one fact about numbers that the guard against a zero target rests
    on: a number greater than zero is not zero. *)
Class JsNumberLaws (N : Type) `{JsNumber N} := {
  positive_nonzero : forall x : N, num_ltb zero x = true -> num_eqb x zero = false;
}.

(** The value of [target > 0 ? (achieved / target) * 100 : 0]. *)
Definition guardedPercentage {N : Type} `{JsNumber N} (achieved target : N) : N :=
  if num_ltb zero target
  then num_mul (num_div achieved target) hundred
  else zero.

(** The row that [toEntry] makes of a user. *)
Definition entryOf {N : Type} `{JsNumber N} (user : @UserData N) : @LeaderboardEntry N :=
  {| user_id := data_user_id user;
     user_name := data_user_name user;
     rank := 0;
     score := total_achieved user;
     achievement_pct := guardedPercentage (total_achieved user) (total_target user);
     trend := flat;
     streak_days := 0 |}.


Definition Qsum (l : list Q) : Q := fold_right Qplus 0%Q l.

Definition Zsum (l : list Z) : Z := foldr Z.add 0 l.

(** The amount in hundredths that [x.toFixed(2)] prints for an exact [x]. *)
Definition Q_cents (x : Q) : Z :=
  if Q_ltb x 0 then - Q_hundredths x else Q_hundredths x.

Definition digits_step (acc : Z) (c : ascii) : Z := acc * 10 + digit_value c.

(** The comparator of the aggregated leaderboard on exact numbers, and the
    order that the comparator sorts by. *)
Definition pct_before (a b : @LeaderboardEntry Q) : bool :=
  num_ltb (num_sub (achievement_pct b) (achievement_pct a)) zero.

Definition pct_ge (a b : @LeaderboardEntry Q) : Prop :=
  (achievement_pct b <= achievement_pct a)%Q.

(** ** Binary64 numbers as rationals *)

(** The rational that a number of [SpecFloat] is when it is finite, and 0
    otherwise; [SF_finite] tells the two cases apart. *)
Definition SF2Q (x : spec_float) : Q :=
  match x with
  | S754_finite s m e =>
      let v := (inject_Z (Z.pos m) * Qpower 2 e)%Q in
      if s then Qopp v else v
  | _ => 0%Q
  end.

Definition SF_finite (x : spec_float) : bool :=
  match x with
  | S754_zero _ | S754_finite _ _ _ => true
  | S754_infinity _ | S754_nan => false
  end.

(** [x] is a finite binary64 number of magnitude at most [bound]. *)
Definition within (bound : Q) (x : float) : bool :=
  match exact_value x with
  | Some v => Qle_bool (Qabs v) bound
  | None => false
  end.

(** The integer that [Math.round(p * 100)] is on binary64: the hundredths
    that [handleSaveTargets] rounds a percentage or a weight to. *)
Definition hundredths (p : float) : option Z :=
  Qfloor <$> exact_value (Math_round (num_mul p hundred)).

(** * Example data *)

Module Examples.

Definition december : PeriodSummary :=
  {| id := "period-2025-12"; year := 2025; month := 12; status := draft |}.

Definition ana : ShopMember :=
  {| member_user_id := "u-ana"; email := "ana@example.com"; name := Some "Ana"%string;
     role := sales_junior |}.

Definition ben : ShopMember :=
  {| member_user_id := "u-ben"; email := "ben@example.com"; name := Some "Ben"%string;
     role := sales_senior |}.

Definition fourWeeks : list PeriodWeek :=
  [ {| period_week_index := 1; start_date := "2025-12-01"; end_date := "2025-12-07" |};
    {| period_week_index := 2; start_date := "2025-12-08"; end_date := "2025-12-14" |};
    {| period_week_index := 3; start_date := "2025-12-15"; end_date := "2025-12-21" |};
    {| period_week_index := 4; start_date := "2025-12-22"; end_date := "2025-12-31" |} ].

(** A period in the wizard, on exact numbers. *)
Definition wizard : @State Q :=
  {| selectedPeriod := Some december;
     members := [ana; ben];
     shopTargets := [("revenue"%string, 10000%Q)];
     weeks := fourWeeks;
     weeklyPercentages := [25; 25; 25; 25]%Q;
     roleWeights := ∅ |}.

(** The equal distribution over four weeks, on binary64. *)
Definition quarters : list float := map round_Q [25; 25; 25; 25]%Q.

(** The role weights of week 1 in the period-setup walkthrough of the
    backend documentation: 60% for the juniors, 40% for the manager. *)
Definition walkthroughWeek1 : list RoleWeightInput :=
  [ {| weight_role := sales_junior; weight_percentage := "60.00" |};
    {| weight_role := manager; weight_percentage := "40.00" |} ].

(** Weekly progress of two months in which Ana reaches 50 of 100 and Ben
    100 of 200. *)
Definition twoMonths : list WeeklyProgressResponse :=
  [ {| progress := Some
         [ [ {| progress_user_id := "u-ana"; progress_user_name := "Ana";
                progress_total_target := "50.00"; progress_total_achieved := "20.00" |};
             {| progress_user_id := "u-ben"; progress_user_name := "Ben";
                progress_total_target := "100.00"; progress_total_achieved := "60.00" |} ] ] |};
    {| progress := Some
         [ [ {| progress_user_id := "u-ana"; progress_user_name := "Ana";
                progress_total_target := "50.00"; progress_total_achieved := "30.00" |};
             {| progress_user_id := "u-ben"; progress_user_name := "Ben";
                progress_total_target := "100.00"; progress_total_achieved := "40.00" |} ] ] |} ].

Definition threeSnapshots : list LeaderboardSnapshot :=
  [ {| snapshot_id := "s1"; period_id := "period-2025-12";
       computed_at := "1764892800000"; rules_version := "v1" |};
    {| snapshot_id := "s2"; period_id := "period-2025-12";
       computed_at := "1765497600000"; rules_version := "v2" |};
    {| snapshot_id := "s3"; period_id := "period-2025-12";
       computed_at := "1765152000000"; rules_version := "v3" |} ].

(** Time stamps written as the milliseconds that [getTime] returns. *)
Definition millis (s : string) : Z := digits_value (list_ascii_of_string s).

(** The wizard on binary64 for the same period and team, holding the given
    weekly percentages and role weights. *)
Definition wizard64 (percentages : list float)
    (weights : gmap nat (@RoleRecord float)) : @State float :=
  {| selectedPeriod := Some december;
     members := [ana; ben];
     shopTargets := [("revenue"%string, F_parseFloat "10000.00")];
     weeks := fourWeeks;
     weeklyPercentages := percentages;
     roleWeights := weights |}.

(** Percentages that round to 1.00, 49.00, 25.00 and 24.99 on binary64. *)
Definition unevenWeeks : list float :=
  map F_parseFloat ["1.005"; "48.995"; "25"; "24.99"]%string.





End Examples.

(** * The rest of the target wizard *)

(** [Category] of [lib/api]; the wizard reads the identifier and the name. *)
Record Category := {
  cat_id : string;
  cat_name : string;
}.

Section Wizard.
Context {N : Type} `{JsNumber N}.
Variable parseFloat : string -> N.

Local Open Scope num_scope.

(** [shopTargets[categoryId]] *)
Definition get_target (shopTargets : list (string * N)) (categoryId : string)
  : option N :=
  snd <$> List.find (fun entry => String.eqb (fst entry) categoryId) shopTargets.

(** [categories.reduce((acc, cat) => ({ ...acc, [cat.id]: 0 }), {})], which
    is also what the first loop of [loadPeriodData] builds. *)
Definition zeroTargets (categories : list Category) : list (string * N) :=
  fold_left (fun acc cat => set_target acc (cat_id cat) zero) categories [].

(** The monthly targets that [loadPeriodData] puts into the state: a zero
    for every category, overwritten by the rows of the server; a null answer
    counts as no rows. [MonthlyTarget] has the fields of
    [MonthlyTargetInput]. *)
Definition loadShopTargets (categories : list Category)
    (targets : option (list MonthlyTargetInput)) : list (string * N) :=
  fold_left
    (fun targetsMap t =>
       set_target targetsMap (category_id t) (or_zero (parseFloat (target_value t))))
    (default [] targets) (zeroTargets categories).

(** The weekly percentages that [loadPeriodData] puts into the state: the
    stored percentage of every week, 0 for a week without a row; when nothing
    is stored, the equal distribution. [WeeklyDistribution] has the fields of
    [WeeklyDistributionInput]. *)
Definition loadWeeklyPercentages (periodWeeks : list PeriodWeek)
    (distribution : option (list WeeklyDistributionInput)) : list N :=
  match distribution with
  | Some (row :: rows) =>
      imap (fun idx _ =>
              match List.find (fun d => (week_index d =? idx + 1)%nat) (row :: rows) with
              | Some found => parseFloat (percentage found)
              | None => zero
              end)
           periodWeeks
  | _ =>
      let equalPct :=
        if (0 <? length periodWeeks)%nat
        then hundred / num_lit (inject_Z (Z.of_nat (length periodWeeks)))
        else num_lit 20 in
      map (fun _ => equalPct) periodWeeks
  end.

(** Step 2 of the wizard, as far as it depends on the total: whether the
    total is shown in emerald (amber otherwise), whether the "Auto-Balance"
    button is drawn, and whether "Next: Role Weights" is disabled. *)
Record WeeklyDistributionStep := {
  totalInEmerald : bool;
  autoBalanceOffered : bool;
  nextDisabled : bool;
}.

Definition renderWeeklyDistribution (weeklyPercentages : list N)
  : WeeklyDistributionStep :=
  let totalPercentage := sum weeklyPercentages in
  {| totalInEmerald :=
       num_ltb (Math_abs (totalPercentage - hundred)) (num_lit (1 # 2));
     autoBalanceOffered := Math_abs (totalPercentage - hundred) >? num_lit (1 # 2);
     nextDisabled := Math_abs (totalPercentage - hundred) >? num_lit (1 # 2) |}.

(** The percentages after a click on "Auto-Balance". *)
Definition autoBalance (weeklyPercentages : list N) : list N :=
  default weeklyPercentages (normalizePercentages weeklyPercentages).

End Wizard.

(** ** The team and the panels of step 3 *)

(** The four cases of the team composition, as [TargetManagement] derives
    them from the members. *)
Record TeamComposition := {
  juniorCount : nat;
  seniorCount : nat;
  hasOnlyJuniors : bool;
  hasOnlySeniors : bool;
  hasNoSalesStaff : bool;
  hasBothRoles : bool;
}.

Definition teamComposition (members : list ShopMember) : TeamComposition :=
  let juniorCount := count_role sales_junior members in
  let seniorCount := count_role sales_senior members in
  {| juniorCount := juniorCount;
     seniorCount := seniorCount;
     hasOnlyJuniors := (0 <? juniorCount)%nat && (seniorCount =? 0)%nat;
     hasOnlySeniors := (0 <? seniorCount)%nat && (juniorCount =? 0)%nat;
     hasNoSalesStaff := (juniorCount =? 0)%nat && (seniorCount =? 0)%nat;
     hasBothRoles := (0 <? juniorCount)%nat && (0 <? seniorCount)%nat |}.

(** The blocks of [renderRoleWeights] that depend on the team: the warning
    about missing sales staff, the note about the automatic assignment, the
    sliders, and the summary with the role that it names ("100% to Juniors"
    or "100% to Seniors"). *)
Record RoleWeightsStep := {
  noStaffWarning : bool;
  autoAssignedInfo : bool;
  sliders : bool;
  summary : option Role;
}.

Definition renderRoleWeights (members : list ShopMember) : RoleWeightsStep :=
  let team := teamComposition members in
  {| noStaffWarning := hasNoSalesStaff team;
     autoAssignedInfo := hasOnlyJuniors team || hasOnlySeniors team;
     sliders := hasBothRoles team;
     summary :=
       if negb (hasBothRoles team) && negb (hasNoSalesStaff team)
       then Some (if hasOnlyJuniors team then sales_junior else sales_senior)
       else None |}.

(** ** Months *)

(** [handlePrevMonth] and [handleNextMonth]: the selected year and month
    after the click. *)
Definition handlePrevMonth (selectedYear selectedMonth : Z) : Z * Z :=
  if selectedMonth =? 1 then (selectedYear - 1, 12)
  else (selectedYear, selectedMonth - 1).

Definition handleNextMonth (selectedYear selectedMonth : Z) : Z * Z :=
  if selectedMonth =? 12 then (selectedYear + 1, 1)
  else (selectedYear, selectedMonth + 1).

(** [visiblePeriods]: those who are not managers see published periods
    only. *)
Definition visiblePeriods (isManager : bool) (periods : list PeriodSummary)
  : list PeriodSummary :=
  if isManager then periods
  else List.filter (fun p => Status_eqb (status p) published) periods.

(** [historyPeriods]: the visible periods of the months before the current
    one. *)
Definition historyPeriods (currentYear currentMonth : Z)
    (visiblePeriods : list PeriodSummary) : list PeriodSummary :=
  List.filter
    (fun p =>
       if year p <? currentYear then true
       else if (year p =? currentYear) && (month p <? currentMonth) then true
       else false)
    visiblePeriods.

(** The cards of the history tab, in the order in which they are drawn:
    [historyPeriods.sort((a, b) => ...)]. *)
Definition historyCards (historyPeriods : list PeriodSummary) : list PeriodSummary :=
  Array_sort
    (fun a b =>
       (if negb (year a =? year b) then year b - year a else month b - month a) <? 0)
    historyPeriods.

(** ** The month selector *)

(** [String(n)] for an integer [n] below [10^21] in magnitude. *)
Definition integer_toString (n : Z) : list ascii :=
  (if n <? 0 then ["-"%char] else []) ++ decimal_digits (Z.abs n).

(** [s.padStart(maxLength, fill)] for a filler of one character. *)
Definition padStart (maxLength : nat) (fill : ascii) (s : list ascii) : list ascii :=
  replicate (maxLength - length s) fill ++ s.

(** [s.split(sep)] for a separator of one character: the pieces between the
    separators, one piece at least. *)
Fixpoint String_split (sep : ascii) (s : list ascii) : list (list ascii) :=
  match s with
  | [] => [[]]
  | c :: s' =>
      if Ascii.eqb c sep then [] :: String_split sep s'
      else match String_split sep s' with
           | piece :: pieces => (c :: piece) :: pieces
           | [] => [[c]]
           end
  end.

Definition is_hex_digit (c : ascii) : bool :=
  let n := nat_of_ascii c in
  is_digit c || ((65 <=? n)%nat && (n <=? 70)%nat) || ((97 <=? n)%nat && (n <=? 102)%nat).

Definition hex_digit_value (c : ascii) : Z :=
  let n := Z.of_nat (nat_of_ascii c) in
  if is_digit c then n - 48 else if n <=? 70 then n - 55 else n - 87.

Fixpoint span_hex_digits (cs : list ascii) : list ascii :=
  match cs with
  | c :: cs' => if is_hex_digit c then c :: span_hex_digits cs' else []
  | [] => []
  end.

(** [parseInt(s)] without a radix: white space and a sign are skipped, the
    prefix [0x] or [0X] selects radix 16, and the longest prefix of digits is
    read; [None] is NaN. The integer is the number returned as long as it is
    below [2^53] in magnitude. *)
Definition parseInt (s : list ascii) : option Z :=
  let cs := skip_whitespace s in
  let '(negative, cs) := take_sign cs in
  let sign := if negative then -1 else 1 in
  match cs with
  | c0 :: cx :: rest =>
      if Ascii.eqb c0 "0" && (Ascii.eqb cx "x" || Ascii.eqb cx "X") then
        match span_hex_digits rest with
        | [] => None
        | ds => Some (sign * fold_left (fun acc c => acc * 16 + hex_digit_value c) ds 0)
        end
      else
        match fst (span_digits cs) with
        | [] => None
        | ds => Some (sign * digits_value ds)
        end
  | _ =>
      match fst (span_digits cs) with
      | [] => None
      | ds => Some (sign * digits_value ds)
      end
  end.

(** The value of the month selector for the selected month:
    [`${selectedYear}-${String(selectedMonth).padStart(2, '0')}`]. *)
Definition selectValue (selectedYear selectedMonth : Z) : list ascii :=
  integer_toString selectedYear
  ++ "-"%char :: padStart 2 "0" (integer_toString selectedMonth).

(** The [onChange] handler of the selector: the year and the month that it
    stores for the chosen value. A missing piece is [undefined], which
    [parseInt] reads as NaN. *)
Definition selectChange (value : list ascii) : option Z * option Z :=
  let pieces := String_split "-" value in
  (pieces !! 0%nat ≫= parseInt, pieces !! 1%nat ≫= parseInt).

(** [new Date(y, m)] for integers, read back with [getFullYear()] and
    [getMonth()]: a month outside 0..11 carries into the year, and a year
    from 0 to 99 counts from 1900. This holds for the years that a [Date] can
    represent (up to about 275000). *)
Definition Date_year_month (y m : Z) : Z * Z :=
  let yr := if (0 <=? y) && (y <=? 99) then 1900 + y else y in
  (yr + m / 12, m mod 12).

(** The values of the 24 options of the selector; [baseYear] and [baseMonth]
    are [getFullYear()] and [getMonth()] of today's date. *)
Definition monthSelectOptions (baseYear baseMonth : Z) : list (list ascii) :=
  map (fun i =>
         let monthOffset := Z.of_nat i - 12 in
         let '(fullYear, monthIndex) :=
           Date_year_month baseYear (baseMonth + monthOffset) in
         integer_toString fullYear
         ++ "-"%char :: padStart 2 "0" (integer_toString (monthIndex + 1)))
      (seq 0 24).

(** * The rest of the leaderboard page *)

Inductive PresetRange :=
  this_month | last_month | last_3_months | year_to_date | custom.

Record DateRange := {
  startYear : Z;
  startMonth : Z;
  endYear : Z;
  endMonth : Z;
}.

(** [getPresetDateRange]; [nowYear] and [nowMonth] are [now.getFullYear()]
    and [now.getMonth()]. *)
Definition getPresetDateRange (preset : PresetRange) (nowYear nowMonth : Z)
  : DateRange :=
  let currentYear := nowYear in
  let currentMonth := nowMonth + 1 in
  match preset with
  | this_month =>
      {| startYear := currentYear; startMonth := currentMonth;
         endYear := currentYear; endMonth := currentMonth |}
  | last_month =>
      let lastMonth := if currentMonth =? 1 then 12 else currentMonth - 1 in
      let lastMonthYear := if currentMonth =? 1 then currentYear - 1 else currentYear in
      {| startYear := lastMonthYear; startMonth := lastMonth;
         endYear := lastMonthYear; endMonth := lastMonth |}
  | last_3_months =>
      let startMonth := currentMonth - 2 in
      let '(startMonth, startYear) :=
        if startMonth <=? 0 then (startMonth + 12, currentYear - 1)
        else (startMonth, currentYear) in
      {| startYear := startYear; startMonth := startMonth;
         endYear := currentYear; endMonth := currentMonth |}
  | year_to_date =>
      {| startYear := currentYear; startMonth := 1;
         endYear := currentYear; endMonth := currentMonth |}
  | custom =>
      {| startYear := currentYear; startMonth := currentMonth;
         endYear := currentYear; endMonth := currentMonth |}
  end.

(** [periodsInRange] *)
Definition periodsInRange (periods : list PeriodSummary) (dateRange : DateRange)
  : list PeriodSummary :=
  List.filter
    (fun p =>
       let periodDate := year p * 12 + month p in
       let startDate := startYear dateRange * 12 + startMonth dateRange in
       let endDate := endYear dateRange * 12 + endMonth dateRange in
       (startDate <=? periodDate) && (periodDate <=? endDate))
    periods.

(** The [while] loop of [monthOptions], which brings a month number that is
    zero or negative back into a year: [fuel] bounds its iterations. *)
Fixpoint wrap_month (fuel : nat) (month year : Z) : Z * Z :=
  match fuel with
  | O => (month, year)
  | S fuel' =>
      if month <=? 0 then wrap_month fuel' (month + 12) (year - 1)
      else (month, year)
  end.

(** [monthOptions]: the year and the month of the 24 options of the custom
    picker. The loop adds 12 until the month is positive, which takes fewer
    than [1 - month] rounds. *)
Definition monthOptions (currentYear currentMonth : Z) : list (Z * Z) :=
  map (fun i =>
         let month := currentMonth - Z.of_nat i in
         let '(month, year) := wrap_month (Z.to_nat (1 - month)) month currentYear in
         (year, month))
      (seq 0 24).

(** [allProgressData]: the progress of the first six periods of the range,
    as far as it has arrived; [progressData k] is [data] of the hook for
    [periodIds[k]]. An empty identifier is falsy. *)
Definition allProgressData (isSingleMonth : bool) (periodIds : list string)
    (progressData : nat -> option WeeklyProgressResponse)
  : list (string * WeeklyProgressResponse) :=
  if isSingleMonth then []
  else
    flat_map
      (fun k =>
         match periodIds !! k, progressData k with
         | Some periodId, Some data =>
             if String.eqb periodId "" then [] else [(periodId, data)]
         | _, _ => []
         end)
      (seq 0 6).

Section Awards.
Context {N : Type} `{JsNumber N}.

(** The special awards. A sorted copy of a list that is not empty has a
    first element, so [bestAchiever] is always there. *)
Record Awards := {
  champion : @LeaderboardEntry N;
  bestAchiever : option (@LeaderboardEntry N);
  streakKing : option (@LeaderboardEntry N);
  mostConsistent : option (@LeaderboardEntry N);
}.

(** [awards]; [None] is [null], for an empty leaderboard. *)
Definition awards (leaderboardData : list (@LeaderboardEntry N)) : option Awards :=
  match leaderboardData with
  | [] => None
  | champion :: _ =>
      let bestAchiever :=
        head (Array_sort
                (fun a b => num_ltb (num_sub (achievement_pct b) (achievement_pct a)) zero)
                leaderboardData) in
      let streakKing :=
        head (Array_sort (fun a b => streak_days b - streak_days a <? 0)
                leaderboardData) in
      Some {| champion := champion;
              bestAchiever := bestAchiever;
              streakKing :=
                match streakKing with
                | Some king => if 0 <? streak_days king then Some king else None
                | None => None
                end;
              mostConsistent := bestAchiever |}
  end.

End Awards.

(** * The access token of [lib/api] *)

(** The module variables [cachedToken] and [tokenExpiry]. *)
Record TokenCache := {
  cachedToken : option string;
  tokenExpiry : Z;
}.

(** [session.data.session], as far as [getToken] reads it; [expires_at] is
    in seconds and may be missing. *)
Record Session := {
  access_token : string;
  expires_at : option Z;
}.

(** A string that is neither null nor empty is truthy. *)
Definition truthy_string (s : option string) : bool :=
  match s with
  | Some s => negb (String.eqb s "")
  | None => false
  end.

(** [getToken] at the time [now] (in milliseconds). [getSession] is what
    [supabase.auth.getSession()] would answer: the session, or null. The
    result is the token, the variables afterwards, and whether
    [getSession()] was called. *)
Definition getToken (cache : TokenCache) (now : Z) (getSession : option Session)
  : option string * TokenCache * bool :=
  if truthy_string (cachedToken cache) && (now + 60000 <? tokenExpiry cache)
  then (cachedToken cache, cache, false)
  else
    let token := access_token <$> getSession in
    (token,
     {| cachedToken := token;
        tokenExpiry := default 0 (getSession ≫= expires_at) * 1000 |},
     true).

(** [clearTokenCache] *)
Definition clearTokenCache (cache : TokenCache) : TokenCache :=
  {| cachedToken := None; tokenExpiry := 0 |}.

(** * The origin of the API *)

(** A line terminator that is one character of a string here: line feed or
    carriage return. *)
Definition is_line_terminator (c : ascii) : bool :=
  (nat_of_ascii c =? 10)%nat || (nat_of_ascii c =? 13)%nat.

(** Whether all of [cs] matches [\/?api\/(v1|v2).?]: an optional slash,
    [api/v], the digit 1 or 2, and at most one more character, which is no
    line terminator. *)
Definition matches_api_version (cs : list ascii) : bool :=
  let cs :=
    match cs with
    | c :: cs' => if Ascii.eqb c "/" then cs' else cs
    | [] => cs
    end in
  starts_with (list_ascii_of_string "api/v") cs
  && match drop 5 cs with
     | digit :: rest =>
         (Ascii.eqb digit "1" || Ascii.eqb digit "2")
         && match rest with
            | [] => true
            | [c] => negb (is_line_terminator c)
            | _ => false
            end
     | [] => false
     end.

(** [s.replace(/\/?api\/(v1|v2).?$/, '')]: the match has to end where the
    string ends, so the first position from which the rest of the string
    matches is where the string is cut. *)
Fixpoint strip_api_version (s : list ascii) : list ascii :=
  if matches_api_version s then []
  else match s with
       | [] => []
       | c :: s' => c :: strip_api_version s'
       end.

(** [API_ORIGIN], as derived from [API_BASE]. *)
Definition API_ORIGIN (API_BASE : string) : string :=
  string_of_list_ascii (strip_api_version (list_ascii_of_string API_BASE)).

(** * The weekly breakdown *)

(** [toggleEmployee]: the expanded employees after a click on the card of
    [employeeId]. *)
Definition toggleEmployee (prev : list string) (employeeId : string) : list string :=
  if existsb (String.eqb employeeId) prev
  then List.filter (fun id => negb (String.eqb id employeeId)) prev
  else prev ++ [employeeId].

(** * Properties *)

(** ** Remainder distribution *)

Lemma total_shares_from (b r : Z) (members : list string) (k : nat) :
  Allocation.total
    (imap (fun i user => (user, b + (if Z.of_nat (k + i) <? r then 1 else 0))) members)
  = Z.of_nat (length members) * b
    + Z.max 0 (Z.min r (Z.of_nat (k + length members)) - Z.of_nat k).
Proof.
  revert k. induction members as [|user members IH]; intros k.
  - cbn [imap Allocation.total foldr length]. change (Z.of_nat 0) with 0. lia.
  - cbn [imap Allocation.total foldr length]. unfold Allocation.total in IH.
    rewrite (imap_ext _
               (fun i user => (user, b + (if Z.of_nat (S k + i) <? r then 1 else 0)))).
    2:{ intros i x _. simpl. replace (k + S i)%nat with (S (k + i)) by lia.
        reflexivity. }
    rewrite IH. simpl snd. replace (k + 0)%nat with k by lia.
    rewrite Nat2Z.inj_succ.
    destruct (Z.ltb_spec (Z.of_nat k) r); lia.
Qed.

(** C7. For a non-negative role target (in hundredths) and at least one
    member, the shares of the remainder-distribution step add up to the role
    target exactly; the remainder is non-negative and smaller than the number
    of members, and every share is the base or the base plus 0.01. *)
Theorem remainder_distribution_exact (roleTarget : Z) (members : list string) :
  0 <= roleTarget ->
  (1 <= length members)%nat ->
  Allocation.total (Allocation.distribute roleTarget members) = roleTarget
  /\ 0 <= Allocation.remainder roleTarget (length members) < Z.of_nat (length members)
  /\ Forall (fun s => s.2 = Allocation.base roleTarget (length members)
                      \/ s.2 = Allocation.base roleTarget (length members) + 1)
            (Allocation.distribute roleTarget members).
Proof.
  intros Hpos Hn.
  assert (Hrem : 0 <= Allocation.remainder roleTarget (length members)
                 < Z.of_nat (length members)).
  { unfold Allocation.remainder, Allocation.base.
    pose proof (Z.mod_pos_bound roleTarget (Z.of_nat (length members)) ltac:(lia)).
    pose proof (Z.div_mod roleTarget (Z.of_nat (length members)) ltac:(lia)). lia. }
  split; [|split; [exact Hrem|]].
  - unfold Allocation.distribute, Allocation.share.
    rewrite (total_shares_from _ _ members 0).
    unfold Allocation.remainder in *. lia.
  - unfold Allocation.distribute. apply Forall_forall. intros s Hs.
    apply elem_of_lookup_imap in Hs as (i & user & -> & _).
    unfold Allocation.share. simpl. destruct (_ <? _); lia.
Qed.

(** The example of the specification: 100.00 among three members. *)
Lemma remainder_distribution_example :
  Allocation.distribute 10000 ["ana"; "ben"; "cleo"]%string
  = [("ana", 3334); ("ben", 3333); ("cleo", 3333)]%string
  /\ Allocation.total (Allocation.distribute 10000 ["ana"; "ben"; "cleo"]%string) = 10000.
Proof.
  split; [reflexivity|].
  apply (remainder_distribution_exact 10000 ["ana"; "ben"; "cleo"]%string); simpl; lia.
Defined.

(** ** Status transitions *)

Lemma historyCardRequests_offered (isManager : bool) (period : PeriodSummary) :
  Forall (fun request : StatusRequest =>
            offeredTransition (status request.1) request.2 = true)
         (historyCardRequests isManager period).
Proof.
  unfold historyCardRequests, when.
  destruct isManager, (status period) eqn:E; simpl;
    repeat constructor; simpl; rewrite E; reflexivity.
Qed.

(** C10. Every [handleStatusChange] handler on screen asks for one of the
    transitions draft -> published, published -> draft, published -> locked
    and locked -> archived of the period it is drawn for; so none leaves
    archived, and from draft only published is asked for. *)
Theorem status_requests_offered (view : View) (activeTab : Tab) (isManager : bool)
    (selectedPeriod : option PeriodSummary) (historyPeriods : list PeriodSummary) :
  Forall (fun request : StatusRequest =>
            offeredTransition (status request.1) request.2 = true
            /\ status request.1 <> archived
            /\ (status request.1 = draft -> request.2 = published))
         (statusRequests view activeTab isManager selectedPeriod historyPeriods).
Proof.
  eapply Forall_impl with
    (P := fun request : StatusRequest =>
            offeredTransition (status request.1) request.2 = true).
  - unfold statusRequests, renderOverview, when.
    destruct view; [|constructor].
    destruct activeTab; rewrite ?app_nil_r; simpl.
    + destruct selectedPeriod as [p|]; [|constructor].
      unfold currentTabRequests, when.
      destruct isManager, (status p) eqn:E; simpl;
        repeat constructor; simpl; rewrite E; reflexivity.
    + induction historyPeriods as [|p ps IH]; simpl; [constructor|].
      apply Forall_app. split; [apply historyCardRequests_offered | exact IH].
  - intros [period newStatus]; simpl.
    destruct (status period), newStatus; simpl; intros; repeat split; congruence.
Qed.

(** ** Sorting *)

Section SortFacts.
Context {A : Type} (before : A -> A -> bool) (R : A -> A -> Prop).
Hypothesis before_R : forall x y, before x y = true -> R x y.
Hypothesis not_before_R : forall x y, before x y = false -> R y x.
Hypothesis R_trans : forall x y z, R x y -> R y z -> R x z.

Lemma sort_insert_perm (x : A) (l : list A) : sort_insert before x l ≡ₚ x :: l.
Proof.
  induction l as [|y l IH]; simpl; [reflexivity|].
  destruct (before x y); [reflexivity|].
  rewrite IH. apply Permutation_swap.
Qed.

Lemma fold_insert_perm (l acc : list A) :
  fold_left (fun sorted x => sort_insert before x sorted) l acc ≡ₚ l ++ acc.
Proof.
  revert acc. induction l as [|x l IH]; intros acc; simpl; [reflexivity|].
  rewrite IH, sort_insert_perm. symmetry. apply Permutation_middle.
Qed.

Lemma Array_sort_perm (l : list A) : Array_sort before l ≡ₚ l.
Proof. unfold Array_sort. rewrite fold_insert_perm, app_nil_r. reflexivity. Qed.

Lemma sort_insert_sorted (x : A) (l : list A) :
  StronglySorted R l -> StronglySorted R (sort_insert before x l).
Proof.
  induction 1 as [|y l Hl IH Hy]; simpl.
  - repeat constructor.
  - destruct (before x y) eqn:E.
    + constructor; [constructor; assumption|].
      constructor; [eauto|].
      eapply List.Forall_impl; [|exact Hy]. eauto.
    + constructor; [exact IH|].
      rewrite (sort_insert_perm x l). constructor; [eauto | exact Hy].
Qed.

Lemma fold_insert_sorted (l acc : list A) :
  StronglySorted R acc ->
  StronglySorted R (fold_left (fun sorted x => sort_insert before x sorted) l acc).
Proof.
  revert acc. induction l as [|x l IH]; intros acc Hacc; simpl; [exact Hacc|].
  apply IH, sort_insert_sorted, Hacc.
Qed.

Lemma Array_sort_sorted (l : list A) : StronglySorted R (Array_sort before l).
Proof. apply fold_insert_sorted. constructor. Qed.
End SortFacts.

(** ** The latest snapshot *)

(** C5. Of a non-empty list of snapshots, [latestSnapshot] is one with the
    greatest [computed_at], and it is the snapshot whose rows are fetched for
    display. *)
Theorem latestSnapshot_is_latest (getTime : string -> Z)
    (snapshots : list LeaderboardSnapshot) :
  snapshots <> [] ->
  exists latest,
    latestSnapshot getTime (Some snapshots) = Some latest
    /\ latest ∈ snapshots
    /\ (forall s, s ∈ snapshots ->
          getTime (computed_at s) <= getTime (computed_at latest))
    /\ displayedSnapshot getTime (Some snapshots) = Some (snapshot_id latest).
Proof.
  intros Hne.
  set (before := fun a b : LeaderboardSnapshot =>
                   getTime (computed_at b) - getTime (computed_at a) <? 0).
  set (R := fun a b : LeaderboardSnapshot =>
              getTime (computed_at b) <= getTime (computed_at a)).
  assert (Hsorted : StronglySorted R (Array_sort before snapshots)).
  { apply Array_sort_sorted; unfold before, R; intros x y.
    - intros E%Z.ltb_lt. lia.
    - intros E%Z.ltb_ge. lia.
    - intros z ? ?. lia. }
  pose proof (Array_sort_perm before snapshots) as Hperm.
  assert (Hlatest : latestSnapshot getTime (Some snapshots)
                    = head (Array_sort before snapshots)).
  { destruct snapshots; [congruence | reflexivity]. }
  destruct (Array_sort before snapshots) as [|latest rest] eqn:E.
  { apply Permutation_nil_l in Hperm. congruence. }
  exists latest. split; [exact Hlatest|]. split; [|split].
  - rewrite <- Hperm. left.
  - intros s Hs. rewrite <- Hperm in Hs.
    apply StronglySorted_inv in Hsorted as [_ Hall].
    apply elem_of_cons in Hs as [->|Hs]; [lia|].
    rewrite List.Forall_forall in Hall. apply Hall, list_elem_of_In, Hs.
  - unfold displayedSnapshot. rewrite Hlatest. reflexivity.
Qed.

Lemma latestSnapshot_example :
  latestSnapshot Examples.millis (Some Examples.threeSnapshots)
  = nth_error Examples.threeSnapshots 1
  /\ exists latest,
       latestSnapshot Examples.millis (Some Examples.threeSnapshots) = Some latest
       /\ forall s, s ∈ Examples.threeSnapshots ->
            Examples.millis (computed_at s) <= Examples.millis (computed_at latest).
Proof.
  split; [reflexivity|].
  destruct (latestSnapshot_is_latest Examples.millis Examples.threeSnapshots
              ltac:(discriminate)) as (latest & Hlatest & _ & Hmax & _).
  exists latest. split; [exact Hlatest | exact Hmax].
Defined.

(** ** The order of the requests of a save *)

Lemma elem_of_delete_or {A} (l : list A) (i : nat) (x y : A) :
  l !! i = Some y -> x ∈ l -> x = y \/ x ∈ delete i l.
Proof.
  intros Hi Hx. rewrite <- (take_drop_middle l i y Hi) in Hx.
  rewrite delete_take_drop.
  apply elem_of_app in Hx as [Hx|Hx]; [right; apply elem_of_app; auto|].
  apply elem_of_cons in Hx as [->|Hx]; [left; reflexivity|].
  right. apply elem_of_app. auto.
Qed.

Lemma await_all_fulfilled (n : nat) :
  forall (pending : list (ApiCall * bool)) (sched : nat -> nat) (step : nat)
         (events : list Event),
    (length pending <= n)%nat ->
    await_all n pending sched step = (events, true) ->
    forall call fulfilled,
      (call, fulfilled) ∈ pending -> fulfilled = true /\ Settle call true ∈ events.
Proof.
  induction n as [|n IH]; intros pending sched step events Hlen Hrun call fulfilled Hin.
  - destruct pending; [inversion Hin | simpl in Hlen; lia].
  - simpl in Hrun.
    destruct (pending !! (sched step mod length pending)%nat) as [[c o]|] eqn:Hi.
    + destruct o; [|discriminate].
      destruct (await_all n _ sched (S step)) as [events' all] eqn:Hrec.
      injection Hrun as <- ->.
      destruct (elem_of_delete_or _ _ _ _ Hi Hin) as [[= -> ->]|Hin'].
      * split; [reflexivity | left].
      * assert (Hlen' : (length (delete (sched step mod length pending)%nat pending)
                         <= n)%nat).
        { rewrite length_delete; [lia | eauto]. }
        destruct (IH _ _ _ _ Hlen' Hrec _ _ Hin') as [? ?].
        split; [assumption | right; assumption].
    + apply lookup_ge_None in Hi.
      destruct pending; [inversion Hin|].
      pose proof (Nat.mod_upper_bound (sched step) (length (p :: pending))
                    ltac:(simpl; lia)). lia.
Qed.

Lemma await_all_only_settles (n : nat) :
  forall (pending : list (ApiCall * bool)) (sched : nat -> nat) (step : nat) call,
    Invoke call ∉ (await_all n pending sched step).1.
Proof.
  induction n as [|n IH]; intros pending sched step call; simpl.
  - apply not_elem_of_nil.
  - destruct (pending !! _) as [[c [|]]|]; simpl.
    + specialize (IH (delete (sched step mod length pending)%nat pending)
                     sched (S step) call).
      destruct (await_all n _ sched (S step)) as [events all]; simpl in *.
      intros [?|?]%elem_of_cons; [discriminate | auto].
    + intros [?|?%elem_of_nil]%elem_of_cons; [discriminate | assumption].
    + apply not_elem_of_nil.
Qed.

Lemma split_after {A} (a b pre post : list A) (x : A) :
  a ++ b = pre ++ x :: post -> x ∉ a ->
  exists l, pre = a ++ l /\ b = l ++ x :: post.
Proof.
  revert pre. induction a as [|y a IH]; intros pre Heq Hx; simpl in *.
  - exists pre. auto.
  - destruct pre as [|y' pre]; simpl in Heq.
    + injection Heq as -> _. exfalso. apply Hx. left.
    + injection Heq as -> Heq.
      destruct (IH pre Heq) as (l & -> & ->).
      { intros ?. apply Hx. right. assumption. }
      exists l. auto.
Qed.

Section SaveOrder.
Context {N : Type} `{JsNumber N}.

Lemma configurationWrites_not_recompute (st : State) (period : PeriodSummary) call :
  call ∈ configurationWrites st period -> is_recompute call = false.
Proof.
  unfold configurationWrites. intros [Hc|Hc]%elem_of_app.
  - apply elem_of_lookup_imap in Hc as (i & w & -> & _). reflexivity.
  - apply elem_of_cons in Hc as [->|Hc]; [reflexivity|].
    apply elem_of_cons in Hc as [->|Hc]; [reflexivity|]. inversion Hc.
Qed.

(** Every configuration write is sent, whatever happens to the others. *)
Lemma writes_invoked (st : State) (period : PeriodSummary) (call : ApiCall)
    (outcome : nat -> bool) (sched : nat -> nat) :
  selectedPeriod st = Some period ->
  call ∈ configurationWrites st period ->
  Invoke call ∈ handleSaveTargets st outcome sched.
Proof.
  intros Hperiod Hcall. unfold handleSaveTargets. rewrite Hperiod.
  destruct (await_all _ _ sched 0) as [settled saved].
  apply elem_of_app. right. apply elem_of_app. left.
  apply list_elem_of_fmap. eauto.
Qed.

(** C8. In a run of [handleSaveTargets], an invocation of the recompute
    request comes after the invocation and the successful settlement of
    every configuration write (monthly targets, weekly distribution, role
    weights of every week); and when one of the writes fails, recompute is
    not invoked at all. *)
Theorem recompute_only_after_writes (st : State) (period : PeriodSummary)
    (outcome : nat -> bool) (sched : nat -> nat) :
  selectedPeriod st = Some period ->
  (forall pre call post,
      handleSaveTargets st outcome sched = pre ++ Invoke call :: post ->
      is_recompute call = true ->
      forall write,
        write ∈ configurationWrites st period ->
        Invoke write ∈ pre /\ Settle write true ∈ pre)
  /\ ((exists i,
         (i < length (configurationWrites st period))%nat /\ outcome i = false) ->
      forall call,
        is_recompute call = true -> Invoke call ∉ handleSaveTargets st outcome sched).
Proof.
  intros Hperiod. unfold handleSaveTargets. rewrite Hperiod.
  set (writes := configurationWrites st period).
  set (pending := imap (fun i call => (call, outcome i)) writes).
  pose proof (await_all_only_settles (length pending) pending sched 0) as Honly.
  pose proof (await_all_fulfilled (length pending) pending sched 0) as Hall.
  destruct (await_all (length pending) pending sched 0) as [settled saved] eqn:Hrun.
  simpl in Honly.
  assert (Hhead : forall call, is_recompute call = true ->
            Invoke call ∉ [setSaving true; setLocalError false]
                          ++ map Invoke writes ++ settled).
  { intros call Hcall Hin.
    apply elem_of_app in Hin as [Hin|Hin].
    { repeat (apply elem_of_cons in Hin as [Hin|Hin]; [discriminate|]).
      inversion Hin. }
    apply elem_of_app in Hin as [Hin|Hin]; [|exact (Honly call Hin)].
    apply list_elem_of_fmap in Hin as (w & [= ->] & Hw).
    apply configurationWrites_not_recompute in Hw. congruence. }
  assert (Hpending : forall i write, writes !! i = Some write ->
            (write, outcome i) ∈ pending).
  { intros i write Hi. apply elem_of_lookup_imap. eauto. }
  split.
  - intros pre call post Htrace Hcall write Hwrite.
    rewrite (app_assoc _ (map Invoke writes)), (app_assoc _ settled) in Htrace.
    rewrite <- (app_assoc _ (map Invoke writes) settled) in Htrace.
    apply split_after in Htrace as (l & -> & Htail); [|apply Hhead, Hcall].
    destruct saved.
    + apply list_elem_of_lookup in Hwrite as [i Hi].
      destruct (Hall settled (Nat.le_refl _) eq_refl write (outcome i)
                  (Hpending i write Hi)) as [_ Hs].
      split.
      * apply elem_of_app. left. apply elem_of_app. right.
        apply elem_of_app. left. apply list_elem_of_fmap.
        exists write. split; [reflexivity|].
        apply list_elem_of_lookup. eauto.
      * apply elem_of_app. left. apply elem_of_app. right.
        apply elem_of_app. right. exact Hs.
    + exfalso.
      assert (Hin : Invoke call ∈ [setLocalError true] ++ [setSaving false]).
      { rewrite Htail. apply elem_of_app. right. left. }
      simpl in Hin.
      repeat (apply elem_of_cons in Hin as [Hin|Hin]; [discriminate|]).
      inversion Hin.
  - intros (i & Hi & Hfail) call Hcall Hin.
    apply lookup_lt_is_Some_2 in Hi as [write Hi].
    destruct saved.
    { destruct (Hall settled (Nat.le_refl _) eq_refl write (outcome i)
                  (Hpending i write Hi)) as [Ho _]. congruence. }
    rewrite (app_assoc _ (map Invoke writes)), (app_assoc _ settled) in Hin.
    rewrite <- (app_assoc _ (map Invoke writes) settled) in Hin.
    apply elem_of_app in Hin as [Hin|Hin]; [exact (Hhead call Hcall Hin)|].
    simpl in Hin.
    repeat (apply elem_of_cons in Hin as [Hin|Hin]; [discriminate|]).
    inversion Hin.
Qed.
End SaveOrder.

(** ** Exact arithmetic *)

Local Open Scope Q_scope.

Ltac exact_ops :=
  cbn [num_lit num_add num_sub num_mul num_div num_ltb num_leb num_eqb
       num_truthy Math_max Math_min Math_abs Math_round toFixed2 Exact] in *.

Lemma fold_left_Qplus (l : list Q) (a : Q) : fold_left Qplus l a == a + Qsum l.
Proof.
  revert a. induction l as [|x l IH]; intros a; simpl.
  - ring.
  - rewrite IH. ring.
Qed.

Lemma sum_Qsum (l : list Q) : sum l == Qsum l.
Proof. unfold sum, zero. exact_ops. rewrite fold_left_Qplus. ring. Qed.

Lemma Qsum_app (l1 l2 : list Q) : Qsum (l1 ++ l2) == Qsum l1 + Qsum l2.
Proof. induction l1 as [|x l1 IH]; simpl; [ring|]. rewrite IH. ring. Qed.



Lemma Q_ltb_lt (a b : Q) : Q_ltb a b = true <-> a < b.
Proof.
  unfold Q_ltb. rewrite negb_true_iff, <- not_true_iff_false, Qle_bool_iff.
  split; [apply Qnot_le_lt | apply Qlt_not_le].
Qed.

Lemma Q_ltb_ge (a b : Q) : Q_ltb a b = false <-> b <= a.
Proof. unfold Q_ltb. rewrite negb_false_iff. apply Qle_bool_iff. Qed.

Lemma clamp_bounds (value : Q) :
  0 <= Math_max zero (Math_min hundred value) <= 100.
Proof.
  unfold zero, hundred. exact_ops.
  destruct (Q_ltb value 100) eqn:E1; [apply Q_ltb_lt in E1 | apply Q_ltb_ge in E1].
  - destruct (Q_ltb 0 value) eqn:E2; [apply Q_ltb_lt in E2 | apply Q_ltb_ge in E2];
      split; lra.
  - destruct (Q_ltb 0 100) eqn:E2; [|discriminate]. split; lra.
Qed.

(** ** Redistribution of the weekly percentages *)


(** ** Printing and reading two-digit decimals *)

Local Open Scope Z_scope.

Lemma digit_char_value (d : Z) : 0 <= d < 10 -> digit_value (digit_char d) = d.
Proof.
  intros Hd. unfold digit_value, digit_char.
  rewrite nat_ascii_embedding by lia. lia.
Qed.

Lemma digit_char_is_digit (d : Z) : 0 <= d < 10 -> is_digit (digit_char d) = true.
Proof.
  intros Hd. unfold is_digit, digit_char.
  rewrite nat_ascii_embedding by lia.
  apply andb_true_intro. split; apply Nat.leb_le; lia.
Qed.

Lemma digits_aux_value (fuel : nat) :
  forall n acc, 0 <= n < 10 ^ Z.of_nat fuel ->
    fold_left digits_step (digits_aux fuel n acc) 0 = fold_left digits_step acc n.
Proof.
  induction fuel as [|fuel IH]; intros n acc Hn.
  - simpl in *. replace n with 0 by lia. reflexivity.
  - cbn [digits_aux].
    assert (Hmod : 0 <= n mod 10 < 10) by (apply Z.mod_pos_bound; lia).
    pose proof (Z.div_mod n 10 ltac:(lia)) as Hdm.
    destruct (Z.ltb_spec n 10).
    + simpl. unfold digits_step at 2. rewrite digit_char_value by lia.
      rewrite Z.mod_small by lia. reflexivity.
    + rewrite IH.
      * simpl. unfold digits_step at 2. rewrite digit_char_value by lia.
        f_equal. lia.
      * rewrite Nat2Z.inj_succ, Z.pow_succ_r in Hn by lia.
        split; [apply Z.div_pos; lia|].
        apply Z.div_lt_upper_bound; lia.
Qed.

Lemma digits_aux_digits (fuel : nat) :
  forall n acc, 0 <= n -> forallb is_digit acc = true ->
    forallb is_digit (digits_aux fuel n acc) = true.
Proof.
  induction fuel as [|fuel IH]; intros n acc Hn Hacc; [exact Hacc|].
  cbn [digits_aux].
  assert (Hmod : 0 <= n mod 10 < 10) by (apply Z.mod_pos_bound; lia).
  assert (Hacc' : forallb is_digit (digit_char (n mod 10) :: acc) = true).
  { cbn [forallb]. rewrite digit_char_is_digit by lia. exact Hacc. }
  destruct (n <? 10); [exact Hacc'|].
  apply IH; [apply Z.div_pos; lia | exact Hacc'].
Qed.

Lemma digits_aux_length (fuel : nat) :
  forall n acc, (length acc + (if fuel is O then 0 else 1) <= length (digits_aux fuel n acc))%nat.
Proof.
  induction fuel as [|fuel IH]; intros n acc; [simpl; lia|].
  cbn [digits_aux]. destruct (n <? 10); [simpl; lia|].
  specialize (IH (n / 10) (digit_char (n mod 10) :: acc)).
  simpl in IH. destruct fuel; simpl in *; lia.
Qed.

Lemma decimal_digits_value (n : Z) : 0 <= n -> digits_value (decimal_digits n) = n.
Proof.
  intros Hn. unfold digits_value, decimal_digits.
  change (fun acc c => acc * 10 + digit_value c) with digits_step.
  rewrite digits_aux_value; [reflexivity|].
  split; [exact Hn|].
  rewrite Nat2Z.inj_succ, Z2Nat.id by apply Z.log2_nonneg.
  destruct (Z.eq_dec n 0) as [->|Hn0]; [reflexivity|].
  pose proof (Z.log2_spec n ltac:(lia)) as [_ Hlt].
  eapply Z.lt_le_trans; [exact Hlt|].
  apply Z.pow_le_mono_l. lia.
Qed.

Lemma decimal_digits_digits (n : Z) :
  0 <= n -> forallb is_digit (decimal_digits n) = true.
Proof. intros Hn. apply digits_aux_digits; [exact Hn | reflexivity]. Qed.

Lemma decimal_digits_length (n : Z) : (1 <= length (decimal_digits n))%nat.
Proof.
  unfold decimal_digits.
  pose proof (digits_aux_length (S (Z.to_nat (Z.log2 n))) n []). simpl in *. lia.
Qed.

Lemma digits_value_zeros (k : nat) (ds : list ascii) :
  digits_value (zeros k ++ ds) = digits_value ds.
Proof.
  unfold digits_value. rewrite fold_left_app. f_equal.
  induction k as [|k IH]; [reflexivity|]. simpl. exact IH.
Qed.

Lemma zeros_digits (k : nat) : forallb is_digit (zeros k) = true.
Proof. induction k as [|k IH]; [reflexivity|]. simpl. exact IH. Qed.

(** A number printed with two fractional digits reads back as itself. *)
Lemma fixed2_value_string (negative : bool) (n : Z) :
  0 <= n ->
  fixed2_value (fixed2_string negative n) = Some (if negative then - n else n).
Proof.
  intros Hn. unfold fixed2_value, fixed2_string, fixed2_digits.
  rewrite list_ascii_of_string_of_list_ascii.
  set (m := zeros (3 - length (decimal_digits n)) ++ decimal_digits n).
  assert (Hm : (3 <= length m)%nat).
  { unfold m. rewrite length_app. unfold zeros. rewrite length_replicate.
    pose proof (decimal_digits_length n). lia. }
  assert (Hdigits : forallb is_digit m = true).
  { unfold m. rewrite forallb_app, zeros_digits, decimal_digits_digits by lia.
    reflexivity. }
  assert (Hvalue : digits_value m = n).
  { unfold m. rewrite digits_value_zeros. apply decimal_digits_value, Hn. }
  set (a := take (length m - 2) m). set (b := drop (length m - 2) m).
  assert (Hab : m = a ++ b) by (symmetry; apply take_drop).
  assert (Ha : length a = (length m - 2)%nat) by (unfold a; rewrite length_take; lia).
  assert (Hb : length b = 2%nat) by (unfold b; rewrite length_drop; lia).
  destruct b as [|d1 [|d2 [|? ?]]]; try discriminate Hb. clear Hb.
  set (cs := a ++ "."%char :: [d1; d2]).
  assert (Hsign :
    match (if negative then ["-"%char] else []) ++ cs with
    | [] => (false, (if negative then ["-"%char] else []) ++ cs)
    | c :: cs' =>
        if Ascii.eqb c "-" then (true, cs')
        else (false, (if negative then ["-"%char] else []) ++ cs)
    end = (negative, cs)).
  { destruct negative; [reflexivity|]. cbn [app]. unfold cs.
    destruct a as [|c a']; [simpl in Ha; lia|]. cbn [app].
    rewrite Hab in Hdigits. cbn [app forallb] in Hdigits.
    apply andb_prop in Hdigits as [Hc _].
    destruct (Ascii.eqb_spec c "-"%char) as [->|]; [discriminate Hc | reflexivity]. }
  rewrite Hsign.
  assert (Hk : (length cs - 3 = length a)%nat).
  { unfold cs. rewrite length_app. simpl. lia. }
  rewrite Hk. unfold cs. rewrite drop_app_length, take_app_length.
  rewrite <- Hab, Hdigits, Hvalue.
  replace (length a =? 0)%nat with false by (symmetry; apply Nat.eqb_neq; lia).
  cbn [Ascii.eqb Bool.eqb andb negb].
  destruct negative; f_equal; lia.
Qed.

(** ** Binary64 arithmetic: the rounding of one operation *)

(** The operations of [PrimFloat] are specified by those of [SpecFloat].
    What follows bounds the rounding of one operation from that
    specification: the result lies within one unit in its last place of the
    exact value, and that unit is small when the value is. *)

Local Open Scope Z_scope.

Lemma digits2_pos_log2 (p : positive) :
  Z.pos (digits2_pos p) = Z.succ (Z.log2 (Z.pos p)).
Proof.
  induction p as [p IH|p IH|]; cbn [digits2_pos]; [| |reflexivity].
  - rewrite Pos2Z.inj_succ, IH. f_equal.
    change (Z.pos p~1) with (2 * Z.pos p + 1). rewrite Z.log2_succ_double by lia. reflexivity.
  - rewrite Pos2Z.inj_succ, IH. f_equal.
    change (Z.pos p~0) with (2 * Z.pos p). rewrite Z.log2_double by lia. reflexivity.
Qed.

Lemma Zdigits2_bounds (m : Z) :
  0 < m -> 0 < Zdigits2 m /\ 2 ^ (Zdigits2 m - 1) <= m < 2 ^ Zdigits2 m.
Proof.
  intros Hm. destruct m as [|p|p]; try lia. cbn [Zdigits2].
  rewrite digits2_pos_log2. pose proof (Z.log2_nonneg (Z.pos p)).
  pose proof (Z.log2_spec (Z.pos p) ltac:(lia)) as [Hlo Hhi].
  split; [lia|]. replace (Z.succ (Z.log2 (Z.pos p)) - 1) with (Z.log2 (Z.pos p)) by lia.
  split; [exact Hlo | exact Hhi].
Qed.

Lemma Zdigits2_le (m k : Z) : 0 < m -> 0 <= k -> m < 2 ^ k -> Zdigits2 m <= k.
Proof.
  intros Hm Hk Hlt. pose proof (Zdigits2_bounds m Hm) as (Hd & Hlo & _).
  destruct (Z_le_gt_dec (Zdigits2 m) k) as [|Hgt]; [assumption|].
  assert (2 ^ k <= 2 ^ (Zdigits2 m - 1)) by (apply Z.pow_le_mono_r; lia). lia.
Qed.

Lemma Zdigits2_nonneg (m : Z) : 0 <= Zdigits2 m.
Proof. destruct m; cbn; lia. Qed.

Lemma shr_1_m (mrs : shr_record) :
  0 <= shr_m mrs -> shr_m (shr_1 mrs) = shr_m mrs / 2.
Proof.
  destruct mrs as [m r s]. cbn [shr_m]. intros Hm.
  destruct m as [|[p|p|]|p]; cbn [shr_1 shr_m]; try lia.
  - reflexivity.
  - change (Z.pos p~1) with (2 * Z.pos p + 1).
    rewrite Z.mul_comm, Z.div_add_l by lia. reflexivity.
  - change (Z.pos p~0) with (2 * Z.pos p).
    rewrite Z.mul_comm, Z.div_mul by lia. reflexivity.
  - reflexivity.
Qed.

Lemma iter_shr_1_m (p : positive) :
  forall mrs, 0 <= shr_m mrs ->
    shr_m (SpecFloat.iter_pos shr_1 p mrs) = shr_m mrs / 2 ^ Z.pos p.
Proof.
  assert (Hdiv : forall a b c, 0 < b -> 0 < c -> a / b / c = a / (b * c)).
  { intros. apply Z.div_div; lia. }
  induction p as [p IH|p IH|]; intros mrs Hm; cbn [SpecFloat.iter_pos].
  - assert (H1 : 0 <= shr_m (shr_1 mrs)).
    { rewrite shr_1_m by assumption. apply Z.div_pos; lia. }
    assert (H2 : 0 <= shr_m (SpecFloat.iter_pos shr_1 p (shr_1 mrs))).
    { rewrite IH by assumption. apply Z.div_pos; [assumption|]. apply Z.pow_pos_nonneg; lia. }
    rewrite IH, IH, shr_1_m by assumption.
    assert (0 < 2 ^ Z.pos p) by (apply Z.pow_pos_nonneg; lia).
    rewrite !Hdiv by lia. f_equal.
    replace (Z.pos p~1) with (1 + Z.pos p + Z.pos p) by lia.
    rewrite !Z.pow_add_r, Z.pow_1_r by lia. ring.
  - assert (H2 : 0 <= shr_m (SpecFloat.iter_pos shr_1 p mrs)).
    { rewrite IH by assumption. apply Z.div_pos; [assumption|]. apply Z.pow_pos_nonneg; lia. }
    rewrite IH, IH by assumption.
    assert (0 < 2 ^ Z.pos p) by (apply Z.pow_pos_nonneg; lia).
    rewrite Hdiv by lia. f_equal.
    replace (Z.pos p~0) with (Z.pos p + Z.pos p) by lia.
    rewrite Z.pow_add_r by lia. reflexivity.
  - rewrite shr_1_m by assumption. reflexivity.
Qed.

Lemma shr_m_spec (mrs : shr_record) (e n : Z) :
  0 <= shr_m mrs ->
  shr_m (fst (shr mrs e n)) = shr_m mrs / 2 ^ Z.max n 0
  /\ snd (shr mrs e n) = e + Z.max n 0.
Proof.
  intros Hm. destruct n as [|p|p]; cbn [shr fst snd].
  - rewrite Z.div_1_r. split; [reflexivity | cbn; lia].
  - rewrite iter_shr_1_m by assumption.
    replace (Z.max (Z.pos p) 0) with (Z.pos p) by lia. split; [reflexivity | lia].
  - replace (Z.max (Z.neg p) 0) with 0 by lia. rewrite Z.div_1_r. split; [reflexivity | lia].
Qed.

Lemma shr_record_of_loc_m (m : Z) (l : location) : shr_m (shr_record_of_loc m l) = m.
Proof. destruct l as [|[]]; reflexivity. Qed.

Lemma round_nearest_even_cases (m : Z) (l : location) :
  round_nearest_even m l = m \/ round_nearest_even m l = m + 1.
Proof.
  destruct l as [|[]]; cbn; auto. destruct (Z.even m); auto.
Qed.

Lemma fexp_binary64 (x : Z) : fexp prec emax x = Z.max (x - 53) (-1074).
Proof. reflexivity. Qed.

Lemma div_pow2_bounds (m n : Z) :
  0 <= m -> 0 <= n ->
  0 <= m / 2 ^ n /\ m / 2 ^ n * 2 ^ n <= m < (m / 2 ^ n + 1) * 2 ^ n /\ 0 < 2 ^ n.
Proof.
  intros Hm Hn. assert (Hp : 0 < 2 ^ n) by (apply Z.pow_pos_nonneg; lia).
  pose proof (Z.div_mod m (2 ^ n) ltac:(lia)) as Hdm.
  pose proof (Z.mod_pos_bound m (2 ^ n) Hp) as Hmod.
  split; [apply Z.div_pos; lia|]. split; [nia | exact Hp].
Qed.

(** One rounding. The exact value lies between [m * 2^e] and
    [(m + 1) * 2^e], and [Zdigits2 m + e <= E] bounds its magnitude by
    [2^E]. The result is a zero or a finite number [m3 * 2^e3], never an
    infinity or NaN, and both ends of the interval are at most one unit
    [2^e3] away from it; the unit is below [2^U]. *)
Lemma binary_round_aux_bounds (s : bool) (m e : Z) (l : location) (E U : Z) :
  0 <= m -> Zdigits2 m + e <= E ->
  e <= U -> E - 52 <= U -> -1074 <= U -> U <= 971 ->
  exists m3 e3,
    binary_round_aux prec emax s m e l
    = match m3 with Z.pos p => S754_finite s p e3 | _ => S754_zero s end
    /\ 0 <= m3 /\ e <= e3 <= U
    /\ (m3 - 1) * 2 ^ (e3 - e) <= m /\ m + 1 <= (m3 + 1) * 2 ^ (e3 - e).
Proof.
  intros Hm HE HeU HEU HU1 HU2.
  assert (Hd : 0 <= Zdigits2 m) by apply Zdigits2_nonneg.
  assert (Hdhi : m < 2 ^ Zdigits2 m).
  { destruct (Z.eq_dec m 0) as [->|Hne]; [reflexivity|].
    apply (Zdigits2_bounds m); lia. }
  set (d := Zdigits2 m) in *.
  unfold binary_round_aux, shr_fexp. fold d.
  set (n1 := fexp prec emax (d + e) - e).
  assert (Hn1 : n1 = Z.max (d + e - 53) (-1074) - e) by reflexivity.
  pose proof (shr_m_spec (shr_record_of_loc m l) e n1) as Hs1.
  rewrite shr_record_of_loc_m in Hs1. specialize (Hs1 ltac:(lia)).
  destruct (shr (shr_record_of_loc m l) e n1) as [mrs1 e1]. cbn [fst snd] in Hs1.
  destruct Hs1 as [Hq1 He1].
  set (k1 := Z.max n1 0) in *.
  destruct (div_pow2_bounds m k1 ltac:(lia) ltac:(lia)) as (Hq1pos & Hq1b & HA).
  rewrite <- Hq1 in Hq1pos, Hq1b.
  set (q1 := shr_m mrs1) in *. set (A := 2 ^ k1) in *.
  set (m2 := round_nearest_even q1 (loc_of_shr_record mrs1)).
  assert (Hm2 : q1 <= m2 <= q1 + 1).
  { unfold m2. destruct (round_nearest_even_cases q1 (loc_of_shr_record mrs1)) as [-> | ->]; lia. }
  set (d2 := Zdigits2 m2).
  assert (Hd2 : d2 + e1 <= Z.max (E + 1) (e1 + 1)).
  { destruct (Z.eq_dec m2 0) as [E0|Hne].
    - unfold d2. rewrite E0. cbn. lia.
    - assert (Hlt : m2 < 2 ^ (Z.max (d - k1) 0 + 1)).
      { destruct (Z_le_gt_dec k1 d) as [Hle|Hgt].
        - replace (Z.max (d - k1) 0) with (d - k1) by lia.
          assert (Hsplit : 2 ^ d = 2 ^ (d - k1) * A).
          { unfold A. rewrite <- Z.pow_add_r by lia. f_equal. lia. }
          assert (q1 < 2 ^ (d - k1)) by nia.
          rewrite Z.pow_add_r, Z.pow_1_r by lia. lia.
        - replace (Z.max (d - k1) 0) with 0 by lia.
          assert (2 ^ d <= A) by (apply Z.pow_le_mono_r; lia).
          assert (q1 = 0) by nia. change (2 ^ (0 + 1)) with 2. lia. }
      pose proof (Zdigits2_le m2 (Z.max (d - k1) 0 + 1) ltac:(lia) ltac:(lia) Hlt).
      fold d2 in H. lia. }
  fold m2. fold d2.
  set (n2 := fexp prec emax (d2 + e1) - e1).
  assert (Hn2 : n2 = Z.max (d2 + e1 - 53) (-1074) - e1) by reflexivity.
  pose proof (shr_m_spec (shr_record_of_loc m2 loc_Exact) e1 n2) as Hs2.
  rewrite shr_record_of_loc_m in Hs2. specialize (Hs2 ltac:(lia)).
  destruct (shr (shr_record_of_loc m2 loc_Exact) e1 n2) as [mrs2 e2]. cbn [fst snd] in Hs2.
  destruct Hs2 as [Hq2 He2].
  set (k2 := Z.max n2 0) in *.
  destruct (div_pow2_bounds m2 k2 ltac:(lia) ltac:(lia)) as (Hq2pos & Hq2b & HB).
  rewrite <- Hq2 in Hq2pos, Hq2b.
  set (m3 := shr_m mrs2) in *. set (B := 2 ^ k2) in *.
  assert (He2U : e2 <= U) by lia.
  exists m3, e2.
  assert (Hpow : 2 ^ (e2 - e) = A * B).
  { unfold A, B. rewrite <- Z.pow_add_r by lia. f_equal. lia. }
  rewrite Hpow.
  split; [|split; [lia|split; [lia|split; nia]]].
  destruct m3 as [|p|p]; [reflexivity| |lia].
  replace (e2 <=? emax - prec) with true; [reflexivity|].
  symmetry. apply Z.leb_le. change (emax - prec) with 971. lia.
Qed.

Local Open Scope Q_scope.

Lemma pow2_pos (e : Z) : 0 < 2 ^ e.
Proof. apply Qpower_0_lt. reflexivity. Qed.

Lemma pow2_add (a b : Z) : 2 ^ (a + b) == 2 ^ a * 2 ^ b.
Proof. apply Qpower_plus. discriminate. Qed.

Lemma pow2_le (a b : Z) : (a <= b)%Z -> 2 ^ a <= 2 ^ b.
Proof. intros. apply Qpower_le_compat_l; [assumption | discriminate]. Qed.

Lemma pow2_le_inv (a b : Z) : 2 ^ a <= 2 ^ b -> (a <= b)%Z.
Proof. intros. apply (Qpower_le_compat_l_inv 2); [assumption | reflexivity]. Qed.

Lemma pow2_Z (n : Z) : (0 <= n)%Z -> inject_Z (2 ^ n) == 2 ^ n.
Proof. intros. rewrite Zpower_Qpower by assumption. reflexivity. Qed.

Lemma scale_le_l (a b e e3 : Z) :
  (e <= e3)%Z -> (a * 2 ^ (e3 - e) <= b)%Z -> inject_Z a * 2 ^ e3 <= inject_Z b * 2 ^ e.
Proof.
  intros He Hab. replace e3 with ((e3 - e) + e)%Z at 1 by lia.
  rewrite pow2_add, <- (pow2_Z (e3 - e)) by lia.
  rewrite Qmult_assoc, <- inject_Z_mult.
  apply Qmult_le_compat_r; [|apply Qlt_le_weak, pow2_pos].
  rewrite <- Zle_Qle. exact Hab.
Qed.

Lemma scale_le_r (a b e e3 : Z) :
  (e <= e3)%Z -> (b <= a * 2 ^ (e3 - e))%Z -> inject_Z b * 2 ^ e <= inject_Z a * 2 ^ e3.
Proof.
  intros He Hab. replace e3 with ((e3 - e) + e)%Z at 1 by lia.
  rewrite pow2_add, <- (pow2_Z (e3 - e)) by lia.
  rewrite Qmult_assoc, <- inject_Z_mult.
  apply Qmult_le_compat_r; [|apply Qlt_le_weak, pow2_pos].
  rewrite <- Zle_Qle. exact Hab.
Qed.

Lemma Zdigits2_pow2 (m e K : Z) :
  (0 < m)%Z -> inject_Z m * 2 ^ e <= 2 ^ K -> (Zdigits2 m + e <= K + 1)%Z.
Proof.
  intros Hm Hle. pose proof (Zdigits2_bounds m Hm) as (Hd & Hlo & _).
  assert (H : 2 ^ (Zdigits2 m - 1 + e) <= 2 ^ K).
  { rewrite pow2_add, <- (pow2_Z (Zdigits2 m - 1)) by lia.
    eapply Qle_trans; [|exact Hle].
    apply Qmult_le_compat_r; [|apply Qlt_le_weak, pow2_pos].
    rewrite <- Zle_Qle. exact Hlo. }
  apply pow2_le_inv in H. lia.
Qed.

(** One rounding, on rationals: a value [x] of magnitude at most [2^K]
    that lies between [m * 2^e] and [(m + 1) * 2^e] is rounded to a finite
    number at most [2^(K - 51)] away from it. *)
Lemma binary_round_aux_value (s : bool) (m e : Z) (l : location) (K : Z) (x : Q) :
  (0 <= m)%Z ->
  inject_Z m * 2 ^ e <= x -> x <= inject_Z (m + 1) * 2 ^ e -> x <= 2 ^ K ->
  (e <= K - 51)%Z -> (-1023 <= K <= 1022)%Z ->
  SF_finite (binary_round_aux prec emax s m e l) = true
  /\ Qabs (SF2Q (binary_round_aux prec emax s m e l) - (if s then - x else x))
     <= 2 ^ (K - 51).
Proof.
  intros Hm Hlo Hhi HK He HKr.
  assert (Hd : (Zdigits2 m + e <= K + 1)%Z).
  { destruct (Z.eq_dec m 0%Z) as [->|Hne]; [cbn; lia|].
    apply Zdigits2_pow2; [lia|]. eapply Qle_trans; [exact Hlo | exact HK]. }
  destruct (binary_round_aux_bounds s m e l (K + 1) (K - 51) Hm Hd He
              ltac:(lia) ltac:(lia) ltac:(lia))
    as (m3 & e3 & -> & Hm3 & He3 & Hbelow & Habove).
  apply scale_le_l in Hbelow; [|lia]. apply scale_le_r in Habove; [|lia].
  assert (Hunit : 2 ^ e3 <= 2 ^ (K - 51)) by (apply pow2_le; lia).
  assert (Hval : SF2Q (match m3 with
                       | Z.pos p => S754_finite s p e3
                       | _ => S754_zero s
                       end)
                 == (if s then - (inject_Z m3 * 2 ^ e3) else inject_Z m3 * 2 ^ e3)).
  { destruct m3 as [|p|p]; [|reflexivity|lia].
    cbn [SF2Q]. destruct s; ring. }
  split; [destruct m3; reflexivity|].
  rewrite Hval.
  assert (Hsplit1 : inject_Z (m3 - 1) * 2 ^ e3 == inject_Z m3 * 2 ^ e3 - 2 ^ e3).
  { replace (m3 - 1)%Z with (m3 + - (1))%Z by lia.
    rewrite inject_Z_plus, inject_Z_opp. change (inject_Z 1) with 1. ring. }
  assert (Hsplit2 : inject_Z (m3 + 1) * 2 ^ e3 == inject_Z m3 * 2 ^ e3 + 2 ^ e3).
  { rewrite inject_Z_plus. change (inject_Z 1) with 1. ring. }
  rewrite Hsplit1 in Hbelow. rewrite Hsplit2 in Habove.
  apply Qabs_Qle_condition. destruct s; split; lra.
Qed.

Local Open Scope Z_scope.

(** ** Valid binary64 numbers *)

Lemma valid_finite (s : bool) (m : positive) (e : Z) :
  valid_binary (S754_finite s m e) = true ->
  -1074 <= e <= 971
  /\ Z.pos (digits2_pos m) <= 53
  /\ (Z.pos (digits2_pos m) = 53 \/ e = -1074).
Proof.
  unfold SpecFloat.valid_binary, bounded, canonical_mantissa.
  rewrite fexp_binary64. change (emax - prec) with 971.
  intros [Hc He]%andb_prop. apply Z.eqb_eq in Hc. apply Z.leb_le in He. lia.
Qed.

Lemma pow2_exponent (m a e K : Z) :
  0 <= a -> 2 ^ a <= m -> (inject_Z m * 2 ^ e <= 2 ^ K)%Q -> a + e <= K.
Proof.
  intros Ha Hm Hle. apply pow2_le_inv.
  rewrite pow2_add, <- (pow2_Z a) by lia.
  eapply Qle_trans; [|exact Hle].
  apply Qmult_le_compat_r; [|apply Qlt_le_weak, pow2_pos].
  rewrite <- Zle_Qle. exact Hm.
Qed.

Lemma iter_xO (m d : positive) : Z.pos (Pos.iter xO m d) = Z.pos m * 2 ^ Z.pos d.
Proof.
  induction d as [|d IH] using Pos.peano_ind.
  - cbn [Pos.iter]. rewrite Z.pow_1_r. lia.
  - rewrite Pos.iter_succ, Pos2Z.inj_succ, Z.pow_succ_r by lia.
    change (Z.pos (Pos.iter xO m d)~0) with (2 * Z.pos (Pos.iter xO m d)).
    rewrite IH. ring.
Qed.

Lemma shl_align_spec (m : positive) (e e0 : Z) :
  snd (shl_align m e e0) = Z.min e e0
  /\ Z.pos (fst (shl_align m e e0)) = Z.pos m * 2 ^ (e - Z.min e e0).
Proof.
  unfold shl_align. destruct (e0 - e) as [|d|d] eqn:Hd; cbn [fst snd].
  - replace (Z.min e e0) with e by lia. rewrite Z.sub_diag. split; lia.
  - replace (Z.min e e0) with e by lia. rewrite Z.sub_diag. split; lia.
  - replace (Z.min e e0) with e0 by lia. split; [reflexivity|].
    rewrite iter_xO. f_equal. f_equal. lia.
Qed.

Local Open Scope Q_scope.

Lemma scale_eq (m e e' : Z) :
  (e' <= e)%Z -> inject_Z (m * 2 ^ (e - e')) * 2 ^ e' == inject_Z m * 2 ^ e.
Proof.
  intros He. rewrite inject_Z_mult, (pow2_Z (e - e')) by lia.
  rewrite <- Qmult_assoc, <- pow2_add. replace (e - e' + e')%Z with e by lia.
  reflexivity.
Qed.

(** ** The rounding of a sum or difference *)

Lemma binary_round_value (s : bool) (m : positive) (e K : Z) :
  inject_Z (Z.pos m) * 2 ^ e <= 2 ^ K -> (-1023 <= K <= 1022)%Z ->
  SF_finite (binary_round prec emax s m e) = true
  /\ Qabs (SF2Q (binary_round prec emax s m e)
           - (if s then - (inject_Z (Z.pos m) * 2 ^ e) else inject_Z (Z.pos m) * 2 ^ e))
     <= 2 ^ (K - 51).
Proof.
  intros Hle HK. unfold binary_round.
  pose proof (shl_align_spec m e (fexp prec emax (Z.pos (digits2_pos m) + e))) as [He Hm].
  destruct (shl_align m e (fexp prec emax (Z.pos (digits2_pos m) + e))) as [mz ez].
  cbn [fst snd] in He, Hm.
  pose proof (Zdigits2_pow2 (Z.pos m) e K ltac:(lia) Hle) as Hd. cbn [Zdigits2] in Hd.
  rewrite fexp_binary64 in He.
  assert (Hval : inject_Z (Z.pos mz) * 2 ^ ez == inject_Z (Z.pos m) * 2 ^ e).
  { rewrite Hm, He. apply scale_eq. lia. }
  apply binary_round_aux_value; try lia.
  - rewrite Hval. apply Qle_refl.
  - rewrite <- Hval, inject_Z_plus. change (inject_Z 1) with 1.
    pose proof (pow2_pos ez). nra.
  - exact Hle.
Qed.

Lemma binary_normalize_value (M e K : Z) :
  Qabs (inject_Z M * 2 ^ e) <= 2 ^ K -> (-1023 <= K <= 1022)%Z ->
  SF_finite (binary_normalize prec emax M e false) = true
  /\ Qabs (SF2Q (binary_normalize prec emax M e false) - inject_Z M * 2 ^ e)
     <= 2 ^ (K - 51).
Proof.
  intros Hle HK. pose proof (pow2_pos e) as He. pose proof (pow2_pos (K - 51)) as Hu.
  destruct M as [|m|m]; cbn [binary_normalize].
  - split; [reflexivity|]. cbn [SF2Q]. apply Qabs_Qle_condition.
    change (inject_Z 0) with 0. split; lra.
  - apply (binary_round_value false m e K); [|exact HK].
    rewrite Qabs_pos in Hle; [exact Hle|].
    apply Qmult_le_0_compat; [|lra]. change 0 with (inject_Z 0). rewrite <- Zle_Qle. lia.
  - destruct (binary_round_value true m e K) as [Hfin Hval]; [|exact HK|].
    + rewrite Qabs_neg in Hle.
      * change (Z.neg m) with (- Z.pos m)%Z in Hle. rewrite inject_Z_opp in Hle.
        lra.
      * change (Z.neg m) with (- Z.pos m)%Z. rewrite inject_Z_opp.
        assert (0 <= inject_Z (Z.pos m)).
        { change 0 with (inject_Z 0). rewrite <- Zle_Qle. lia. }
        nra.
    + split; [exact Hfin|].
      change (Z.neg m) with (- Z.pos m)%Z. rewrite inject_Z_opp.
      assert (Heq : - inject_Z (Z.pos m) * 2 ^ e == - (inject_Z (Z.pos m) * 2 ^ e)) by ring.
      rewrite Heq. exact Hval.
Qed.

Lemma SF2Q_finite (s : bool) (m : positive) (e : Z) :
  SF2Q (S754_finite s m e) == inject_Z (cond_Zopp s (Z.pos m)) * 2 ^ e.
Proof.
  cbn [SF2Q]. destruct s; cbn [cond_Zopp]; [|reflexivity].
  change (- Z.pos m)%Z with (Z.neg m). change (Z.neg m) with (- Z.pos m)%Z.
  rewrite inject_Z_opp. ring.
Qed.

Lemma aligned_value (s : bool) (m : positive) (e e0 : Z) :
  (e0 <= e)%Z ->
  inject_Z (cond_Zopp s (Z.pos (fst (shl_align m e e0)))) * 2 ^ e0
  == SF2Q (S754_finite s m e).
Proof.
  intros He. destruct (shl_align_spec m e e0) as [_ Hm]. rewrite Hm.
  replace (Z.min e e0) with e0 by lia. rewrite SF2Q_finite.
  destruct s; cbn [cond_Zopp].
  - rewrite <- Z.mul_opp_l. apply scale_eq. exact He.
  - apply scale_eq. exact He.
Qed.

Lemma SF2Q_zero_bound (x : Q) (K : Z) : x == 0 -> Qabs (0 - x) <= 2 ^ K.
Proof.
  intros ->. pose proof (pow2_pos K). apply Qabs_Qle_condition. split; lra.
Qed.

Lemma SF2Q_self_bound (x y : Q) (K : Z) : x == y -> Qabs (x - y) <= 2 ^ K.
Proof.
  intros ->. pose proof (pow2_pos K). apply Qabs_Qle_condition. split; lra.
Qed.

Lemma SFadd_value (x y : spec_float) (K : Z) :
  SF_finite x = true -> SF_finite y = true ->
  Qabs (SF2Q x + SF2Q y) <= 2 ^ K -> (-1023 <= K <= 1022)%Z ->
  SF_finite (SFadd prec emax x y) = true
  /\ Qabs (SF2Q (SFadd prec emax x y) - (SF2Q x + SF2Q y)) <= 2 ^ (K - 51).
Proof.
  intros Hx Hy Hle HK.
  destruct x as [sx| | |sx mx ex]; try discriminate;
    destruct y as [sy| | |sy my ey]; try discriminate.
  - split; [destruct sx, sy; reflexivity|].
    apply SF2Q_self_bound. destruct sx, sy; cbn; ring.
  - split; [reflexivity|]. apply SF2Q_self_bound. cbn [SFadd SF2Q]. ring.
  - split; [reflexivity|]. apply SF2Q_self_bound. cbn [SFadd SF2Q]. ring.
  - cbn [SFadd].
    set (ez := Z.min ex ey).
    set (M := (cond_Zopp sx (Z.pos (fst (shl_align mx ex ez)))
               + cond_Zopp sy (Z.pos (fst (shl_align my ey ez))))%Z).
    assert (HM : inject_Z M * 2 ^ ez
                 == SF2Q (S754_finite sx mx ex) + SF2Q (S754_finite sy my ey)).
    { unfold M. rewrite inject_Z_plus, Qmult_plus_distr_l.
      rewrite !aligned_value by (unfold ez; lia). reflexivity. }
    rewrite <- HM in Hle |- *. apply binary_normalize_value; assumption.
Qed.

Lemma SFsub_value (x y : spec_float) (K : Z) :
  SF_finite x = true -> SF_finite y = true ->
  Qabs (SF2Q x - SF2Q y) <= 2 ^ K -> (-1023 <= K <= 1022)%Z ->
  SF_finite (SFsub prec emax x y) = true
  /\ Qabs (SF2Q (SFsub prec emax x y) - (SF2Q x - SF2Q y)) <= 2 ^ (K - 51).
Proof.
  intros Hx Hy Hle HK.
  destruct x as [sx| | |sx mx ex]; try discriminate;
    destruct y as [sy| | |sy my ey]; try discriminate.
  - split; [destruct sx, sy; reflexivity|].
    apply SF2Q_self_bound. destruct sx, sy; cbn; ring.
  - split; [reflexivity|]. apply SF2Q_self_bound. cbn [SFsub SF2Q].
    destruct sy; cbn [negb]; ring.
  - split; [reflexivity|]. apply SF2Q_self_bound. cbn [SFsub SF2Q]. ring.
  - cbn [SFsub].
    set (ez := Z.min ex ey).
    set (M := (cond_Zopp sx (Z.pos (fst (shl_align mx ex ez)))
               - cond_Zopp sy (Z.pos (fst (shl_align my ey ez))))%Z).
    assert (HM : inject_Z M * 2 ^ ez
                 == SF2Q (S754_finite sx mx ex) - SF2Q (S754_finite sy my ey)).
    { unfold M, Z.sub. rewrite inject_Z_plus, inject_Z_opp.
      assert (Hd : forall a b c : Q, (a + - b) * c == a * c - b * c) by (intros; ring).
      rewrite Hd, !aligned_value by (unfold ez; lia). reflexivity. }
    rewrite <- HM in Hle |- *. apply binary_normalize_value; assumption.
Qed.

(** ** The rounding of a product and of a quotient *)

Lemma Qabs_signed (s : bool) (x : Q) : 0 <= x -> Qabs (if s then - x else x) == x.
Proof.
  intros Hx. destruct s; [rewrite Qabs_opp|]; apply Qabs_pos; exact Hx.
Qed.

Lemma SF2Q_magnitude (s : bool) (m : positive) (e : Z) :
  SF2Q (S754_finite s m e)
  == (if s then - (inject_Z (Z.pos m) * 2 ^ e) else inject_Z (Z.pos m) * 2 ^ e)
  /\ 0 < inject_Z (Z.pos m) * 2 ^ e.
Proof.
  split; [destruct s; reflexivity|].
  apply Qmult_lt_0_compat; [|apply pow2_pos].
  change 0 with (inject_Z 0). rewrite <- Zlt_Qlt. lia.
Qed.

Lemma SFmul_value (x y : spec_float) (K : Z) :
  valid_binary x = true -> valid_binary y = true ->
  SF_finite x = true -> SF_finite y = true ->
  Qabs (SF2Q x * SF2Q y) <= 2 ^ K -> (-1023 <= K <= 1022)%Z ->
  SF_finite (SFmul prec emax x y) = true
  /\ Qabs (SF2Q (SFmul prec emax x y) - SF2Q x * SF2Q y) <= 2 ^ (K - 51).
Proof.
  intros Hvx Hvy Hx Hy Hle HK.
  destruct x as [sx| | |sx mx ex]; try discriminate;
    destruct y as [sy| | |sy my ey]; try discriminate;
    try (split; [reflexivity|]; apply SF2Q_self_bound; cbn [SFmul SF2Q]; ring).
  cbn [SFmul].
  destruct (SF2Q_magnitude sx mx ex) as [Hxv Hxpos].
  destruct (SF2Q_magnitude sy my ey) as [Hyv Hypos].
  set (vx := inject_Z (Z.pos mx) * 2 ^ ex) in *.
  set (vy := inject_Z (Z.pos my) * 2 ^ ey) in *.
  assert (Hprod : inject_Z (Z.pos (mx * my)) * 2 ^ (ex + ey) == vx * vy).
  { unfold vx, vy. rewrite Pos2Z.inj_mul, inject_Z_mult, pow2_add. ring. }
  assert (Hsign : SF2Q (S754_finite sx mx ex) * SF2Q (S754_finite sy my ey)
                  == (if xorb sx sy then - (vx * vy) else vx * vy)).
  { rewrite Hxv, Hyv. destruct sx, sy; cbn [xorb]; ring. }
  rewrite Hsign in Hle |- *.
  rewrite Qabs_signed in Hle by nra.
  assert (He : (ex + ey <= K - 51)%Z).
  { apply valid_finite in Hvx as (Hex & Hdx & Hcx).
    apply valid_finite in Hvy as (Hey & Hdy & Hcy).
    pose proof (Zdigits2_bounds (Z.pos mx) ltac:(lia)) as (_ & Hmx & _).
    pose proof (Zdigits2_bounds (Z.pos my) ltac:(lia)) as (_ & Hmy & _).
    cbn [Zdigits2] in Hmx, Hmy.
    rewrite <- Hprod in Hle.
    destruct Hcx as [Hcx|Hcx].
    - rewrite Hcx in Hmx. change (2 ^ (53 - 1))%Z with (2 ^ 52)%Z in Hmx.
      assert (Hm : (2 ^ 52 <= Z.pos (mx * my))%Z) by (rewrite Pos2Z.inj_mul; nia).
      pose proof (pow2_exponent _ 52 _ _ ltac:(lia) Hm Hle). lia.
    - destruct Hcy as [Hcy|Hcy]; [|lia].
      rewrite Hcy in Hmy. change (2 ^ (53 - 1))%Z with (2 ^ 52)%Z in Hmy.
      assert (Hm : (2 ^ 52 <= Z.pos (mx * my))%Z) by (rewrite Pos2Z.inj_mul; nia).
      pose proof (pow2_exponent _ 52 _ _ ltac:(lia) Hm Hle). lia. }
  assert (Hgoal :
    forall r, SF_finite r = true
              /\ Qabs (SF2Q r - (if xorb sx sy
                                 then - (inject_Z (Z.pos (mx * my)) * 2 ^ (ex + ey))
                                 else inject_Z (Z.pos (mx * my)) * 2 ^ (ex + ey)))
                 <= 2 ^ (K - 51) ->
              SF_finite r = true
              /\ Qabs (SF2Q r - (if xorb sx sy then - (vx * vy) else vx * vy))
                 <= 2 ^ (K - 51)).
  { intros r [Hf Hb]. split; [exact Hf|].
    destruct (xorb sx sy); rewrite Hprod in Hb; exact Hb. }
  apply Hgoal. apply binary_round_aux_value; try lia.
  - apply Qle_refl.
  - rewrite inject_Z_plus. change (inject_Z 1) with 1.
    pose proof (pow2_pos (ex + ey)). nra.
  - rewrite Hprod. exact Hle.
Qed.

Lemma SFdiv_value (x y : spec_float) (K : Z) :
  valid_binary x = true -> valid_binary y = true ->
  SF_finite x = true -> SF_finite y = true -> ~ SF2Q y == 0 ->
  Qabs (SF2Q x / SF2Q y) <= 2 ^ K -> (-1023 <= K <= 1022)%Z ->
  SF_finite (SFdiv prec emax x y) = true
  /\ Qabs (SF2Q (SFdiv prec emax x y) - SF2Q x / SF2Q y) <= 2 ^ (K - 51).
Proof.
  intros Hvx Hvy Hx Hy Hy0 Hle HK.
  destruct y as [sy| | |sy my ey]; try discriminate.
  { exfalso. apply Hy0. reflexivity. }
  destruct x as [sx| | |sx mx ex]; try discriminate.
  { split; [reflexivity|]. apply SF2Q_self_bound. cbn [SFdiv SF2Q].
    unfold Qdiv. ring. }
  cbn [SFdiv]. unfold SFdiv_core_binary.
  destruct (SF2Q_magnitude sx mx ex) as [Hxv Hxpos].
  destruct (SF2Q_magnitude sy my ey) as [Hyv Hypos].
  set (vx := inject_Z (Z.pos mx) * 2 ^ ex) in *.
  set (vy := inject_Z (Z.pos my) * 2 ^ ey) in *.
  assert (Hsign : SF2Q (S754_finite sx mx ex) / SF2Q (S754_finite sy my ey)
                  == (if xorb sx sy then - (vx / vy) else vx / vy)).
  { rewrite Hxv, Hyv. destruct sx, sy; cbn [xorb]; field; lra. }
  rewrite Hsign in Hle |- *.
  assert (Hquot : 0 < vx / vy) by (apply Qlt_shift_div_l; lra).
  rewrite Qabs_signed in Hle by lra.
  cbn [Zdigits2].
  set (dx := Z.pos (digits2_pos mx)). set (dy := Z.pos (digits2_pos my)).
  rewrite fexp_binary64.
  set (e' := Z.min (Z.max (dx + ex - (dy + ey) - 53) (-1074)) (ex - ey)).
  set (sh := (ex - ey - e')%Z).
  assert (Hsh : (0 <= sh)%Z) by (unfold sh, e'; lia).
  set (m' := match sh with
             | Z.pos _ => Z.shiftl (Z.pos mx) sh
             | 0%Z => Z.pos mx
             | Z.neg _ => 0%Z
             end).
  assert (Hm' : m' = (Z.pos mx * 2 ^ sh)%Z).
  { unfold m'. destruct sh as [|p|p]; [lia | apply Z.shiftl_mul_pow2; lia | lia]. }
  pose proof (Z.div_eucl_eq m' (Z.pos my) ltac:(lia)) as Heucl.
  pose proof (Z.mod_pos_bound m' (Z.pos my) ltac:(lia)) as Hmod.
  unfold Z.modulo in Hmod.
  destruct (Z.div_eucl m' (Z.pos my)) as [q r].
  assert (Hq : (0 <= q)%Z) by nia.
  assert (Hscaled : inject_Z m' * 2 ^ e' == vx / 2 ^ ey).
  { rewrite Hm'. unfold vx.
    replace sh with (ex - ey - e')%Z by reflexivity.
    rewrite (scale_eq (Z.pos mx) (ex - ey) e') by (unfold e'; lia).
    replace (ex - ey)%Z with (ex + - ey)%Z by lia.
    rewrite pow2_add, Qpower_opp. field.
    pose proof (pow2_pos ey). lra. }
  assert (Hvxy : vx / vy == inject_Z m' * 2 ^ e' / inject_Z (Z.pos my)).
  { rewrite Hscaled. unfold vy. field. pose proof (pow2_pos ey).
    split; [lra|]. intros E. unfold Qeq in E. simpl in E. lia. }
  assert (Hmy : 0 < inject_Z (Z.pos my)).
  { change 0 with (inject_Z 0). rewrite <- Zlt_Qlt. lia. }
  pose proof (pow2_pos e') as He'pos.
  assert (Hlo : inject_Z q * 2 ^ e' <= vx / vy).
  { rewrite Hvxy. apply Qle_shift_div_l; [exact Hmy|].
    assert (inject_Z q * inject_Z (Z.pos my) <= inject_Z m').
    { rewrite <- inject_Z_mult, <- Zle_Qle. nia. }
    nra. }
  assert (Hhi : vx / vy <= inject_Z (q + 1) * 2 ^ e').
  { rewrite Hvxy. apply Qle_shift_div_r; [exact Hmy|].
    assert (inject_Z m' <= inject_Z (q + 1) * inject_Z (Z.pos my)).
    { rewrite <- inject_Z_mult, <- Zle_Qle. nia. }
    nra. }
  assert (He : (e' <= K - 51)%Z).
  { pose proof (Zdigits2_bounds (Z.pos mx) ltac:(lia)) as (_ & Hmx & _).
    pose proof (Zdigits2_bounds (Z.pos my) ltac:(lia)) as (_ & _ & Hmy').
    cbn [Zdigits2] in Hmx, Hmy'. fold dx in Hmx. fold dy in Hmy'.
    assert (Hbound : 2 ^ (dx - 1 + ex - (dy + ey)) <= 2 ^ K).
    { eapply Qle_trans; [|exact Hle].
      apply Qle_shift_div_l; [lra|].
      assert (H1 : 2 ^ (dx - 1 + ex - (dy + ey)) * (2 ^ (dy + ey)) == 2 ^ (dx - 1 + ex)).
      { rewrite <- pow2_add. replace (dx - 1 + ex - (dy + ey) + (dy + ey))%Z
          with (dx - 1 + ex)%Z by lia. reflexivity. }
      assert (H2 : vy <= 2 ^ (dy + ey)).
      { unfold vy. rewrite pow2_add, <- (pow2_Z dy) by (unfold dy; lia).
        apply Qmult_le_compat_r; [|apply Qlt_le_weak, pow2_pos].
        rewrite <- Zle_Qle. lia. }
      assert (H3 : 2 ^ (dx - 1 + ex) <= vx).
      { unfold vx. rewrite pow2_add, <- (pow2_Z (dx - 1)) by (unfold dx; lia).
        apply Qmult_le_compat_r; [|apply Qlt_le_weak, pow2_pos].
        rewrite <- Zle_Qle. lia. }
      pose proof (pow2_pos (dx - 1 + ex - (dy + ey))).
      pose proof (pow2_pos (dy + ey)). nra. }
    apply pow2_le_inv in Hbound. unfold e'. lia. }
  apply binary_round_aux_value; try lia; assumption.
Qed.

(** ** Comparison *)

Lemma Qcompare_Lt (p q : Q) : p < q -> (p ?= q) = Lt.
Proof. apply Qlt_alt. Qed.

Lemma Qcompare_Gt (p q : Q) : q < p -> (p ?= q) = Gt.
Proof. apply Qgt_alt. Qed.

Lemma Qcompare_Eq (p q : Q) : p == q -> (p ?= q) = Eq.
Proof. apply Qeq_alt. Qed.

Lemma canonical_lt (m1 m2 : positive) (e1 e2 : Z) :
  valid_binary (S754_finite false m1 e1) = true ->
  valid_binary (S754_finite false m2 e2) = true ->
  (e1 < e2)%Z ->
  inject_Z (Z.pos m1) * 2 ^ e1 < inject_Z (Z.pos m2) * 2 ^ e2.
Proof.
  intros (He1 & Hd1 & _)%valid_finite (He2 & _ & Hc2)%valid_finite Hlt.
  destruct Hc2 as [Hc2|Hc2]; [|lia].
  pose proof (Zdigits2_bounds (Z.pos m1) ltac:(lia)) as (_ & _ & Hm1).
  pose proof (Zdigits2_bounds (Z.pos m2) ltac:(lia)) as (_ & Hm2 & _).
  cbn [Zdigits2] in Hm1, Hm2. rewrite Hc2 in Hm2.
  change (2 ^ (53 - 1))%Z with (2 ^ 52)%Z in Hm2.
  assert (H1 : inject_Z (Z.pos m1) * 2 ^ e1 < 2 ^ (53 + e1)).
  { rewrite pow2_add, <- (pow2_Z 53) by lia.
    apply Qmult_lt_compat_r; [apply pow2_pos|].
    rewrite <- Zlt_Qlt.
    assert (2 ^ Z.pos (digits2_pos m1) <= 2 ^ 53)%Z by (apply Z.pow_le_mono_r; lia).
    lia. }
  assert (H2 : 2 ^ (52 + e2) <= inject_Z (Z.pos m2) * 2 ^ e2).
  { rewrite pow2_add, <- (pow2_Z 52) by lia.
    apply Qmult_le_compat_r; [|apply Qlt_le_weak, pow2_pos].
    rewrite <- Zle_Qle. exact Hm2. }
  assert (H3 : 2 ^ (53 + e1) <= 2 ^ (52 + e2)) by (apply pow2_le; lia).
  lra.
Qed.

Lemma magnitude_compare (m1 m2 : positive) (e1 e2 : Z) :
  valid_binary (S754_finite false m1 e1) = true ->
  valid_binary (S754_finite false m2 e2) = true ->
  match (e1 ?= e2)%Z with
  | Lt => Lt
  | Gt => Gt
  | Eq => Pos.compare_cont Eq m1 m2
  end
  = (inject_Z (Z.pos m1) * 2 ^ e1 ?= inject_Z (Z.pos m2) * 2 ^ e2).
Proof.
  intros Hv1 Hv2. symmetry. destruct (Z.compare_spec e1 e2) as [->|Hlt|Hgt].
  - change (Pos.compare_cont Eq m1 m2) with (m1 ?= m2)%positive.
    pose proof (pow2_pos e2) as Hp.
    destruct (Pos.compare_spec m1 m2) as [->|Hm|Hm].
    + apply Qcompare_Eq. reflexivity.
    + apply Qcompare_Lt. apply Qmult_lt_compat_r; [exact Hp|]. rewrite <- Zlt_Qlt. lia.
    + apply Qcompare_Gt. apply Qmult_lt_compat_r; [exact Hp|]. rewrite <- Zlt_Qlt. lia.
  - apply Qcompare_Lt. apply canonical_lt; assumption.
  - apply Qcompare_Gt. apply canonical_lt; [assumption | assumption | lia].
Qed.

Lemma Qcompare_opp (a b : Q) : (- a ?= - b) = CompOpp (a ?= b).
Proof.
  destruct (Qcompare_spec a b) as [H|H|H]; cbn [CompOpp].
  - apply Qcompare_Eq. rewrite H. reflexivity.
  - apply Qcompare_Gt. apply Qopp_lt_compat. exact H.
  - apply Qcompare_Lt. apply Qopp_lt_compat. exact H.
Qed.

(** On finite numbers, the comparison of [SpecFloat] is the comparison of
    the rationals. *)
Lemma SFcompare_value (x y : spec_float) :
  valid_binary x = true -> valid_binary y = true ->
  SF_finite x = true -> SF_finite y = true ->
  SFcompare x y = Some (SF2Q x ?= SF2Q y).
Proof.
  intros Hvx Hvy Hx Hy.
  destruct x as [sx| | |sx mx ex]; try discriminate;
    destruct y as [sy| | |sy my ey]; try discriminate; cbn [SFcompare].
  - reflexivity.
  - f_equal. symmetry. destruct (SF2Q_magnitude sy my ey) as [Hv Hpos].
    set (v := inject_Z (Z.pos my) * 2 ^ ey) in *.
    destruct sy; cbv beta iota in Hv; [apply Qcompare_Gt | apply Qcompare_Lt];
      rewrite Hv; cbn [SF2Q]; lra.
  - f_equal. symmetry. destruct (SF2Q_magnitude sx mx ex) as [Hv Hpos].
    set (v := inject_Z (Z.pos mx) * 2 ^ ex) in *.
    destruct sx; cbv beta iota in Hv; [apply Qcompare_Lt | apply Qcompare_Gt];
      rewrite Hv; cbn [SF2Q]; lra.
  - f_equal.
    destruct (SF2Q_magnitude sx mx ex) as [Hxv Hxpos].
    destruct (SF2Q_magnitude sy my ey) as [Hyv Hypos].
    assert (Hvx' : valid_binary (S754_finite false mx ex) = true) by exact Hvx.
    assert (Hvy' : valid_binary (S754_finite false my ey) = true) by exact Hvy.
    pose proof (magnitude_compare mx my ex ey Hvx' Hvy') as Hcmp.
    set (vx := inject_Z (Z.pos mx) * 2 ^ ex) in *.
    set (vy := inject_Z (Z.pos my) * 2 ^ ey) in *.
    destruct sx, sy; cbv beta iota in Hxv, Hyv.
    + cbn [SF2Q]. fold vx vy. rewrite Qcompare_opp, <- Hcmp.
      destruct (ex ?= ey)%Z; reflexivity.
    + symmetry. apply Qcompare_Lt. rewrite Hxv, Hyv. lra.
    + symmetry. apply Qcompare_Gt. rewrite Hxv, Hyv. lra.
    + cbn [SF2Q]. exact Hcmp.
Qed.

(** ** Binary64 operations on rationals *)

Lemma exact_value_spec (x : float) (v : Q) :
  exact_value x = Some v ->
  SF_finite (Prim2SF x) = true /\ v == SF2Q (Prim2SF x).
Proof.
  unfold exact_value. destruct (Prim2SF x) as [s|s| |s m e]; try discriminate.
  - intros [= <-]. split; reflexivity.
  - intros [= <-]. split; [reflexivity|]. cbn [SF2Q].
    destruct s; rewrite Qred_correct; reflexivity.
Qed.

Lemma finite_exact_value (x : float) :
  SF_finite (Prim2SF x) = true ->
  exists v, exact_value x = Some v /\ v == SF2Q (Prim2SF x).
Proof.
  unfold exact_value. destruct (Prim2SF x) as [s|s| |s m e]; try discriminate; intros _.
  - exists 0. split; reflexivity.
  - eexists. split; [reflexivity|]. cbn [SF2Q].
    destruct s; rewrite Qred_correct; reflexivity.
Qed.

Lemma finite_exact_value' (x : float) (q : Q) :
  SF_finite (Prim2SF x) = true /\ SF2Q (Prim2SF x) == q ->
  exists v, exact_value x = Some v /\ v == q.
Proof.
  intros [Hf Hq]. destruct (finite_exact_value x Hf) as (v & Hv & Heq).
  exists v. split; [exact Hv|]. rewrite Heq. exact Hq.
Qed.

Section Operations.
Variables (a b : float) (va vb : Q).
Hypothesis Ha : exact_value a = Some va.
Hypothesis Hb : exact_value b = Some vb.

Lemma ltb_value : PrimFloat.ltb a b = true <-> va < vb.
Proof.
  apply exact_value_spec in Ha as [Hfa Hva]. apply exact_value_spec in Hb as [Hfb Hvb].
  rewrite FloatAxioms.ltb_spec. unfold SFltb.
  rewrite SFcompare_value by (try apply Prim2SF_valid; assumption).
  rewrite Hva, Hvb, Qlt_alt.
  destruct (SF2Q (Prim2SF a) ?= SF2Q (Prim2SF b)); split; congruence.
Qed.


Lemma eqb_value : PrimFloat.eqb a b = true <-> va == vb.
Proof.
  apply exact_value_spec in Ha as [Hfa Hva]. apply exact_value_spec in Hb as [Hfb Hvb].
  rewrite FloatAxioms.eqb_spec. unfold SFeqb.
  rewrite SFcompare_value by (try apply Prim2SF_valid; assumption).
  rewrite Hva, Hvb, Qeq_alt.
  destruct (SF2Q (Prim2SF a) ?= SF2Q (Prim2SF b)); split; congruence.
Qed.

Variable K : Z.
Hypothesis HK : (-1023 <= K <= 1022)%Z.

Lemma add_value :
  Qabs (va + vb) <= 2 ^ K ->
  exists v, exact_value (PrimFloat.add a b) = Some v /\ Qabs (v - (va + vb)) <= 2 ^ (K - 51).
Proof.
  intros Hle.
  apply exact_value_spec in Ha as [Hfa Hva]. apply exact_value_spec in Hb as [Hfb Hvb].
  rewrite Hva, Hvb in Hle.
  destruct (SFadd_value _ _ K Hfa Hfb Hle HK) as [Hf Hv].
  fold SF64add in Hf, Hv. rewrite <- FloatAxioms.add_spec in Hf, Hv.
  destruct (finite_exact_value _ Hf) as (v & Hev & Hveq).
  exists v. split; [exact Hev|]. rewrite Hveq, Hva, Hvb. exact Hv.
Qed.

Lemma sub_value :
  Qabs (va - vb) <= 2 ^ K ->
  exists v, exact_value (PrimFloat.sub a b) = Some v /\ Qabs (v - (va - vb)) <= 2 ^ (K - 51).
Proof.
  intros Hle.
  apply exact_value_spec in Ha as [Hfa Hva]. apply exact_value_spec in Hb as [Hfb Hvb].
  rewrite Hva, Hvb in Hle.
  destruct (SFsub_value _ _ K Hfa Hfb Hle HK) as [Hf Hv].
  fold SF64sub in Hf, Hv. rewrite <- FloatAxioms.sub_spec in Hf, Hv.
  destruct (finite_exact_value _ Hf) as (v & Hev & Hveq).
  exists v. split; [exact Hev|]. rewrite Hveq, Hva, Hvb. exact Hv.
Qed.

Lemma mul_value :
  Qabs (va * vb) <= 2 ^ K ->
  exists v, exact_value (PrimFloat.mul a b) = Some v /\ Qabs (v - va * vb) <= 2 ^ (K - 51).
Proof.
  intros Hle.
  apply exact_value_spec in Ha as [Hfa Hva]. apply exact_value_spec in Hb as [Hfb Hvb].
  rewrite Hva, Hvb in Hle.
  destruct (SFmul_value _ _ K (Prim2SF_valid a) (Prim2SF_valid b) Hfa Hfb Hle HK)
    as [Hf Hv].
  fold SF64mul in Hf, Hv. rewrite <- FloatAxioms.mul_spec in Hf, Hv.
  destruct (finite_exact_value _ Hf) as (v & Hev & Hveq).
  exists v. split; [exact Hev|]. rewrite Hveq, Hva, Hvb. exact Hv.
Qed.

Lemma div_value :
  ~ vb == 0 -> Qabs (va / vb) <= 2 ^ K ->
  exists v, exact_value (PrimFloat.div a b) = Some v /\ Qabs (v - va / vb) <= 2 ^ (K - 51).
Proof.
  intros Hb0 Hle.
  apply exact_value_spec in Ha as [Hfa Hva]. apply exact_value_spec in Hb as [Hfb Hvb].
  rewrite Hva, Hvb in Hle. rewrite Hvb in Hb0.
  destruct (SFdiv_value _ _ K (Prim2SF_valid a) (Prim2SF_valid b) Hfa Hfb Hb0 Hle HK)
    as [Hf Hv].
  fold SF64div in Hf, Hv. rewrite <- FloatAxioms.div_spec in Hf, Hv.
  destruct (finite_exact_value _ Hf) as (v & Hev & Hveq).
  exists v. split; [exact Hev|]. rewrite Hveq, Hva, Hvb. exact Hv.
Qed.

End Operations.


(** ** Integers, [Math.round] and [toFixed] *)

Local Open Scope Z_scope.

Lemma Zdigits2_unique (m k : Z) :
  0 < m -> 2 ^ (k - 1) <= m < 2 ^ k -> Zdigits2 m = k.
Proof.
  intros Hm [Hlo Hhi]. pose proof (Zdigits2_bounds m Hm) as (Hd & Hdlo & Hdhi).
  assert (Hk : 0 < k).
  { destruct (Z_lt_le_dec 0 k); [assumption|].
    destruct (Z.eq_dec k 0) as [->|]; [cbn in Hhi; lia|].
    rewrite Z.pow_neg_r in Hhi by lia. lia. }
  destruct (Z_lt_le_dec (Zdigits2 m) k) as [Hlt|Hge].
  - assert (2 ^ Zdigits2 m <= 2 ^ (k - 1)) by (apply Z.pow_le_mono_r; lia). lia.
  - destruct (Z.eq_dec (Zdigits2 m) k); [assumption|].
    assert (2 ^ k <= 2 ^ (Zdigits2 m - 1)) by (apply Z.pow_le_mono_r; lia). lia.
Qed.

Lemma Zdigits2_shift (m k : Z) :
  0 < m -> 0 <= k -> Zdigits2 (m * 2 ^ k) = Zdigits2 m + k.
Proof.
  intros Hm Hk. pose proof (Zdigits2_bounds m Hm) as (Hd & Hlo & Hhi).
  assert (Hp : 0 < 2 ^ k) by (apply Z.pow_pos_nonneg; lia).
  apply Zdigits2_unique; [nia|].
  replace (Zdigits2 m + k - 1) with (Zdigits2 m - 1 + k) by lia.
  rewrite !Z.pow_add_r by lia. split; nia.
Qed.

(** An integer below [2^53] in magnitude is a binary64 number. *)
Lemma round_positive_integer (negative : bool) (a : positive) :
  Z.pos (digits2_pos a) <= 53 ->
  exists c : positive,
    Z.pos c = Z.pos a * 2 ^ (53 - Z.pos (digits2_pos a))
    /\ round_positive negative a 1
       = S754_finite negative c (Z.pos (digits2_pos a) - 53)
    /\ valid_binary (S754_finite negative c (Z.pos (digits2_pos a) - 53)) = true.
Proof.
  intros Hd. set (d := Z.pos (digits2_pos a)) in *.
  assert (Hdpos : 0 < d) by (unfold d; lia).
  assert (Hc : 0 < Z.pos a * 2 ^ (53 - d)).
  { apply Z.mul_pos_pos; [lia|]. apply Z.pow_pos_nonneg; lia. }
  destruct (Z.pos a * 2 ^ (53 - d)) as [|c|] eqn:Ec; try lia.
  exists c. split; [reflexivity|].
  assert (Hdc : Z.pos (digits2_pos c) = 53).
  { change (Z.pos (digits2_pos c)) with (Zdigits2 (Z.pos c)).
    rewrite <- Ec, Zdigits2_shift by lia. cbn [Zdigits2]. fold d. lia. }
  assert (Hvalid : valid_binary (S754_finite negative c (d - 53)) = true).
  { unfold SpecFloat.valid_binary, bounded, canonical_mantissa.
    rewrite fexp_binary64, Hdc. change (emax - prec) with 971.
    apply andb_true_intro. split; [apply Z.eqb_eq | apply Z.leb_le]; lia. }
  split; [|exact Hvalid].
  unfold round_positive. cbn [digits2_pos]. fold d.
  replace (Z.max 0 (1 + 56 - d)) with (57 - d) by lia.
  rewrite Z.div_1_r, Z.mod_1_r. cbn [Z.eqb].
  assert (Hn : Z.pos a * 2 ^ (57 - d) = Z.pos c~0~0~0~0).
  { replace (57 - d) with (53 - d + 4) by lia.
    rewrite Z.pow_add_r, Z.mul_assoc, Ec by lia.
    change (2 ^ 4) with 16. lia. }
  rewrite Hn. unfold binary_round_aux, shr_fexp.
  assert (Hdn : Zdigits2 (Z.pos c~0~0~0~0) = 57).
  { cbn [Zdigits2 digits2_pos]. rewrite !Pos2Z.inj_succ, Hdc. reflexivity. }
  rewrite Hdn, fexp_binary64.
  replace (Z.max (57 + - (57 - d) - 53) (-1074) - - (57 - d)) with 4 by lia.
  cbn [shr shr_record_of_loc SpecFloat.iter_pos shr_1 shr_m loc_of_shr_record
       round_nearest_even orb].
  cbn [Zdigits2]. rewrite Hdc, fexp_binary64.
  replace (Z.max (53 + (- (57 - d) + 4) - 53) (-1074) - (- (57 - d) + 4)) with 0 by lia.
  cbn [shr shr_m shr_record_of_loc].
  replace (- (57 - d) + 4) with (d - 53) by lia.
  replace (d - 53 <=? emax - prec) with true; [reflexivity|].
  symmetry. apply Z.leb_le. change (emax - prec) with 971. lia.
Qed.

Local Open Scope Q_scope.

Lemma round_Q_integer (z : Z) :
  (Z.abs z < 2 ^ 53)%Z ->
  exists v, exact_value (round_Q (inject_Z z)) = Some v /\ v == inject_Z z.
Proof.
  intros Hz. destruct z as [|a|a].
  - exists 0. split; reflexivity.
  - assert (Hd : (Z.pos (digits2_pos a) <= 53)%Z).
    { apply (Zdigits2_le (Z.pos a)); lia. }
    destruct (round_positive_integer false a Hd) as (c & Hc & Hround & Hvalid).
    apply finite_exact_value'.
    unfold round_Q. cbn [Qnum Qden inject_Z]. rewrite Hround.
    rewrite Prim2SF_SF2Prim by exact Hvalid. split; [reflexivity|].
    rewrite SF2Q_finite. cbn [cond_Zopp]. rewrite Hc.
    replace (53 - Z.pos (digits2_pos a))%Z
      with (0 - (Z.pos (digits2_pos a) - 53))%Z by lia.
    rewrite scale_eq by lia. change (2 ^ 0) with 1. ring.
  - assert (Hd : (Z.pos (digits2_pos a) <= 53)%Z).
    { apply (Zdigits2_le (Z.pos a)); lia. }
    destruct (round_positive_integer true a Hd) as (c & Hc & Hround & Hvalid).
    apply finite_exact_value'.
    unfold round_Q. cbn [Qnum Qden inject_Z]. rewrite Hround.
    rewrite Prim2SF_SF2Prim by exact Hvalid. split; [reflexivity|].
    rewrite SF2Q_finite. cbn [cond_Zopp]. rewrite Hc.
    change (Z.neg a) with (- Z.pos a)%Z. rewrite !inject_Z_opp.
    replace (53 - Z.pos (digits2_pos a))%Z
      with (0 - (Z.pos (digits2_pos a) - 53))%Z by lia.
    assert (Hs := scale_eq (Z.pos a) 0 (Z.pos (digits2_pos a) - 53) ltac:(lia)).
    change (2 ^ 0) with 1 in Hs.
    assert (Ho : forall p q : Q, - p * q == - (p * q)) by (intros; ring).
    rewrite Ho, Hs. ring.
Qed.

Lemma Qfloor_unique (x : Q) (n : Z) :
  inject_Z n <= x -> x < inject_Z (n + 1) -> Qfloor x = n.
Proof.
  intros Hlo Hhi. pose proof (Qfloor_le x) as Hle. pose proof (Qlt_floor x) as Hlt.
  assert (H1 : inject_Z (Qfloor x) < inject_Z (n + 1)) by lra.
  assert (H2 : inject_Z n < inject_Z (Qfloor x + 1)) by lra.
  rewrite <- Zlt_Qlt in H1, H2. lia.
Qed.

Lemma exact_value_zero : exact_value PrimFloat.zero = Some 0.
Proof. reflexivity. Qed.

Lemma exact_value_hundred : exact_value (round_Q 100) = Some 100.
Proof. vm_compute. reflexivity. Qed.

(** [Math.round] of a number below [2^52] in magnitude is the integer
    [floor (v + 1/2)]. *)
Lemma F_round_value (x : float) (v : Q) :
  exact_value x = Some v -> Qabs v <= 2 ^ 52 ->
  exists r, exact_value (F_round x) = Some r /\ r == inject_Z (Qfloor (v + (1 # 2))).
Proof.
  intros Hx Hv. unfold F_round. unfold exact_value in Hx.
  destruct (Prim2SF x) as [s|s| |s m e] eqn:Ex; try discriminate.
  - injection Hx as <-. exists 0. split; [|reflexivity].
    unfold exact_value. rewrite Ex. reflexivity.
  - injection Hx as Hx.
    set (w := inject_Z (Z.pos m) * 2 ^ e) in *.
    assert (Hw : v == (if s then - w else w)).
    { rewrite <- Hx. destruct s; rewrite Qred_correct; reflexivity. }
    cbv zeta. rewrite <- (Qfloor_comp _ _ (Qplus_comp _ _ Hw _ _ (Qeq_refl (1 # 2)))).
    set (z := Qfloor (v + (1 # 2))).
    pose proof (Qfloor_le (v + (1 # 2))) as Hlo. pose proof (Qlt_floor (v + (1 # 2))) as Hhi.
    fold z in Hlo, Hhi.
    rewrite inject_Z_plus in Hhi. change (inject_Z 1) with 1 in Hhi.
    apply Qabs_Qle_condition in Hv as [Hv1 Hv2].
    rewrite <- (pow2_Z 52) in Hv1, Hv2 by lia.
    assert (Hz : (Z.abs z < 2 ^ 53)%Z).
    { assert (H1 : inject_Z z < inject_Z (2 ^ 52 + 1)).
      { rewrite inject_Z_plus. change (inject_Z 1) with 1. lra. }
      assert (H2 : inject_Z (- 2 ^ 52 + - (1)) < inject_Z (z + 1)).
      { rewrite !inject_Z_plus, !inject_Z_opp. change (inject_Z 1) with 1. lra. }
      rewrite <- Zlt_Qlt in H1, H2.
      change (2 ^ 53)%Z with (2 * 2 ^ 52)%Z.
      assert (0 < 2 ^ 52)%Z by reflexivity. lia. }
    destruct (Z.eqb_spec z 0) as [Hz0|Hz0].
    + exists 0. rewrite Hz0. split; [destruct s; reflexivity | reflexivity].
    + apply round_Q_integer. exact Hz.
Qed.

(** [x.toFixed(2)] of a number that is within half a hundredth of [k / 100]
    prints [k] hundredths. *)
Lemma F_toFixed2_cents (x : float) (v : Q) (k : Z) :
  exact_value x = Some v ->
  Qabs (v - inject_Z k / 100) < 1 # 200 ->
  Qabs v < pow10 21 ->
  fixed2_value (F_toFixed2 x) = Some k.
Proof.
  intros Hx Hk Hbig. unfold F_toFixed2. rewrite Hx.
  replace (Qle_bool (pow10 21) (Qabs v)) with false.
  2:{ symmetry. apply not_true_iff_false. intros E%Qle_bool_iff. lra. }
  assert (Hk' : - (1 # 200) < v - inject_Z k / 100 /\ v - inject_Z k / 100 < 1 # 200).
  { apply Qabs_Qlt_condition. exact Hk. }
  destruct Hk' as [Hk1 Hk2].
  assert (Hdiv : inject_Z k / 100 * 100 == inject_Z k) by field.
  destruct (PrimFloat.ltb x PrimFloat.zero) eqn:Hneg.
  - apply (ltb_value x PrimFloat.zero v 0 Hx exact_value_zero) in Hneg.
    assert (Hkz : (k <= 0)%Z).
    { assert (H : inject_Z k < inject_Z 1).
      { change (inject_Z 1) with 1. lra. }
      rewrite <- Zlt_Qlt in H. lia. }
    assert (Hh : Q_hundredths v = (- k)%Z).
    { unfold Q_hundredths. apply Qfloor_unique.
      - rewrite Qabs_neg by lra. rewrite inject_Z_opp. lra.
      - rewrite Qabs_neg by lra. rewrite inject_Z_plus, inject_Z_opp.
        change (inject_Z 1) with 1. lra. }
    rewrite Hh, fixed2_value_string by lia. f_equal. lia.
  - assert (Hpos : 0 <= v).
    { apply Qnot_lt_le. intros Hlt.
      apply (ltb_value x PrimFloat.zero v 0 Hx exact_value_zero) in Hlt. congruence. }
    assert (Hkz : (0 <= k)%Z).
    { assert (H : inject_Z (-1) < inject_Z k).
      { change (inject_Z (-1)) with (-1 # 1). lra. }
      rewrite <- Zlt_Qlt in H. lia. }
    assert (Hh : Q_hundredths v = k).
    { unfold Q_hundredths. apply Qfloor_unique.
      - rewrite Qabs_pos by lra. lra.
      - rewrite Qabs_pos by lra. rewrite inject_Z_plus.
        change (inject_Z 1) with 1. lra. }
    rewrite Hh, fixed2_value_string by lia. reflexivity.
Qed.

(** ** [Math.min] and [Math.max] *)

Lemma is_nan_finite (a : float) (va : Q) :
  exact_value a = Some va -> PrimFloat.is_nan a = false.
Proof.
  intros Ha. unfold PrimFloat.is_nan.
  replace (PrimFloat.eqb a a) with true; [reflexivity|].
  symmetry. apply (eqb_value a a va va Ha Ha). reflexivity.
Qed.

Lemma F_min_value (a b : float) (va vb : Q) :
  exact_value a = Some va -> exact_value b = Some vb ->
  exists v, exact_value (F_min a b) = Some v
            /\ v <= va /\ v <= vb /\ (v == va \/ v == vb).
Proof.
  intros Ha Hb. unfold F_min.
  rewrite (is_nan_finite a va Ha), (is_nan_finite b vb Hb).
  destruct (PrimFloat.ltb a b) eqn:E1.
  { apply (ltb_value a b va vb Ha Hb) in E1. exists va.
    split; [exact Ha|]. split; [lra|]. split; [lra|]. left. reflexivity. }
  destruct (PrimFloat.ltb b a) eqn:E2.
  { apply (ltb_value b a vb va Hb Ha) in E2. exists vb.
    split; [exact Hb|]. split; [lra|]. split; [lra|]. right. reflexivity. }
  assert (Heq : va == vb).
  { apply Qle_antisym; apply Qnot_lt_le; intros Hlt.
    - apply (ltb_value b a vb va Hb Ha) in Hlt. congruence.
    - apply (ltb_value a b va vb Ha Hb) in Hlt. congruence. }
  destruct (PrimFloat.get_sign a); [exists va | exists vb];
    (split; [assumption|]); (split; [lra|]); (split; [lra|]);
    [left | right]; reflexivity.
Qed.

Lemma F_max_value (a b : float) (va vb : Q) :
  exact_value a = Some va -> exact_value b = Some vb ->
  exists v, exact_value (F_max a b) = Some v
            /\ va <= v /\ vb <= v /\ (v == va \/ v == vb).
Proof.
  intros Ha Hb. unfold F_max.
  rewrite (is_nan_finite a va Ha), (is_nan_finite b vb Hb).
  destruct (PrimFloat.ltb a b) eqn:E1.
  { apply (ltb_value a b va vb Ha Hb) in E1. exists vb.
    split; [exact Hb|]. split; [lra|]. split; [lra|]. right. reflexivity. }
  destruct (PrimFloat.ltb b a) eqn:E2.
  { apply (ltb_value b a vb va Hb Ha) in E2. exists va.
    split; [exact Ha|]. split; [lra|]. split; [lra|]. left. reflexivity. }
  assert (Heq : va == vb).
  { apply Qle_antisym; apply Qnot_lt_le; intros Hlt.
    - apply (ltb_value b a vb va Hb Ha) in Hlt. congruence.
    - apply (ltb_value a b va vb Ha Hb) in Hlt. congruence. }
  destruct (PrimFloat.get_sign a); [exists vb | exists va];
    (split; [assumption|]); (split; [lra|]); (split; [lra|]);
    [right | left]; reflexivity.
Qed.

(** [Math.max(0, Math.min(100, value))] of a value that is not NaN is a
    number between 0 and 100; an infinity is clamped as well. *)
Lemma clamp_value (value : float) :
  PrimFloat.is_nan value = false ->
  exists v, exact_value (F_max (round_Q 0) (F_min (round_Q 100) value)) = Some v
            /\ 0 <= v <= 100.
Proof.
  intros Hnan.
  destruct (exact_value value) as [w|] eqn:Hw.
  - destruct (F_min_value (round_Q 100) value 100 w exact_value_hundred Hw)
      as (v1 & H1 & Hle1 & _ & _).
    destruct (F_max_value (round_Q 0) (F_min (round_Q 100) value) 0 v1 exact_value_zero H1)
      as (v & Hv & Hge & _ & [Hc|Hc]);
      exists v; (split; [exact Hv|]); lra.
  - unfold exact_value in Hw. unfold PrimFloat.is_nan in Hnan.
    rewrite FloatAxioms.eqb_spec in Hnan.
    destruct (Prim2SF value) as [s|s| |s m e] eqn:Ev; try discriminate.
    destruct s.
    + assert (Hmin : F_min (round_Q 100) value = value).
      { unfold F_min. unfold PrimFloat.is_nan at 2.
        rewrite (FloatAxioms.eqb_spec value), !FloatAxioms.ltb_spec, Ev. reflexivity. }
      rewrite Hmin. exists 0. split; [|lra].
      unfold F_max. unfold PrimFloat.is_nan at 2.
      rewrite (FloatAxioms.eqb_spec value), !FloatAxioms.ltb_spec, Ev. reflexivity.
    + assert (Hmin : F_min (round_Q 100) value = round_Q 100).
      { unfold F_min. unfold PrimFloat.is_nan at 2.
        rewrite (FloatAxioms.eqb_spec value), !FloatAxioms.ltb_spec, Ev. reflexivity. }
      rewrite Hmin. exists 100. split; [vm_compute; reflexivity | lra].
Qed.

(** ** The sign of a difference *)

Local Open Scope Z_scope.




Local Open Scope Q_scope.



(** ** Hundredths *)

Local Open Scope Q_scope.

Lemma Qfloor_half (z : Z) : Qfloor (inject_Z z + (1 # 2)) = z.
Proof.
  pose proof (Qfloor_le (inject_Z z + (1 # 2))) as Hle.
  pose proof (Qlt_floor (inject_Z z + (1 # 2))) as Hlt.
  set (f := Qfloor (inject_Z z + (1 # 2))) in *.
  unfold Qle, Qlt in *. simpl in *. lia.
Qed.

Lemma Q_hundredths_nonneg (x : Q) : (0 <= Q_hundredths x)%Z.
Proof.
  unfold Q_hundredths. change 0%Z with (Qfloor 0).
  apply Qfloor_resp_le. pose proof (Qabs_nonneg x). lra.
Qed.

Lemma toFixed2_value (x : Q) : fixed2_value (Q_toFixed2 x) = Some (Q_cents x).
Proof.
  unfold Q_toFixed2, Q_cents.
  apply fixed2_value_string, Q_hundredths_nonneg.
Qed.

Lemma Q_cents_hundredth (x : Q) (k : Z) : x == inject_Z k / 100 -> Q_cents x = k.
Proof.
  intros Hx. unfold Q_cents, Q_hundredths.
  destruct (Q_ltb x 0) eqn:E; [apply Q_ltb_lt in E | apply Q_ltb_ge in E].
  - assert (Hk : (k < 0)%Z).
    { rewrite Hx in E. unfold Qlt, Qdiv, Qmult, Qinv in E. simpl in E. lia. }
    assert (Habs : Qabs x * 100 + (1 # 2) == inject_Z (- k) + (1 # 2)).
    { rewrite Qabs_neg by lra. rewrite Hx, inject_Z_opp. field. }
    rewrite Habs, Qfloor_half. lia.
  - assert (Habs : Qabs x * 100 + (1 # 2) == inject_Z k + (1 # 2)).
    { rewrite Qabs_pos by lra. rewrite Hx. field. }
    rewrite Habs, Qfloor_half. reflexivity.
Qed.

Lemma Qsum_hundredths (ks : list Z) :
  Qsum (map (fun k => inject_Z k / 100) ks) == inject_Z (Zsum ks) / 100.
Proof.
  induction ks as [|k ks IH]; simpl; [reflexivity|].
  fold (Qsum (map (fun k => inject_Z k / 100) ks)).
  rewrite IH, inject_Z_plus. field.
Qed.

Lemma Zsum_app (l1 l2 : list Z) : Zsum (l1 ++ l2) = (Zsum l1 + Zsum l2)%Z.
Proof. induction l1 as [|x l1 IH]; simpl; [reflexivity|]. rewrite IH. lia. Qed.

(** ** The weekly distribution that is saved *)

Lemma rounded_hundredths (weeklyPercentages : list Q) :
  map (fun p => num_div (Math_round (num_mul p hundred)) hundred) weeklyPercentages
  = map (fun k => inject_Z k / 100)
        (map (fun p => Qfloor (p * 100 + (1 # 2))) weeklyPercentages).
Proof. rewrite map_map. reflexivity. Qed.

Lemma distribution_values (rounded : list Q) (cents : list Z) :
  Forall2 (fun p k => p == inject_Z k / 100) rounded cents ->
  map (fun item => fixed2_value (percentage item))
      (imap (fun idx p => {| week_index := idx + 1; percentage := toFixed2 p |}) rounded)
  = map Some cents.
Proof.
  intros Hall.
  change (map ?f ?l) with (f <$> l).
  rewrite fmap_imap.
  rewrite (imap_ext _ (fun _ p => fixed2_value (Q_toFixed2 p))) by reflexivity.
  induction Hall as [|p k rounded cents Hp Hall IH]; [reflexivity|].
  cbn [imap fmap list_fmap]. rewrite toFixed2_value, (Q_cents_hundredth p k Hp).
  f_equal. exact IH.
Qed.

Lemma saved_distribution_values (weeklyPercentages : list Q) :
  weeklyPercentages <> [] ->
  exists cents : list Z,
    map (fun item => fixed2_value (percentage item))
        (weeklyDistributionItems weeklyPercentages) = map Some cents
    /\ length cents = length weeklyPercentages
    /\ Zsum cents = 10000%Z.
Proof.
  intros Hne. unfold weeklyDistributionItems, roundedPercentages.
  rewrite rounded_hundredths.
  set (ks := map (fun p => Qfloor (p * 100 + (1 # 2))) weeklyPercentages).
  assert (Hlen : length ks = length weeklyPercentages) by apply length_map.
  assert (Htotal : fold_left num_add (map (fun k => inject_Z k / 100) ks) zero
                   == inject_Z (Zsum ks) / 100).
  { unfold zero. exact_ops. rewrite fold_left_Qplus, Qsum_hundredths. ring. }
  set (total := fold_left num_add (map (fun k => inject_Z k / 100) ks) zero) in *.
  assert (Hself : Forall2 (fun p k => p == inject_Z k / 100)
                          (map (fun k => inject_Z k / 100) ks) ks).
  { clear. induction ks; constructor; [reflexivity | assumption]. }
  replace (0 <? length (map (fun k => (inject_Z k / 100)%Q) ks))%nat with true.
  2:{ symmetry. apply Nat.ltb_lt. rewrite length_map, Hlen.
      destruct weeklyPercentages; [congruence | simpl; lia]. }
  cbn [andb]. unfold hundred. exact_ops.
  destruct (Q_ltb (1 # 1000) (Qabs (total - 100))) eqn:Hoff.
  - destruct (exists_last (l := ks)) as (init & k & Hks).
    { intros E. rewrite E in Hlen. destruct weeklyPercentages; [congruence|discriminate]. }
    exists (init ++ [(10000 - Zsum init)%Z]). split; [|split].
    + apply distribution_values.
      rewrite Hks, map_app, length_app. cbn [map length].
      replace (length (map (fun k => (inject_Z k / 100)%Q) init) + 1 - 1)%nat
        with (length (map (fun k => (inject_Z k / 100)%Q) init) + 0)%nat by lia.
      rewrite alter_app_r. cbn [alter list_alter].
      apply Forall2_app.
      * clear. induction init; constructor; [reflexivity | assumption].
      * constructor; [|constructor].
        setoid_rewrite Htotal. rewrite Hks, Zsum_app. cbn [Zsum foldr].
        unfold Z.sub. rewrite !inject_Z_plus, inject_Z_opp. field.
    + rewrite <- Hlen, Hks, !length_app. reflexivity.
    + rewrite Zsum_app. cbn [Zsum foldr]. lia.
  - exists ks. split; [|split].
    + apply distribution_values, Hself.
    + exact Hlen.
    + apply Q_ltb_ge in Hoff. apply Qabs_Qle_condition in Hoff as [Hlo Hhi].
      setoid_rewrite Htotal in Hlo. setoid_rewrite Htotal in Hhi.
      unfold Qle, Qdiv, Qmult, Qinv, Qminus, Qplus, Qopp in Hlo, Hhi.
      simpl in Hlo, Hhi. lia.
Qed.


Lemma length_roundedPercentages (weeklyPercentages : list Q) :
  length (roundedPercentages weeklyPercentages) = length weeklyPercentages.
Proof.
  unfold roundedPercentages.
  destruct (_ && _); rewrite ?length_alter, length_map; reflexivity.
Qed.

(** ** Operations on numbers below [2^27] *)

Local Open Scope Q_scope.

Ltac binary64_ops :=
  cbn [num_lit num_add num_sub num_mul num_div num_ltb num_leb num_eqb
       num_truthy Math_max Math_min Math_abs Math_round toFixed2 Binary64] in *.

(** Below [2^27 = 134217728] in magnitude, one operation is off by
    [2^-24] at most. *)
Section Below27.
Variables (a b : float) (va vb : Q).
Hypothesis Ha : exact_value a = Some va.
Hypothesis Hb : exact_value b = Some vb.


Lemma sub_27 :
  Qabs (va - vb) <= 134217728 ->
  exists v, exact_value (PrimFloat.sub a b) = Some v
            /\ Qabs (v - (va - vb)) <= 1 # 16777216.
Proof. intros H. apply (sub_value a b va vb Ha Hb 27 ltac:(lia) H). Qed.

Lemma mul_27 :
  Qabs (va * vb) <= 134217728 ->
  exists v, exact_value (PrimFloat.mul a b) = Some v
            /\ Qabs (v - va * vb) <= 1 # 16777216.
Proof. intros H. apply (mul_value a b va vb Ha Hb 27 ltac:(lia) H). Qed.

Lemma div_27 :
  ~ vb == 0 -> Qabs (va / vb) <= 134217728 ->
  exists v, exact_value (PrimFloat.div a b) = Some v
            /\ Qabs (v - va / vb) <= 1 # 16777216.
Proof. intros H0 H. apply (div_value a b va vb Ha Hb 27 ltac:(lia) H0 H). Qed.

End Below27.

Lemma within_value (bound : Q) (x : float) :
  within bound x = true -> exists v, exact_value x = Some v /\ Qabs v <= bound.
Proof.
  unfold within. destruct (exact_value x) as [v|]; [|discriminate].
  intros H%Qle_bool_iff. exists v. split; [reflexivity | exact H].
Qed.

Lemma Qabs_bounds (x b : Q) : Qabs x <= b <-> - b <= x /\ x <= b.
Proof. apply Qabs_Qle_condition. Qed.

(** ** The weekly distribution that is saved, on binary64 *)

(** One percentage: [Math.round(p * 100) / 100] is within [2^-24] of the
    hundredths that [Math.round] returned. *)
Lemma rounded_entry (p : float) :
  within 1000000 p = true ->
  exists (k : Z) (vq : Q),
    hundredths p = Some k
    /\ exact_value (num_div (Math_round (num_mul p hundred)) hundred) = Some vq
    /\ Qabs (vq - inject_Z k / 100) <= 1 # 16777216
    /\ Qabs (inject_Z k) <= 100000001.
Proof.
  intros (v & Hp & Hv)%within_value. unfold hundredths, hundred. binary64_ops.
  apply Qabs_bounds in Hv.
  assert (Hb1 : Qabs (v * 100) <= 134217728) by (apply Qabs_bounds; split; lra).
  destruct (mul_27 p (round_Q 100) v 100 Hp exact_value_hundred Hb1) as (vx & Hx & Hex).
  apply Qabs_bounds in Hex.
  assert (Hb2 : Qabs vx <= 2 ^ 52).
  { apply Qabs_bounds. change (2 ^ 52) with 4503599627370496. split; lra. }
  destruct (F_round_value _ vx Hx Hb2) as (r & Hr & Hrz).
  set (k := Qfloor (vx + (1 # 2))) in *.
  pose proof (Qfloor_le (vx + (1 # 2))) as Hlo. pose proof (Qlt_floor (vx + (1 # 2))) as Hhi.
  fold k in Hlo, Hhi. rewrite inject_Z_plus in Hhi. change (inject_Z 1) with 1 in Hhi.
  assert (Hb3 : ~ 100 == 0) by discriminate.
  assert (Hdiv : inject_Z k / 100 * 100 == inject_Z k) by field.
  assert (Hb4 : Qabs (r / 100) <= 134217728).
  { rewrite Hrz. apply Qabs_bounds. split; lra. }
  destruct (div_27 _ (round_Q 100) r 100 Hr exact_value_hundred Hb3 Hb4) as (vq & Hq & Heq).
  exists k, vq. rewrite Hr. cbn [fmap option_fmap option_map].
  split; [f_equal; rewrite (Qfloor_comp _ _ Hrz); apply Qfloor_Z|].
  split; [exact Hq|]. rewrite Hrz in Heq.
  split; [exact Heq|]. apply Qabs_bounds. split; lra.
Qed.

Ltac qlra := unfold Qdiv in *; change (/ 100) with (1 # 100) in *; lra.









Local Open Scope Z_scope.



(** ** Role weights *)

Local Open Scope Q_scope.

Lemma role_weight_change_binary64 (prev : gmap nat (@RoleRecord float)) (weekIndex : nat)
    (role : Role) (value : float) :
  role = sales_junior \/ role = sales_senior ->
  PrimFloat.is_nan value = false ->
  exists weights junior senior vj vs,
    handleRoleWeightChange prev weekIndex role value !! weekIndex = Some weights
    /\ weights sales_junior = Some junior
    /\ weights sales_senior = Some senior
    /\ weights role = Some (Math_max zero (Math_min hundred value))
    /\ weights (otherRole role)
       = Some (Math_max zero
                 (num_sub hundred (Math_max zero (Math_min hundred value))))
    /\ exact_value junior = Some vj
    /\ exact_value senior = Some vs
    /\ 0 <= vj /\ 0 <= vs
    /\ Qabs (vj + vs - 100) <= 1 # 17592186044416
    /\ (forall v, weights role = Some v ->
                  exists w, exact_value v = Some w /\ 0 <= w <= 100).
Proof.
  intros Hrole Hnan. unfold handleRoleWeightChange, zero, hundred. binary64_ops.
  destruct (clamp_value value Hnan) as (v & Hv & Hv0 & Hv100).
  set (newValue := F_max (round_Q 0) (F_min (round_Q 100) value)) in *.
  assert (HsubB : Qabs (100 - v) <= 2 ^ 7).
  { apply Qabs_bounds. change (2 ^ 7) with 128. split; lra. }
  destruct (sub_value (round_Q 100) newValue 100 v exact_value_hundred Hv 7 ltac:(lia) HsubB)
    as (vd & Hvd & Hd).
  change (2 ^ (7 - 51)) with (1 # 17592186044416) in Hd. apply Qabs_bounds in Hd.
  destruct (F_max_value (round_Q 0) _ 0 vd exact_value_zero Hvd)
    as (vo & Hvo & Hvo0 & Hvod & Hcase).
  set (otherValue := F_max (round_Q 0) (PrimFloat.sub (round_Q 100) newValue)) in *.
  rewrite lookup_insert_eq.
  assert (Hnear : Qabs (v + vo - 100) <= 1 # 17592186044416).
  { apply Qabs_bounds. destruct Hcase as [Hc|Hc]; rewrite Hc; split; lra. }
  assert (Hnear' : Qabs (vo + v - 100) <= 1 # 17592186044416).
  { apply Qabs_bounds in Hnear. apply Qabs_bounds. split; lra. }
  destruct Hrole as [-> | ->]; cbn [otherRole].
  - eexists _, newValue, otherValue, v, vo.
    split; [reflexivity|]. unfold set_role.
    repeat (split; [first [reflexivity | assumption]|]).
    intros w [= <-]. exists v. split; [exact Hv | split; assumption].
  - eexists _, otherValue, newValue, vo, v.
    split; [reflexivity|]. unfold set_role.
    repeat (split; [first [reflexivity | assumption]|]).
    intros w [= <-]. exists v. split; [exact Hv | split; assumption].
Qed.

(** The two weights that are sent for a team with both sales roles (or
    with none): the junior weight rounded to hundredths, and what is left
    to 100.00. *)
Lemma saved_role_weights_binary64 (weight : float) :
  within 1000000 weight = true ->
  exists k : Z,
    hundredths weight = Some k
    /\ fixed2_value
         (toFixed2 (num_div (Math_round (num_mul weight hundred)) hundred))
       = Some k
    /\ fixed2_value
         (toFixed2
            (num_div
               (Math_round
                  (num_mul
                     (num_sub hundred
                        (num_div (Math_round (num_mul weight hundred)) hundred))
                     hundred))
               hundred))
       = Some (10000 - k)%Z.
Proof.
  intros Hw. destruct (rounded_entry weight Hw) as (k & vq & Hk & Hq & Hnear & Hmag).
  exists k. split; [exact Hk|].
  unfold hundred in *. binary64_ops.
  set (juniorWeight := PrimFloat.div (F_round (PrimFloat.mul weight (round_Q 100)))
                                     (round_Q 100)) in *.
  apply Qabs_bounds in Hnear, Hmag.
  split.
  { apply (F_toFixed2_cents juniorWeight vq k Hq).
    - apply Qabs_Qlt_condition. split; qlra.
    - apply Qabs_Qlt_condition. change (pow10 21) with 1000000000000000000000.
      split; qlra. }
  assert (Hb1 : Qabs (100 - vq) <= 134217728) by (apply Qabs_bounds; split; qlra).
  destruct (sub_27 (round_Q 100) juniorWeight 100 vq exact_value_hundred Hq Hb1)
    as (vs & Hvs & Hsub).
  apply Qabs_bounds in Hsub.
  assert (Hb2 : Qabs (vs * 100) <= 134217728) by (apply Qabs_bounds; split; qlra).
  destruct (mul_27 _ (round_Q 100) vs 100 Hvs exact_value_hundred Hb2) as (vm & Hvm & Hmul).
  apply Qabs_bounds in Hmul.
  assert (Hb3 : Qabs vm <= 2 ^ 52).
  { apply Qabs_bounds. change (2 ^ 52) with 4503599627370496. split; qlra. }
  destruct (F_round_value _ vm Hvm Hb3) as (r & Hr & Hrz).
  assert (Hk' : inject_Z (10000 - k) == 10000 - inject_Z k).
  { unfold Z.sub. rewrite inject_Z_plus, inject_Z_opp. reflexivity. }
  assert (Hfloor : Qfloor (vm + (1 # 2)) = (10000 - k)%Z).
  { apply Qfloor_unique.
    - rewrite Hk'. qlra.
    - rewrite inject_Z_plus, Hk'. change (inject_Z 1) with 1. qlra. }
  rewrite Hfloor in Hrz.
  assert (Hb4 : ~ 100 == 0) by discriminate.
  assert (Hb5 : Qabs (r / 100) <= 134217728).
  { rewrite Hrz, Hk'. apply Qabs_bounds. split; qlra. }
  destruct (div_27 _ (round_Q 100) r 100 Hr exact_value_hundred Hb4 Hb5) as (vq2 & Hq2 & Hdiv).
  rewrite Hrz, Hk' in Hdiv. apply Qabs_bounds in Hdiv.
  apply (F_toFixed2_cents _ vq2 (10000 - k) Hq2).
  - rewrite Hk'. apply Qabs_Qlt_condition. split; qlra.
  - apply Qabs_Qlt_condition. change (pow10 21) with 1000000000000000000000.
    split; qlra.
Qed.

Local Open Scope Z_scope.

(** C4, as the code has it, on binary64. After [handleRoleWeightChange]
    for a sales role with a value that is a number, the junior and the
    senior weight of that week in the state are finite and not negative,
    the changed one is the value clamped into [0, 100] and the other one
    what the subtraction of it from 100 gives, the two add up to 100 up to
    the rounding of that subtraction (2^-44), and their sum as JavaScript
    computes it prints as 100.00. On save, [handleSaveTargets]
    sends for every week of the period a junior and a senior weight: 100.00
    and 0.00 for a team with juniors only, 0.00 and 100.00 for a team with
    seniors only, and otherwise, when the junior weight of the week (40 for
    a week without a record) is of magnitude at most 1000000, the decimal
    of [Math.round(weight * 100)] hundredths and the decimal of what is
    left to 100.00. *)
Theorem role_weights_sum_to_100 :
  (forall (prev : gmap nat (@RoleRecord float)) (weekIndex : nat) (role : Role)
          (value : float),
      role = sales_junior \/ role = sales_senior ->
      PrimFloat.is_nan value = false ->
      exists weights junior senior vj vs vc,
        handleRoleWeightChange prev weekIndex role value !! weekIndex = Some weights
        /\ weights sales_junior = Some junior
        /\ weights sales_senior = Some senior
        /\ exact_value junior = Some vj
        /\ exact_value senior = Some vs
        /\ (0 <= vj /\ 0 <= vs)%Q
        /\ (Qabs (vj + vs - 100) <= 1 # 17592186044416)%Q
        /\ fixed2_value (toFixed2 (num_add junior senior)) = Some 10000
        /\ weights role = Some (Math_max zero (Math_min hundred value))
        /\ weights (otherRole role)
           = Some (Math_max zero
                     (num_sub hundred (Math_max zero (Math_min hundred value))))
        /\ exact_value (Math_max zero (Math_min hundred value)) = Some vc
        /\ (0 <= vc <= 100)%Q)
  /\ (forall (st : @State float) (period : PeriodSummary) (idx : nat),
        selectedPeriod st = Some period ->
        (idx < length (weeks st))%nat ->
        let onlyJuniors :=
          (0 <? count_role sales_junior (members st))%nat
          && (count_role sales_senior (members st) =? 0)%nat in
        let onlySeniors :=
          (0 <? count_role sales_senior (members st))%nat
          && (count_role sales_junior (members st) =? 0)%nat in
        exists items : list RoleWeightInput,
          (forall outcome sched,
              Invoke (upsertWeeklyRoleWeights (id period) (idx + 1) items)
              ∈ handleSaveTargets st outcome sched)
          /\ (onlyJuniors = true ->
              items = [ {| weight_role := sales_junior; weight_percentage := "100.00" |};
                        {| weight_role := sales_senior; weight_percentage := "0.00" |} ])
          /\ (onlyJuniors = false -> onlySeniors = true ->
              items = [ {| weight_role := sales_junior; weight_percentage := "0.00" |};
                        {| weight_role := sales_senior; weight_percentage := "100.00" |} ])
          /\ (onlyJuniors = false -> onlySeniors = false ->
              forall weight : float,
                default (role_record zero zero (num_lit 40) (num_lit 60))
                        (roleWeights st !! (idx + 1)%nat) sales_junior
                = Some weight ->
                within 1000000 weight = true ->
                exists k : Z,
                  hundredths weight = Some k
                  /\ map (fun item =>
                            (weight_role item, fixed2_value (weight_percentage item)))
                         items
                     = [(sales_junior, Some k); (sales_senior, Some (10000 - k))])).
Proof.
  split.
  - intros prev weekIndex role value Hrole Hnan.
    destruct (role_weight_change_binary64 prev weekIndex role value Hrole Hnan)
      as (weights & junior & senior & vj & vs & Hw & Hj & Hs & Hchanged & Hother
          & Hvj & Hvs & Hj0 & Hs0 & Hnear & Hclamp).
    destruct (Hclamp _ Hchanged) as (vc & Hvc & Hrange).
    exists weights, junior, senior, vj, vs, vc.
    do 5 (split; [assumption|]).
    split; [split; assumption|]. split; [exact Hnear|].
    split; [|split; [exact Hchanged | split; [exact Hother | split;
                                                [exact Hvc | exact Hrange]]]].
    apply Qabs_bounds in Hnear.
    assert (Hb : (Qabs (vj + vs) <= 2 ^ 7)%Q).
    { apply Qabs_bounds. change (2 ^ 7)%Q with 128%Q. split; lra. }
    destruct (add_value junior senior vj vs Hvj Hvs 7 ltac:(lia) Hb) as (vt & Hvt & Ht).
    change (2 ^ (7 - 51))%Q with (1 # 17592186044416)%Q in Ht.
    apply Qabs_bounds in Ht. binary64_ops.
    apply (F_toFixed2_cents _ vt 10000 Hvt).
    + apply Qabs_Qlt_condition. change (inject_Z 10000) with 10000%Q. split; qlra.
    + apply Qabs_Qlt_condition. change (pow10 21) with 1000000000000000000000%Q.
      split; lra.
  - intros st period idx Hperiod Hidx onlyJuniors onlySeniors.
    exists (roleWeightItems (members st) (roleWeights st) (idx + 1)).
    split; [|split; [|split]].
    + intros outcome sched. apply (writes_invoked st period); [exact Hperiod|].
      unfold configurationWrites. apply elem_of_app. left.
      apply lookup_lt_is_Some_2 in Hidx as [week Hweek].
      apply elem_of_lookup_imap. exists idx, week. split; [reflexivity | exact Hweek].
    + intros HJ. unfold roleWeightItems. fold onlyJuniors. rewrite HJ. reflexivity.
    + intros HJ HS. unfold roleWeightItems. fold onlyJuniors onlySeniors.
      rewrite HJ, HS. reflexivity.
    + intros HJ HS weight Hweight Hwithin.
      destruct (saved_role_weights_binary64 weight Hwithin) as (k & Hk & Hjunior & Hsenior).
      exists k. split; [exact Hk|].
      unfold roleWeightItems. fold onlyJuniors onlySeniors.
      rewrite HJ, HS, Hweight. cbn [map weight_role weight_percentage].
      rewrite Hjunior, Hsenior. reflexivity.
Qed.

Local Open Scope Q_scope.

(** ** The guard against a zero target *)

#[export] Instance Exact_laws : JsNumberLaws Q.
Proof.
  constructor. intros x Hx. unfold zero in *. exact_ops.
  apply Q_ltb_lt in Hx. apply not_true_iff_false. intros E%Qeq_bool_iff. lra.
Qed.

#[export] Instance Binary64_laws : JsNumberLaws float.
Proof.
  constructor. intros x. unfold zero.
  cbn [num_lit num_ltb num_eqb Binary64].
  change (round_Q 0) with PrimFloat.zero.
  rewrite FloatAxioms.ltb_spec, FloatAxioms.eqb_spec.
  change (Prim2SF PrimFloat.zero) with (S754_zero false).
  destruct (Prim2SF x) as [s|s| |s m e]; try destruct s;
    cbn; intros; congruence.
Qed.

Section Guard.
Context {N : Type} `{JsNumberLaws N}.
Variable parseFloat : string -> N.

Lemma percentageOfTarget_done (achieved target : N) :
  percentageOfTarget achieved target = Done (guardedPercentage achieved target).
Proof.
  unfold percentageOfTarget, guardedPercentage, checked_div.
  destruct (num_ltb zero target) eqn:E; [|reflexivity].
  rewrite (positive_nonzero target E). reflexivity.
Qed.

Lemma mapM_done {A B} (f : A -> Checked B) (g : A -> B) (l : list A) :
  (forall a, f a = Done (g a)) -> mapM f l = Done (map g l).
Proof.
  intros Hf. induction l as [|a l IH]; [reflexivity|].
  cbn [mapM map]. rewrite Hf, IH. reflexivity.
Qed.

Lemma toEntry_done (user : UserData) : toEntry user = Done (entryOf user).
Proof. unfold toEntry. rewrite percentageOfTarget_done. reflexivity. Qed.

Lemma rankUsers_done (userMap : list UserData) :
  rankUsers userMap
  = Done (imap (fun idx user => set_rank (Z.of_nat idx + 1) user)
            (Array_sort
               (fun a b => num_ltb (num_sub (achievement_pct b) (achievement_pct a)) zero)
               (map entryOf userMap))).
Proof.
  unfold rankUsers. rewrite (mapM_done _ entryOf) by apply toEntry_done.
  reflexivity.
Qed.

(** C3. The percentage of a target that is not greater than zero is 0,
    and no division is made for it; the divisions that are made have a
    divisor greater than zero. So the aggregation of the leaderboard and
    the fulfilment figures never divide by zero: they always finish, and
    a user or a category with a zero or negative target gets 0. *)
Theorem zero_target_guard :
  (forall achieved target : N,
      num_ltb zero target = false ->
      percentageOfTarget achieved target = Done zero)
  /\ (forall achieved target : N,
        percentageOfTarget achieved target
        = Done (guardedPercentage achieved target))
  /\ (forall user : UserData,
        num_ltb zero (total_target user) = false ->
        exists entry, toEntry user = Done entry /\ achievement_pct entry = zero)
  /\ (forall isSingleMonth leaderboardRows allProgressData members,
        exists entries,
          leaderboardData parseFloat isSingleMonth leaderboardRows
            allProgressData members = Done entries)
  /\ (forall performance,
        exists figures, PeriodFulfillment parseFloat performance = Done figures)
  /\ (forall performance figures,
        PeriodFulfillment parseFloat (Some performance) = Done (Some figures) ->
        categoryPercentages figures
        = map (fun cat =>
                 guardedPercentage
                   (or_zero (parseFloat (achieved_value cat)))
                   (or_zero (parseFloat (performance_target_value cat))))
              performance).
Proof.
  split; [|split; [|split; [|split; [|split]]]].
  - intros achieved target Hle. unfold percentageOfTarget. rewrite Hle. reflexivity.
  - apply percentageOfTarget_done.
  - intros user Hle. exists (entryOf user). split; [apply toEntry_done|].
    unfold entryOf, guardedPercentage. simpl. rewrite Hle. reflexivity.
  - intros isSingleMonth leaderboardRows allProgressData members.
    unfold leaderboardData.
    destruct isSingleMonth; [destruct leaderboardRows; eexists; reflexivity|].
    destruct (0 <? length allProgressData)%nat; [|eexists; reflexivity].
    rewrite rankUsers_done. eexists. reflexivity.
  - intros [[|cat performance]|]; try (eexists; reflexivity).
    unfold PeriodFulfillment. rewrite percentageOfTarget_done.
    rewrite (mapM_done _ (fun cat =>
               guardedPercentage (or_zero (parseFloat (achieved_value cat)))
                 (or_zero (parseFloat (performance_target_value cat)))))
      by (intros; apply percentageOfTarget_done).
    eexists. reflexivity.
  - intros [|cat performance] figures; [discriminate|].
    unfold PeriodFulfillment. rewrite percentageOfTarget_done.
    rewrite (mapM_done _ (fun cat =>
               guardedPercentage (or_zero (parseFloat (achieved_value cat)))
                 (or_zero (parseFloat (performance_target_value cat)))))
      by (intros; apply percentageOfTarget_done).
    intros [= <-]. reflexivity.
Qed.
End Guard.

(** ** Ranking of the aggregated leaderboard *)

Local Open Scope Q_scope.

Lemma pct_before_lt (a b : @LeaderboardEntry Q) :
  pct_before a b = true -> achievement_pct b < achievement_pct a.
Proof. unfold pct_before, zero. exact_ops. intros E%Q_ltb_lt. lra. Qed.

Lemma pct_before_ge (a b : @LeaderboardEntry Q) :
  pct_before a b = false -> achievement_pct a <= achievement_pct b.
Proof. unfold pct_before, zero. exact_ops. intros E%Q_ltb_ge. lra. Qed.

Lemma sorted_by_pct (l : list (@LeaderboardEntry Q)) :
  StronglySorted pct_ge (Array_sort pct_before l).
Proof.
  apply Array_sort_sorted; unfold pct_ge.
  - intros x y E%pct_before_lt. lra.
  - intros x y E%pct_before_ge. lra.
  - intros x y z ? ?. lra.
Qed.

(** ** Sorting with a comparator that follows a key *)

Local Open Scope Q_scope.

(** [before] is what the comparator says on the values that satisfy [ok];
    it follows the key: [x] goes before [y] exactly when the key of [x] is
    the larger one. Then the sort orders by descending key and keeps the
    order of the values that have the same key. *)
Section KeyedSort.
Context {A : Type} (before : A -> A -> bool) (key : A -> Q) (ok : A -> Prop).
Hypothesis before_key :
  forall x y, ok x -> ok y -> (before x y = true <-> key y < key x).






End KeyedSort.



(** ** Ranking of the leaderboard *)












(** ** The components on binary64 numbers and on example data *)

Local Open Scope Z_scope.

(** The remainder when 100 is split in three ends up in the last week. *)
Lemma saved_distribution_binary64 :
  map percentage
      (weeklyDistributionItems (map round_Q [100 # 3; 100 # 3; 100 # 3]%Q))
  = ["33.33"; "33.33"; "33.34"]%string.
Proof. vm_compute. reflexivity. Qed.

(** The same for every equal split [100 / n] that [loadPeriodData] starts
    from, up to twelve weeks. *)
Lemma saved_equal_split_binary64 :
  forallb (fun n =>
             Zsum (omap (fun item => fixed2_value (percentage item))
                     (weeklyDistributionItems
                        (replicate n
                           (PrimFloat.div hundred (round_Q (inject_Z (Z.of_nat n)))))))
             =? 10000)
          (seq 1 12)
  = true.
Proof. vm_compute. reflexivity. Qed.



(** C4 on the walkthrough of the backend documentation: for a team with
    juniors and seniors, week 1 is loaded with a junior weight of 60 next to
    the default senior weight of 60; the pair in the state adds up to 120. *)
Lemma loaded_role_weights_sum_to_120 :
  exists weights junior senior,
    loadRoleWeights F_parseFloat [Examples.ana; Examples.ben]
      [Examples.walkthroughWeek1] !! 1%nat = Some weights
    /\ weights sales_junior = Some junior
    /\ weights sales_senior = Some senior
    /\ F_toString (num_add junior senior) = "120"%string
    /\ num_eqb (num_add junior senior) hundred = false.
Proof.
  eexists _, _, _. split; [vm_compute; reflexivity|].
  split; [vm_compute; reflexivity|]. split; [vm_compute; reflexivity|].
  vm_compute. split; reflexivity.
Qed.

(** C6: a target typed as 10000.00 is held as the number 10000 and sent as
    ["10000"], which has no fractional digits; 12.5 and 0.125 are sent with
    one and with three. *)
Lemma monthly_target_without_two_decimals :
  monthlyTargetItems
    (handleTargetChange F_parseFloat [("revenue"%string, zero)] "revenue" "10000.00")
  = [ {| category_id := "revenue"; target_value := "10000" |} ]
  /\ fixed2_value "10000" = None
  /\ map target_value
       (monthlyTargetItems
          [("a"%string, F_parseFloat "12.5"); ("b"%string, F_parseFloat "0.125")])
     = ["12.5"; "0.125"]%string
  /\ fixed2_value "12.5" = None
  /\ fixed2_value "0.125" = None.
Proof. vm_compute. repeat split. Qed.

(** On exact numbers, [toFixed(2)] always gives two fractional digits. *)
Lemma toFixed2_two_decimals (x : Q) : is_Some (fixed2_value (toFixed2 x)).
Proof. eexists. apply toFixed2_value. Qed.


Lemma zero_target_guard_example :
  percentageOfTarget (round_Q 5) (round_Q 0) = Done (zero : float).
Proof. apply (proj1 (zero_target_guard F_parseFloat)). reflexivity. Defined.

Lemma recompute_not_invoked_example :
  Invoke (recomputeUserWeekTargets "period-2025-12")
  ∉ handleSaveTargets Examples.wizard (fun i => negb (i =? 4)%nat) (fun step => step).
Proof.
  apply (proj2 (recompute_only_after_writes Examples.wizard Examples.december
                  (fun i => negb (i =? 4)%nat) (fun step => step) eq_refl)).
  - exists 4%nat. split; [|reflexivity].
    unfold configurationWrites. rewrite length_app, length_imap. simpl. lia.
  - reflexivity.
Defined.



Lemma role_weights_example :
  (exists weights junior senior,
      handleRoleWeightChange (∅ : gmap nat (@RoleRecord float)) 1 sales_junior
        (F_parseFloat "1.005") !! 1%nat
      = Some weights
      /\ weights sales_junior = Some junior
      /\ weights sales_senior = Some senior
      /\ F_toString junior = "1.005"%string
      /\ toFixed2 (num_add junior senior) = "100.00"%string)
  /\ (exists items : list RoleWeightInput,
        Invoke (upsertWeeklyRoleWeights "period-2025-12" 1 items)
        ∈ handleSaveTargets
            (Examples.wizard64 Examples.unevenWeeks
               (handleRoleWeightChange ∅ 1 sales_junior (F_parseFloat "1.005")))
            (fun _ => true) (fun step => step)
        /\ map (fun item => (weight_role item, fixed2_value (weight_percentage item)))
               items
           = [(sales_junior, Some 100); (sales_senior, Some 9900)]).
Proof.
  split.
  - destruct (proj1 role_weights_sum_to_100 ∅ 1%nat sales_junior (F_parseFloat "1.005")
                (or_introl eq_refl) eq_refl)
      as (weights & junior & senior & vj & vs & vc & Hw & Hj & Hs & _).
    exists weights, junior, senior.
    split; [exact Hw|]. split; [exact Hj|]. split; [exact Hs|].
    vm_compute in Hw. injection Hw as <-.
    vm_compute in Hj, Hs. injection Hj as <-. injection Hs as <-.
    vm_compute. split; reflexivity.
  - pose proof (proj2 role_weights_sum_to_100
                  (Examples.wizard64 Examples.unevenWeeks
                     (handleRoleWeightChange ∅ 1 sales_junior (F_parseFloat "1.005")))
                  Examples.december 0%nat eq_refl) as Hsave.
    cbv zeta in Hsave.
    destruct Hsave as (items & Hsent & _ & _ & Hboth); [simpl; lia|].
    edestruct (Hboth eq_refl eq_refl) as (k & Hk & Hitems);
      [vm_compute; reflexivity | vm_compute; reflexivity |].
    vm_compute in Hk. injection Hk as <-.
    exists items. split; [apply Hsent | exact Hitems].
Defined.


(** * Further properties of the target wizard *)

Local Open Scope Q_scope.

(** ** Auto-Balance *)

Lemma Qsum_map_div_mul (l : list Q) (t c : Q) :
  ~ t == 0 -> Qsum (map (fun p => p / t * c) l) == Qsum l / t * c.
Proof.
  intros Ht. induction l as [|x l IH]; cbn [map Qsum fold_right].
  - field. exact Ht.
  - fold (Qsum (map (fun p => p / t * c) l)). fold (Qsum l). rewrite IH. field. exact Ht.
Qed.

Lemma normalizePercentages_some (l : list Q) :
  ~ sum l == 0 ->
  normalizePercentages l = Some (map (fun p => p / sum l * 100) l)
  /\ sum (map (fun p => p / sum l * 100) l) == 100.
Proof.
  intros Ht. split.
  - unfold normalizePercentages, zero, hundred. exact_ops.
    destruct (Qeq_bool (sum l) 0) eqn:E; [apply Qeq_bool_iff in E; contradiction|].
    reflexivity.
  - rewrite sum_Qsum, Qsum_map_div_mul by exact Ht.
    rewrite <- sum_Qsum. field. exact Ht.
Qed.

Lemma normalizePercentages_none (l : list Q) :
  sum l == 0 -> normalizePercentages l = None.
Proof.
  intros Ht. unfold normalizePercentages, zero. exact_ops.
  apply Qeq_bool_iff in Ht. rewrite Ht. reflexivity.
Qed.

(** X1. For exact arithmetic: when the weekly percentages do not add up to
    0, [normalizePercentages] replaces them by as many percentages that add
    up to 100 and stand in the same proportions as before. *)
Theorem normalizePercentages_total (weeklyPercentages : list Q) :
  ~ sum weeklyPercentages == 0 ->
  exists normalized,
    normalizePercentages weeklyPercentages = Some normalized
    /\ sum normalized == 100
    /\ length normalized = length weeklyPercentages
    /\ forall i p, weeklyPercentages !! i = Some p ->
         exists p', normalized !! i = Some p'
                    /\ p' * sum weeklyPercentages == p * 100.
Proof.
  intros Ht. destruct (normalizePercentages_some _ Ht) as [Hn Hs].
  eexists. split; [exact Hn|]. split; [exact Hs|]. split.
  - apply length_map.
  - intros i p Hi. eexists. split.
    + rewrite list_lookup_fmap, Hi. reflexivity.
    + cbv beta. field. exact Ht.
Qed.

Lemma normalizePercentages_example :
  ~ sum [30; 30; 30; 30] == 0
  /\ exists normalized,
       normalizePercentages [30; 30; 30; 30] = Some normalized
       /\ sum normalized == 100
       /\ length normalized = length [30; 30; 30; 30]
       /\ forall i p, [30; 30; 30; 30] !! i = Some p ->
            exists p', normalized !! i = Some p'
                       /\ p' * sum [30; 30; 30; 30] == p * 100.
Proof.
  split; [vm_compute; discriminate|].
  apply (normalizePercentages_total [30; 30; 30; 30]). vm_compute. discriminate.
Defined.

(** X2. For exact arithmetic: after a click on "Auto-Balance" the total is
    shown in emerald, the button is gone and "Next: Role Weights" is enabled,
    unless the percentages add up to 0; then the button is drawn and "Next"
    is disabled, but the click changes nothing. *)
Theorem autoBalance_unlocks_next (weeklyPercentages : list Q) :
  (~ sum weeklyPercentages == 0 ->
   renderWeeklyDistribution (autoBalance weeklyPercentages)
   = {| totalInEmerald := true; autoBalanceOffered := false; nextDisabled := false |})
  /\ (sum weeklyPercentages == 0 ->
      autoBalance weeklyPercentages = weeklyPercentages
      /\ renderWeeklyDistribution weeklyPercentages
         = {| totalInEmerald := false; autoBalanceOffered := true;
              nextDisabled := true |}).
Proof.
  split; intros Ht.
  - destruct (normalizePercentages_some _ Ht) as [Hn Hs].
    unfold autoBalance. rewrite Hn. cbn [default from_option Datatypes.id].
    set (l := map _ _) in *. unfold renderWeeklyDistribution, hundred. exact_ops.
    assert (Ha : Qabs (sum l - 100) == 0).
    { rewrite Hs. reflexivity. }
    assert (H1 : Q_ltb (Qabs (sum l - 100)) (1 # 2) = true).
    { apply Q_ltb_lt. rewrite Ha. reflexivity. }
    assert (H2 : Q_ltb (1 # 2) (Qabs (sum l - 100)) = false).
    { apply Q_ltb_ge. rewrite Ha. discriminate. }
    rewrite H1, H2. reflexivity.
  - unfold autoBalance. rewrite (normalizePercentages_none _ Ht). split; [reflexivity|].
    unfold renderWeeklyDistribution, hundred. exact_ops.
    assert (Ha : Qabs (sum weeklyPercentages - 100) == 100).
    { rewrite Ht. reflexivity. }
    assert (H1 : Q_ltb (Qabs (sum weeklyPercentages - 100)) (1 # 2) = false).
    { apply Q_ltb_ge. rewrite Ha. discriminate. }
    assert (H2 : Q_ltb (1 # 2) (Qabs (sum weeklyPercentages - 100)) = true).
    { apply Q_ltb_lt. rewrite Ha. reflexivity. }
    rewrite H1, H2. reflexivity.
Qed.

Lemma autoBalance_example :
  renderWeeklyDistribution (autoBalance [30; 30; 30; 30])
  = {| totalInEmerald := true; autoBalanceOffered := false; nextDisabled := false |}
  /\ autoBalance [0; 0; 0; 0] = [0; 0; 0; 0]
  /\ nextDisabled (renderWeeklyDistribution [0; 0; 0; 0]) = true.
Proof.
  destruct (autoBalance_unlocks_next [30; 30; 30; 30]) as [H1 _].
  destruct (autoBalance_unlocks_next [0; 0; 0; 0]) as [_ H2].
  split; [apply H1; vm_compute; discriminate|].
  destruct H2 as [H2 H3]; [reflexivity|]. split; [exact H2|]. rewrite H3. reflexivity.
Defined.

(** ** Editing one week *)

(** X3. For any numbers: a change of the percentage of a week that exists
    gives a list of the same length in which the weeks before are untouched
    and the week itself holds the value clamped into [0, 100]. *)
Theorem handleWeeklyPercentageChange_shape {N : Type} `{JsNumber N}
    (weeklyPercentages : list N) (index : nat) (value oldValue : N) :
  weeklyPercentages !! index = Some oldValue ->
  exists newPercentages,
    handleWeeklyPercentageChange weeklyPercentages index value = Some newPercentages
    /\ length newPercentages = length weeklyPercentages
    /\ take index newPercentages = take index weeklyPercentages
    /\ newPercentages !! index = Some (Math_max zero (Math_min hundred value)).
Proof.
  intros Hold. pose proof (lookup_lt_Some _ _ _ Hold) as Hi.
  unfold handleWeeklyPercentageChange. rewrite Hold.
  set (newValue := Math_max zero (Math_min hundred value)).
  set (inserted := <[index := newValue]> weeklyPercentages).
  assert (Hlen : length inserted = length weeklyPercentages) by apply length_insert.
  assert (Hat : inserted !! index = Some newValue)
    by (apply list_lookup_insert_eq; exact Hi).
  assert (Htake : take index inserted = take index weeklyPercentages)
    by (apply take_insert_ge; lia).
  destruct (_ && _).
  - eexists. split; [reflexivity|]. split; [|split].
    + rewrite length_app, length_take, length_map, length_drop. lia.
    + rewrite take_app_le by (rewrite length_take; lia).
      rewrite take_take. replace (index `min` S index)%nat with index by lia.
      exact Htake.
    + rewrite lookup_app_l by (rewrite length_take; lia).
      rewrite lookup_take_lt by lia. exact Hat.
  - eexists. split; [reflexivity|]. auto.
Qed.

Lemma handleWeeklyPercentageChange_shape_example :
  exists newPercentages,
    handleWeeklyPercentageChange Examples.quarters 1 (round_Q 130) = Some newPercentages
    /\ length newPercentages = length Examples.quarters
    /\ take 1 newPercentages = take 1 Examples.quarters
    /\ newPercentages !! 1%nat = Some (Math_max zero (Math_min hundred (round_Q 130))).
Proof.
  apply (handleWeeklyPercentageChange_shape Examples.quarters 1 (round_Q 130)
           (round_Q 25)).
  reflexivity.
Defined.

Local Open Scope Q_scope.

(** X4. For exact arithmetic: when no percentage is negative before a
    change, none is negative after it. *)
Theorem handleWeeklyPercentageChange_nonnegative (weeklyPercentages : list Q)
    (index : nat) (value : Q) (newPercentages : list Q) :
  Forall (fun p => 0 <= p) weeklyPercentages ->
  handleWeeklyPercentageChange weeklyPercentages index value = Some newPercentages ->
  Forall (fun p => 0 <= p) newPercentages.
Proof.
  intros Hall. pose proof (clamp_bounds value) as [Hclamp _].
  unfold handleWeeklyPercentageChange.
  set (newValue := Math_max zero (Math_min hundred value)) in *.
  assert (Hins : Forall (fun p => 0 <= p) (<[index := newValue]> weeklyPercentages))
    by (apply Forall_insert; assumption).
  destruct (weeklyPercentages !! index) as [oldValue|] eqn:Hold.
  - set (itemsBelow := drop (S index) (<[index := newValue]> weeklyPercentages)) in *.
    destruct (_ && _) eqn:Hcond; intros [= <-]; [|exact Hins].
    apply andb_true_iff in Hcond as [Hlen Hroom].
    apply Nat.ltb_lt in Hlen. unfold zero in *. exact_ops.
    apply Qle_bool_iff in Hroom.
    apply Forall_app. split; [apply Forall_take; exact Hins|].
    apply Forall_fmap. apply Forall_drop with (n := S index) in Hins.
    fold itemsBelow in Hins. eapply Forall_impl; [exact Hins|]. intros p Hp. cbv beta.
    destruct (Q_ltb 0 (sum itemsBelow)) eqn:Hpos.
    + apply Q_ltb_lt in Hpos. apply Qmult_le_0_compat; [|exact Hroom].
      apply Qmult_le_0_compat; [exact Hp|].
      apply Qlt_le_weak, Qinv_lt_0_compat, Hpos.
    + apply Qle_shift_div_l.
      * unfold Qlt. simpl. lia.
      * rewrite Qmult_0_l. exact Hroom.
  - destruct (index =? length weeklyPercentages)%nat; intros [= <-].
    apply Forall_app. split; [exact Hall|]. repeat constructor. exact Hclamp.
Qed.

Lemma handleWeeklyPercentageChange_nonnegative_example :
  Forall (fun p => 0 <= p) [25; 25; 25; 25]
  /\ exists newPercentages,
       handleWeeklyPercentageChange [25; 25; 25; 25] 0 70 = Some newPercentages
       /\ Forall (fun p => 0 <= p) newPercentages.
Proof.
  assert (Hall : Forall (fun p => 0 <= p) [25; 25; 25; 25])
    by (repeat constructor; discriminate).
  split; [exact Hall|]. eexists. split; [reflexivity|].
  exact (handleWeeklyPercentageChange_nonnegative _ 0%nat 70 _ Hall eq_refl).
Defined.

(** X5. For exact arithmetic: the last week is never rebalanced. A change of
    its percentage replaces that entry only, so the total moves by the
    difference between the clamped value and the old one. *)
Theorem last_week_changes_total (weeklyPercentages : list Q) (index : nat)
    (value oldValue : Q) :
  weeklyPercentages !! index = Some oldValue ->
  S index = length weeklyPercentages ->
  handleWeeklyPercentageChange weeklyPercentages index value
  = Some (<[index := Math_max zero (Math_min hundred value)]> weeklyPercentages)
  /\ sum (<[index := Math_max zero (Math_min hundred value)]> weeklyPercentages)
     == sum weeklyPercentages - oldValue + Math_max zero (Math_min hundred value).
Proof.
  intros Hold Hlast.
  set (newValue := Math_max zero (Math_min hundred value)). split.
  - unfold handleWeeklyPercentageChange. fold newValue. rewrite Hold.
    rewrite drop_ge by (rewrite length_insert; lia). reflexivity.
  - rewrite !sum_Qsum.
    rewrite <- (take_drop_middle weeklyPercentages index oldValue Hold) at 2.
    rewrite insert_take_drop by lia.
    rewrite !Qsum_app. cbn [Qsum fold_right].
    fold (Qsum (drop (S index) weeklyPercentages)). ring.
Qed.

Lemma last_week_changes_total_example :
  handleWeeklyPercentageChange [25; 25; 25; 25] 3 40 = Some [25; 25; 25; 40]
  /\ sum [25; 25; 25; 40] == sum [25; 25; 25; 25] - 25 + 40.
Proof.
  exact (last_week_changes_total [25; 25; 25; 25] 3 40 25 eq_refl eq_refl).
Defined.

(** ** The monthly targets in the state *)

Lemma get_set_target_eq {N : Type} (m : list (string * N)) (k : string) (v : N) :
  get_target (set_target m k v) k = Some v.
Proof.
  unfold get_target. induction m as [|[k' v'] m IH]; simpl.
  - rewrite String.eqb_refl. reflexivity.
  - destruct (String.eqb k' k) eqn:E; simpl; rewrite E; [reflexivity | exact IH].
Qed.

Lemma get_set_target_ne {N : Type} (m : list (string * N)) (k k' : string) (v : N) :
  k' <> k -> get_target (set_target m k v) k' = get_target m k'.
Proof.
  intros Hne. unfold get_target. induction m as [|[k0 v0] m IH]; simpl.
  - apply String.eqb_neq in Hne. rewrite String.eqb_sym, Hne. reflexivity.
  - destruct (String.eqb k0 k) eqn:E; simpl.
    + apply String.eqb_eq in E as ->.
      assert (E : String.eqb k k' = false) by (apply String.eqb_neq; congruence).
      rewrite E. reflexivity.
    + destruct (String.eqb k0 k'); [reflexivity | exact IH].
Qed.

Lemma set_target_keys {N : Type} (m : list (string * N)) (k : string) (v : N) :
  ((k ∈ map fst m) /\ map fst (set_target m k v) = map fst m)
  \/ ((k ∉ map fst m) /\ map fst (set_target m k v) = map fst m ++ [k]).
Proof.
  induction m as [|[k' v'] m IH]; simpl.
  - right. split; [apply not_elem_of_nil | reflexivity].
  - destruct (String.eqb k' k) eqn:E.
    + apply String.eqb_eq in E as ->. left. split; [left | reflexivity].
    + apply String.eqb_neq in E. destruct IH as [[Hin Heq]|[Hnin Heq]].
      * left. split; [right; exact Hin | simpl; rewrite Heq; reflexivity].
      * right. split; [|simpl; rewrite Heq; reflexivity].
        intros [->|Hin]%elem_of_cons; [congruence | contradiction].
Qed.

Lemma set_target_NoDup {N : Type} (m : list (string * N)) (k : string) (v : N) :
  NoDup (map fst m) -> NoDup (map fst (set_target m k v)).
Proof.
  intros Hm. destruct (set_target_keys m k v) as [[_ ->]|[Hnin ->]]; [exact Hm|].
  apply NoDup_app. split; [exact Hm|]. split; [|apply NoDup_singleton].
  intros x Hx [->|[]%elem_of_nil]%elem_of_cons. contradiction.
Qed.

(** X6. For any numbers: after [handleTargetChange] the category holds the
    number that was typed (0 when [parseFloat] gives nothing truthy), every
    other category holds what it held before, and no category gets a second
    entry. *)
Theorem handleTargetChange_lookup {N : Type} `{JsNumber N}
    (parseFloat : string -> N) (shopTargets : list (string * N))
    (categoryId value : string) :
  get_target (handleTargetChange parseFloat shopTargets categoryId value) categoryId
  = Some (or_zero (parseFloat value))
  /\ (forall other, other <> categoryId ->
        get_target (handleTargetChange parseFloat shopTargets categoryId value) other
        = get_target shopTargets other)
  /\ (NoDup (map fst shopTargets) ->
      NoDup (map fst (handleTargetChange parseFloat shopTargets categoryId value))).
Proof.
  unfold handleTargetChange. split; [apply get_set_target_eq|]. split.
  - intros other Hne. apply get_set_target_ne, Hne.
  - apply set_target_NoDup.
Qed.

Section LoadedTargets.
Context {N : Type} `{JsNumber N}.
Variable parseFloat : string -> N.

Lemma zeroTargets_fold (categories : list Category) (m : list (string * N))
    (k : string) :
  (k ∈ map cat_id categories \/ get_target m k = Some zero) ->
  get_target (fold_left (fun acc cat => set_target acc (cat_id cat) zero) categories m) k
  = Some zero.
Proof.
  revert m. induction categories as [|cat categories IH]; intros m Hk; simpl.
  - destruct Hk as [Hk|Hk]; [inversion Hk | exact Hk].
  - apply IH. destruct (decide (cat_id cat = k)) as [<-|Hne].
    + right. apply get_set_target_eq.
    + destruct Hk as [Hk|Hk].
      * simpl in Hk. apply elem_of_cons in Hk as [Hk|Hk]; [congruence | left; exact Hk].
      * right. rewrite get_set_target_ne by congruence. exact Hk.
Qed.

Lemma fold_set_target_NoDup {A : Type} (f : A -> string) (g : A -> N) (l : list A)
    (m : list (string * N)) :
  NoDup (map fst m) ->
  NoDup (map fst (fold_left (fun acc a => set_target acc (f a) (g a)) l m)).
Proof.
  revert m. induction l as [|a l IH]; intros m Hm; simpl; [exact Hm|].
  apply IH, set_target_NoDup, Hm.
Qed.

Lemma loaded_rows_fold (rows : list MonthlyTargetInput) (m : list (string * N))
    (k : string) :
  get_target
    (fold_left
       (fun targetsMap t =>
          set_target targetsMap (category_id t) (or_zero (parseFloat (target_value t))))
       rows m) k
  = match last (List.filter (fun t => String.eqb (category_id t) k) rows) with
    | Some t => Some (or_zero (parseFloat (target_value t)))
    | None => get_target m k
    end.
Proof.
  revert m. induction rows as [|t rows IH]; intros m; simpl; [reflexivity|].
  rewrite IH. destruct (String.eqb (category_id t) k) eqn:E.
  - apply String.eqb_eq in E. subst k. rewrite last_cons.
    destruct (last _); [reflexivity | apply get_set_target_eq].
  - apply String.eqb_neq in E.
    destruct (last _); [reflexivity|]. apply get_set_target_ne. congruence.
Qed.

(** X7. For any numbers: after [loadPeriodData] every category of the shop
    has exactly one target: the number of the last row that the server holds
    for it, and 0 when the server holds none. *)
Theorem loadShopTargets_every_category (categories : list Category)
    (targets : option (list MonthlyTargetInput)) (cat : Category) :
  cat ∈ categories ->
  get_target (loadShopTargets parseFloat categories targets) (cat_id cat)
  = Some match last (List.filter (fun t => String.eqb (category_id t) (cat_id cat))
                       (default [] targets)) with
         | Some t => or_zero (parseFloat (target_value t))
         | None => zero
         end
  /\ NoDup (map fst (loadShopTargets parseFloat categories targets)).
Proof.
  intros Hcat. unfold loadShopTargets. split.
  - rewrite loaded_rows_fold. destruct (last _); [reflexivity|].
    apply zeroTargets_fold. left. apply (list_elem_of_fmap_2 cat_id), Hcat.
  - apply (fold_set_target_NoDup category_id
             (fun t => or_zero (parseFloat (target_value t)))).
    apply (fold_set_target_NoDup cat_id (fun _ => zero)). constructor.
Qed.

End LoadedTargets.

Lemma loadShopTargets_example :
  let categories := [ {| cat_id := "mnp"; cat_name := "MNP" |};
                      {| cat_id := "fixed"; cat_name := "FIXED" |} ] in
  let targets := Some [ {| category_id := "mnp"; target_value := "120.00" |} ] in
  {| cat_id := "fixed"; cat_name := "FIXED" |} ∈ categories
  /\ get_target (loadShopTargets F_parseFloat categories targets) "fixed"
     = Some PrimFloat.zero
  /\ get_target (loadShopTargets F_parseFloat categories targets) "mnp"
     = Some (round_Q 120).
Proof.
  intros categories targets.
  assert (Hin : {| cat_id := "fixed"; cat_name := "FIXED" |} ∈ categories)
    by (right; left).
  split; [exact Hin|]. split.
  - exact (proj1 (loadShopTargets_every_category F_parseFloat categories targets _ Hin)).
  - reflexivity.
Defined.

(** ** The weekly distribution that is loaded *)

Local Open Scope Q_scope.

(** X8. For exact arithmetic: [loadPeriodData] sets one percentage per week
    of the period; when the server holds no distribution (a null answer or
    an empty list) and the period has weeks, the percentages are equal and
    add up to 100. *)
Theorem loadWeeklyPercentages_default (parseFloat : string -> Q)
    (periodWeeks : list PeriodWeek)
    (distribution : option (list WeeklyDistributionInput)) :
  periodWeeks <> [] ->
  length (loadWeeklyPercentages parseFloat periodWeeks distribution)
  = length periodWeeks
  /\ (distribution = None \/ distribution = Some [] ->
      loadWeeklyPercentages parseFloat periodWeeks distribution
      = map (fun _ => 100 / inject_Z (Z.of_nat (length periodWeeks))) periodWeeks
      /\ sum (loadWeeklyPercentages parseFloat periodWeeks distribution) == 100).
Proof.
  intros Hweeks. split.
  - destruct distribution as [[|row rows]|]; simpl;
      [apply length_map | apply length_imap | apply length_map].
  - assert (Hlen : (0 < length periodWeeks)%nat)
      by (destruct periodWeeks; [congruence | simpl; lia]).
    intros Hnone.
    assert (Heq : loadWeeklyPercentages parseFloat periodWeeks distribution
                  = map (fun _ => 100 / inject_Z (Z.of_nat (length periodWeeks)))
                        periodWeeks).
    { destruct Hnone as [-> | ->]; unfold loadWeeklyPercentages;
        apply Nat.ltb_lt in Hlen; rewrite Hlen; reflexivity. }
    split; [exact Heq|]. rewrite Heq, sum_Qsum.
    transitivity (inject_Z (Z.of_nat (length periodWeeks))
                  * (100 / inject_Z (Z.of_nat (length periodWeeks)))).
    + clear. induction periodWeeks as [|w l IH]; [reflexivity|].
      cbn [map Qsum fold_right length].
      fold (Qsum (map (fun _ : PeriodWeek => 100 / inject_Z (Z.of_nat (S (length l)))) l)).
      assert (Hrest : forall c, Qsum (map (fun _ : PeriodWeek => c) l)
                                == inject_Z (Z.of_nat (length l)) * c).
      { intros c. clear. induction l as [|w l IH]; [cbn; ring|].
        cbn [map Qsum fold_right length]. fold (Qsum (map (fun _ : PeriodWeek => c) l)).
        rewrite IH, !Nat2Z.inj_succ. unfold Z.succ. rewrite !inject_Z_plus. ring. }
      rewrite Hrest, !Nat2Z.inj_succ. unfold Z.succ. rewrite !inject_Z_plus. ring.
    + field. intros E. unfold Qeq in E. simpl in E. lia.
Qed.

Lemma loadWeeklyPercentages_default_example :
  Examples.fourWeeks <> []
  /\ loadWeeklyPercentages (fun _ => 0) Examples.fourWeeks None
     = map (fun _ => 100 / 4) Examples.fourWeeks
  /\ sum (loadWeeklyPercentages (fun _ => 0) Examples.fourWeeks None) == 100.
Proof.
  assert (Hweeks : Examples.fourWeeks <> []) by discriminate.
  split; [exact Hweeks|].
  exact (proj2 (loadWeeklyPercentages_default (fun _ => 0) Examples.fourWeeks None
                  Hweeks) (or_introl eq_refl)).
Defined.

Lemma find_week_index (f : Q -> string) (rounded : list Q) (k idx : nat) :
  List.find (fun d => (week_index d =? k + idx + 1)%nat)
    (imap (fun i p => {| week_index := k + i + 1; percentage := f p |}) rounded)
  = (fun p => {| week_index := k + idx + 1; percentage := f p |}) <$> rounded !! idx.
Proof.
  revert k idx. induction rounded as [|p l IH]; intros k idx; [reflexivity|].
  cbn [imap List.find week_index]. destruct idx as [|idx].
  - replace (k + 0 + 1 =? k + 0 + 1)%nat with true by (symmetry; apply Nat.eqb_refl).
    reflexivity.
  - replace (k + 0 + 1 =? k + S idx + 1)%nat with false
      by (symmetry; apply Nat.eqb_neq; lia).
    rewrite (imap_ext _ (fun i p => {| week_index := S k + i + 1; percentage := f p |}) l).
    2:{ intros i x _. unfold compose. f_equal. lia. }
    replace (k + S idx + 1)%nat with (S k + idx + 1)%nat by lia.
    rewrite IH. reflexivity.
Qed.

Lemma Qsum_Forall2 (l : list Q) (ks : list Z) :
  Forall2 (fun x k => x == inject_Z k / 100) l ks ->
  Qsum l == inject_Z (Zsum ks) / 100.
Proof.
  intros Hall. rewrite <- Qsum_hundredths.
  induction Hall as [|x k l ks Hx _ IH]; [reflexivity|].
  cbn [map Qsum fold_right]. fold (Qsum l).
  fold (Qsum (map (fun k => inject_Z k / 100) ks)). rewrite Hx, IH. reflexivity.
Qed.

(** X9. For exact arithmetic, and a [parseFloat] that reads a decimal with
    two fractional digits as the number it denotes: when the distribution
    that [handleSaveTargets] sends for a period is what [loadPeriodData]
    receives for it later, the percentages in the state add up to exactly
    100, so that step 2 shows the total in emerald and lets the user go
    on. *)
Theorem saved_distribution_reloads (parseFloat : string -> Q)
    (periodWeeks : list PeriodWeek) (weeklyPercentages : list Q) :
  (forall s c, fixed2_value s = Some c -> parseFloat s == inject_Z c / 100) ->
  weeklyPercentages <> [] ->
  length periodWeeks = length weeklyPercentages ->
  let loaded :=
    loadWeeklyPercentages parseFloat periodWeeks
      (Some (weeklyDistributionItems weeklyPercentages)) in
  length loaded = length weeklyPercentages
  /\ sum loaded == 100
  /\ renderWeeklyDistribution loaded
     = {| totalInEmerald := true; autoBalanceOffered := false; nextDisabled := false |}.
Proof.
  intros Hparse Hne Hweeks loaded.
  destruct (saved_distribution_values weeklyPercentages Hne) as (cents & Hvals & Hlen & Hsum).
  pose proof (length_roundedPercentages weeklyPercentages) as Hrounded.
  assert (Hloaded : loaded
                    = imap (fun idx _ =>
                              match (fun p => {| week_index := idx + 1;
                                                 percentage := toFixed2 p |})
                                    <$> roundedPercentages weeklyPercentages !! idx with
                              | Some found => parseFloat (percentage found)
                              | None => zero
                              end) periodWeeks).
  { unfold loaded, weeklyDistributionItems.
    destruct (roundedPercentages weeklyPercentages) as [|p rounded].
    { destruct weeklyPercentages; [congruence | discriminate]. }
    unfold loadWeeklyPercentages. cbn [imap]. apply imap_ext. intros idx w _.
    match goal with
    | |- context [List.find ?g ?l] =>
        change (List.find g l)
          with (List.find (fun d => (week_index d =? 0 + idx + 1)%nat)
                  (imap (fun i p => {| week_index := 0 + i + 1;
                                       percentage := toFixed2 p |})
                        (p :: rounded)))
    end.
    rewrite find_week_index. reflexivity. }
  assert (Hall : Forall2 (fun x k => x == inject_Z k / 100) loaded cents).
  { apply Forall2_same_length_lookup_2.
    - rewrite Hloaded, length_imap. lia.
    - intros i x k Hx Hk. rewrite Hloaded, list_lookup_imap in Hx.
      destruct (periodWeeks !! i) as [w|] eqn:Hw; [|discriminate].
      injection Hx as <-.
      assert (Hval : (map (fun item => fixed2_value (percentage item))
                        (weeklyDistributionItems weeklyPercentages)) !! i = Some (Some k)).
      { rewrite Hvals. change (map Some cents) with (Some <$> cents).
        rewrite list_lookup_fmap, Hk. reflexivity. }
      change (map ?f ?l) with (f <$> l) in Hval. rewrite list_lookup_fmap in Hval.
      unfold weeklyDistributionItems in Hval. rewrite list_lookup_imap in Hval.
      destruct (roundedPercentages weeklyPercentages !! i) as [p|]; [|discriminate].
      cbn in Hval |- *. injection Hval as Hval. apply Hparse, Hval. }
  assert (Htotal : sum loaded == 100).
  { rewrite sum_Qsum, (Qsum_Forall2 _ _ Hall), Hsum. reflexivity. }
  split; [|split; [exact Htotal|]].
  - rewrite Hloaded, length_imap. exact Hweeks.
  - unfold renderWeeklyDistribution, hundred. exact_ops.
    assert (Ha : Qabs (sum loaded - 100) == 0) by (rewrite Htotal; reflexivity).
    assert (H1 : Q_ltb (Qabs (sum loaded - 100)) (1 # 2) = true)
      by (apply Q_ltb_lt; rewrite Ha; reflexivity).
    assert (H2 : Q_ltb (1 # 2) (Qabs (sum loaded - 100)) = false)
      by (apply Q_ltb_ge; rewrite Ha; discriminate).
    rewrite H1, H2. reflexivity.
Qed.

Lemma saved_distribution_reloads_example :
  let parseFloat := fun s => match fixed2_value s with
                             | Some c => inject_Z c / 100
                             | None => 0
                             end in
  let loaded :=
    loadWeeklyPercentages parseFloat Examples.fourWeeks
      (Some (weeklyDistributionItems [33; 33; 33; 1 # 3])) in
  map percentage (weeklyDistributionItems [33; 33; 33; 1 # 3])
  = ["33.00"; "33.00"; "33.00"; "1.00"]%string
  /\ length loaded = 4%nat
  /\ sum loaded == 100.
Proof.
  intros parseFloat loaded. split; [reflexivity|].
  assert (Hparse : forall s c, fixed2_value s = Some c ->
                     parseFloat s == inject_Z c / 100).
  { intros s c Hs. unfold parseFloat. rewrite Hs. reflexivity. }
  destruct (saved_distribution_reloads parseFloat Examples.fourWeeks
              [33; 33; 33; 1 # 3] Hparse ltac:(discriminate) eq_refl)
    as (Hlen & Hsum & _).
  split; [exact Hlen | exact Hsum].
Defined.

(** ** The role weights that are loaded *)

Local Open Scope Q_scope.

Lemma fold_insert_lookup {V : Type} (f : list RoleWeightInput -> V)
    (answers : list (list RoleWeightInput)) (k : nat) (m : gmap nat V) (w : nat) :
  fold_left (fun weights '(i, weekWeights) => <[S i := f weekWeights]> weights)
    (imap (fun i weekWeights => ((k + i)%nat, weekWeights)) answers) m !! w
  = match (if decide (S k <= w)%nat then answers !! (w - S k)%nat else None) with
    | Some weekWeights => Some (f weekWeights)
    | None => m !! w
    end.
Proof.
  revert k m. induction answers as [|rows answers IH]; intros k m.
  - cbn [imap fold_left]. destruct (decide _); reflexivity.
  - cbn [imap fold_left].
    rewrite (imap_ext _ (fun i weekWeights => ((S k + i)%nat, weekWeights)) answers).
    2:{ intros i x _. unfold compose. f_equal. lia. }
    rewrite IH. replace (k + 0)%nat with k by lia.
    destruct (decide (S (S k) <= w)%nat) as [Hw|Hw].
    + destruct (decide (S k <= w)%nat) as [_|Hw']; [|lia].
      replace (w - S k)%nat with (S (w - S (S k))) by lia. cbn [lookup list_lookup].
      destruct (answers !! _); [reflexivity|]. apply lookup_insert_ne. lia.
    + destruct (decide (S k <= w)%nat) as [Hw'|Hw'].
      * replace w with (S k) by lia. replace (S k - S k)%nat with 0%nat by lia.
        cbn [lookup list_lookup]. apply lookup_insert_eq.
      * apply lookup_insert_ne. lia.
Qed.

(** X10. For exact arithmetic: for a week for which the server holds no
    role weights (or for which the request failed), [loadPeriodData] puts
    the default weights of the team into the state: nothing for owners and
    managers, and junior and senior weights that add up to 100. *)
Theorem loadRoleWeights_defaults (parseFloat : string -> Q) (members : list ShopMember)
    (answers : list (list RoleWeightInput)) (week : nat) :
  answers !! week = Some [] ->
  exists weights junior senior,
    loadRoleWeights parseFloat members answers !! S week = Some weights
    /\ weights = defaultWeights members
    /\ weights owner = Some 0
    /\ weights manager = Some 0
    /\ weights sales_junior = Some junior
    /\ weights sales_senior = Some senior
    /\ junior + senior == 100.
Proof.
  intros Hweek.
  assert (Hload : loadRoleWeights parseFloat members answers !! S week
                  = Some (defaultWeights members)).
  { unfold loadRoleWeights. etransitivity.
    - exact (fold_insert_lookup
               (fun weekWeights =>
                  fold_left
                    (fun w row =>
                       set_role (weight_role row)
                         (or_zero (parseFloat (weight_percentage row))) w)
                    weekWeights (defaultWeights members))
               answers 0 ∅ (S week)).
    - destruct (decide (1 <= S week)%nat) as [_|Hw]; [|lia].
      replace (S week - 1)%nat with week by lia. rewrite Hweek. reflexivity. }
  rewrite Hload.
  unfold defaultWeights.
  destruct ((0 <? count_role sales_junior members)%nat
            && (count_role sales_senior members =? 0)%nat);
    [|destruct ((0 <? count_role sales_senior members)%nat
                && (count_role sales_junior members =? 0)%nat)];
    eexists; eexists; eexists; repeat split; reflexivity.
Qed.

Lemma loadRoleWeights_defaults_example :
  exists weights,
    loadRoleWeights (fun _ => 0) [Examples.ana; Examples.ben]
      [Examples.walkthroughWeek1; []] !! 2%nat = Some weights
    /\ weights sales_junior = Some 40
    /\ weights sales_senior = Some 60.
Proof.
  destruct (loadRoleWeights_defaults (fun _ => 0) [Examples.ana; Examples.ben]
              [Examples.walkthroughWeek1; []] 1 eq_refl)
    as (weights & junior & senior & Hload & Hdefault & _).
  exists weights. split; [exact Hload|]. rewrite Hdefault. split; reflexivity.
Defined.

(** ** Role weights: what a change leaves alone *)

Local Open Scope Z_scope.

(** X11. For any numbers: a change of the junior or senior weight of one
    week leaves the records of all other weeks as they are, and in the
    record of the week itself the owner and manager weights are the ones it
    had (none, when the week had no record yet). *)
Theorem handleRoleWeightChange_scope {N : Type} `{JsNumber N}
    (prev : gmap nat (@RoleRecord N)) (weekIndex : nat) (role : Role) (value : N) :
  role = sales_junior \/ role = sales_senior ->
  (forall other, other <> weekIndex ->
     handleRoleWeightChange prev weekIndex role value !! other = prev !! other)
  /\ exists weights,
       handleRoleWeightChange prev weekIndex role value !! weekIndex = Some weights
       /\ weights owner = prev !! weekIndex ≫= (fun w => w owner)
       /\ weights manager = prev !! weekIndex ≫= (fun w => w manager).
Proof.
  intros Hrole. unfold handleRoleWeightChange. split.
  - intros other Hne. apply lookup_insert_ne. congruence.
  - eexists. split; [apply lookup_insert_eq|].
    destruct Hrole as [-> | ->]; destruct (prev !! weekIndex); split; reflexivity.
Qed.

Lemma handleRoleWeightChange_scope_example :
  let prev : gmap nat (@RoleRecord Q) :=
    {[ 1%nat := role_record 0%Q 0%Q 40%Q 60%Q; 2%nat := role_record 5%Q 5%Q 30%Q 60%Q ]} in
  handleRoleWeightChange prev 2 sales_junior 70%Q !! 1%nat = prev !! 1%nat
  /\ exists weights,
       handleRoleWeightChange prev 2 sales_junior 70%Q !! 2%nat = Some weights
       /\ weights owner = Some 5%Q /\ weights manager = Some 5%Q.
Proof.
  intros prev.
  destruct (handleRoleWeightChange_scope prev 2 sales_junior 70%Q (or_introl eq_refl))
    as [Hother (weights & Hweek & Ho & Hm)].
  split; [apply Hother; discriminate|].
  exists weights. split; [exact Hweek|]. split; [exact Ho | exact Hm].
Defined.

(** ** The panels of step 3 *)

(** X12. For exact arithmetic: step 3 of the wizard draws exactly one of
    the sliders, the summary and the warning about missing sales staff. The
    note about the automatic assignment goes with the summary, and the role
    that the summary names is the role to which [handleSaveTargets] sends
    100.00 for every week, whatever role weights the state holds. *)
Theorem renderRoleWeights_one_panel (members : list ShopMember)
    (roleWeights : gmap nat (@RoleRecord Q)) (weekIndex : nat) :
  let step := renderRoleWeights members in
  (sliders step = true /\ summary step = None /\ noStaffWarning step = false
   /\ autoAssignedInfo step = false)
  \/ (sliders step = false /\ noStaffWarning step = false
      /\ autoAssignedInfo step = true
      /\ ((summary step = Some sales_junior
           /\ roleWeightItems members roleWeights weekIndex
              = [ {| weight_role := sales_junior; weight_percentage := "100.00" |};
                  {| weight_role := sales_senior; weight_percentage := "0.00" |} ])
          \/ (summary step = Some sales_senior
              /\ roleWeightItems members roleWeights weekIndex
                 = [ {| weight_role := sales_junior; weight_percentage := "0.00" |};
                     {| weight_role := sales_senior; weight_percentage := "100.00" |} ])))
  \/ (sliders step = false /\ summary step = None /\ noStaffWarning step = true
      /\ autoAssignedInfo step = false).
Proof.
  unfold renderRoleWeights, teamComposition, roleWeightItems.
  cbn [sliders summary noStaffWarning autoAssignedInfo hasOnlyJuniors hasOnlySeniors
       hasNoSalesStaff hasBothRoles].
  destruct (count_role sales_junior members) as [|j];
    destruct (count_role sales_senior members) as [|s]; cbn [Nat.ltb Nat.leb Nat.eqb andb orb negb].
  - right. right. auto.
  - right. left. repeat split. right. split; reflexivity.
  - right. left. repeat split. left. split; reflexivity.
  - left. auto.
Qed.

(** ** The outcome of a save *)

Lemma forallb_delete_fulfilled (pending : list (ApiCall * bool)) (i : nat)
    (call : ApiCall) :
  pending !! i = Some (call, true) ->
  forallb snd (delete i pending) = forallb snd pending.
Proof.
  revert i. induction pending as [|[c o] pending IH]; intros i Hi; [discriminate|].
  destruct i as [|i]; simpl in *.
  - injection Hi as -> ->. reflexivity.
  - rewrite (IH i Hi). reflexivity.
Qed.

Lemma forallb_lookup_rejected (pending : list (ApiCall * bool)) (i : nat)
    (call : ApiCall) :
  pending !! i = Some (call, false) -> forallb snd pending = false.
Proof.
  revert i. induction pending as [|[c o] pending IH]; intros i Hi; [discriminate|].
  destruct i as [|i]; simpl in *.
  - injection Hi as -> ->. reflexivity.
  - rewrite (IH i Hi). apply andb_false_r.
Qed.

Lemma await_all_result (n : nat) :
  forall (pending : list (ApiCall * bool)) (sched : nat -> nat) (step : nat),
    (length pending <= n)%nat ->
    (await_all n pending sched step).2 = forallb snd pending
    /\ Forall (fun e => exists call fulfilled, e = Settle call fulfilled)
              (await_all n pending sched step).1.
Proof.
  induction n as [|n IH]; intros pending sched step Hlen.
  - destruct pending; [split; [reflexivity | constructor] | simpl in Hlen; lia].
  - simpl.
    destruct (pending !! (sched step mod length pending)%nat) as [[call [|]]|] eqn:Hi.
    + assert (Hlen' : (length (delete (sched step mod length pending)%nat pending)
                       <= n)%nat).
      { rewrite length_delete; [lia | eauto]. }
      destruct (IH _ sched (S step) Hlen') as [Hres Hev].
      destruct (await_all n _ sched (S step)) as [events all]. simpl in *.
      rewrite Hres, (forallb_delete_fulfilled _ _ _ Hi). split; [reflexivity|].
      constructor; eauto.
    + simpl. rewrite (forallb_lookup_rejected _ _ _ Hi). split; [reflexivity|].
      repeat constructor. eauto.
    + apply lookup_ge_None in Hi. destruct pending as [|p pending].
      * split; [reflexivity | constructor].
      * pose proof (Nat.mod_upper_bound (sched step) (length (p :: pending))
                      ltac:(simpl; lia)). lia.
Qed.

Lemma forallb_outcomes (writes : list ApiCall) (outcome : nat -> bool) (k : nat) :
  forallb snd (imap (fun i call => (call, outcome (k + i)%nat)) writes) = true
  <-> forall i, (i < length writes)%nat -> outcome (k + i)%nat = true.
Proof.
  revert k. induction writes as [|w writes IH]; intros k; simpl.
  - split; [intros _ i Hi; lia | reflexivity].
  - rewrite andb_true_iff.
    rewrite (imap_ext _ (fun i call => (call, outcome (S k + i)%nat)) writes).
    2:{ intros i x _. unfold compose. do 2 f_equal. lia. }
    rewrite IH. split.
    + intros [H0 Hrest] [|i] Hi; [exact H0|].
      replace (k + S i)%nat with (S k + i)%nat by lia. apply Hrest. lia.
    + intros Hall. split; [apply Hall; lia|].
      intros i Hi. replace (S k + i)%nat with (k + S i)%nat by lia. apply Hall. lia.
Qed.

(** X13. For any numbers: a save returns to the overview exactly when every
    configuration write and the recomputation succeed, and it reports an
    error exactly when one of them fails; in both cases the first step sets
    the saving flag and the last step clears it. The writes are the requests
    number 0 to [length writes - 1], the recomputation is the request after
    them. *)
Theorem handleSaveTargets_outcome {N : Type} `{JsNumber N} (st : @State N)
    (period : PeriodSummary) (outcome : nat -> bool) (sched : nat -> nat) :
  selectedPeriod st = Some period ->
  let trace := handleSaveTargets st outcome sched in
  let requests := length (configurationWrites st period) in
  (setView overview ∈ trace <-> forall i, (i <= requests)%nat -> outcome i = true)
  /\ (setLocalError true ∈ trace
      <-> exists i, (i <= requests)%nat /\ outcome i = false)
  /\ head trace = Some (setSaving true)
  /\ last trace = Some (setSaving false).
Proof.
  intros Hperiod trace requests. subst trace. unfold handleSaveTargets.
  rewrite Hperiod. fold requests.
  set (writes := configurationWrites st period) in *.
  set (pending := imap (fun i call => (call, outcome i)) writes).
  assert (Hpl : length pending = requests) by apply length_imap.
  destruct (await_all_result (length pending) pending sched 0 (le_n _)) as [Hres Hev].
  destruct (await_all (length pending) pending sched 0) as [settled saved].
  simpl in Hres, Hev.
  assert (Hsaved : saved = true <-> forall i, (i < requests)%nat -> outcome i = true).
  { rewrite Hres. apply (forallb_outcomes writes outcome 0). }
  assert (Hsettled : forall e, e ∈ settled -> exists call fulfilled, e = Settle call fulfilled).
  { intros e He. rewrite Forall_forall in Hev. apply Hev, He. }
  assert (Hinv : forall e, e ∈ map Invoke writes -> exists call, e = Invoke call).
  { intros e He. apply list_elem_of_fmap_1 in He as (call & -> & _). eauto. }
  set (recomputed := outcome requests).
  assert (Hall : (saved = true /\ recomputed = true)
                 <-> forall i, (i <= requests)%nat -> outcome i = true).
  { rewrite Hsaved. split.
    - intros [Hw Hr] i Hi. destruct (decide (i = requests)) as [->|Hne];
        [exact Hr | apply Hw; lia].
    - intros Ho. split; [intros i Hi; apply Ho; lia | apply Ho; lia]. }
  assert (Hsome : (saved = false \/ recomputed = false)
                  <-> exists i, (i <= requests)%nat /\ outcome i = false).
  { split.
    - intros [Hs|Hr].
      + destruct (forallb snd pending) eqn:Hf; [congruence|].
        assert (Hex : ~ forall i, (i < requests)%nat -> outcome i = true).
        { intros Ho. apply Hsaved in Ho. congruence. }
        clear - Hex. induction requests as [|r IH].
        * exfalso. apply Hex. intros i Hi. lia.
        * destruct (outcome r) eqn:Hr; [|exists r; split; [lia | exact Hr]].
          destruct IH as (i & Hi & Ho).
          { intros Ho. apply Hex. intros i Hi.
            destruct (decide (i = r)) as [->|Hne]; [exact Hr | apply Ho; lia]. }
          exists i. split; [lia | exact Ho].
      + exists requests. split; [lia | exact Hr].
    - intros (i & Hi & Ho). destruct saved eqn:Hs; [|left; reflexivity].
      right. destruct (decide (i = requests)) as [->|Hne]; [exact Ho|].
      assert (outcome i = true) by (apply Hsaved; [reflexivity | lia]). congruence. }
  match goal with
  | |- context [settled ++ ?t ++ [setSaving false]] => set (tail := t)
  end.
  assert (Hmem : forall e, e = setView overview \/ e = setLocalError true ->
                 e ∈ [setSaving true; setLocalError false] ++ map Invoke writes
                     ++ settled ++ tail ++ [setSaving false]
                 <-> e ∈ tail).
  { intros e He. rewrite !elem_of_app. split; [|auto].
    intros [Hin|[Hin|[Hin|[Hin|Hin]]]]; [| | |exact Hin|].
    - apply elem_of_cons in Hin as [->|Hin]; [destruct He; discriminate|].
      apply list_elem_of_singleton in Hin as ->. destruct He; discriminate.
    - apply Hinv in Hin as (call & ->). destruct He; discriminate.
    - apply Hsettled in Hin as (call & fulfilled & ->). destruct He; discriminate.
    - apply list_elem_of_singleton in Hin as ->. destruct He; discriminate. }
  split; [|split; [|split]].
  - rewrite (Hmem _ (or_introl eq_refl)), <- Hall. subst tail.
    destruct saved, recomputed; split; intros Hin;
      first [ solve [intuition congruence]
            | solve [repeat constructor]
            | solve [exfalso;
                     repeat (apply elem_of_cons in Hin as [Hin|Hin]; [discriminate|]);
                     inversion Hin] ].
  - rewrite (Hmem _ (or_intror eq_refl)), <- Hsome. subst tail.
    destruct saved, recomputed; split; intros Hin;
      first [ solve [intuition congruence]
            | solve [repeat constructor]
            | solve [exfalso;
                     repeat (apply elem_of_cons in Hin as [Hin|Hin]; [discriminate|]);
                     inversion Hin] ].
  - reflexivity.
  - rewrite !app_assoc. apply last_snoc.
Qed.

Lemma handleSaveTargets_outcome_example :
  let trace := handleSaveTargets Examples.wizard (fun i => negb (i =? 6)%nat) (fun _ => 0%nat) in
  setLocalError true ∈ trace
  /\ ~ setView overview ∈ trace
  /\ last trace = Some (setSaving false).
Proof.
  intros trace.
  destruct (handleSaveTargets_outcome Examples.wizard Examples.december
              (fun i => negb (i =? 6)%nat) (fun _ => 0%nat) eq_refl)
    as (Hview & Herror & _ & Hlast).
  split; [|split; [|exact Hlast]].
  - apply (proj2 Herror). exists 6%nat. split; [vm_compute; lia | reflexivity].
  - intros Hin. pose proof (proj1 Hview Hin 6%nat ltac:(vm_compute; lia)) as Hsix.
    discriminate.
Defined.

(** ** Months and the history tab *)

Local Open Scope Z_scope.

(** X14. The arrows of the month selector move by exactly one month, keep
    the month between 1 and 12, and undo each other. *)
Theorem month_navigation (selectedYear selectedMonth : Z) :
  1 <= selectedMonth <= 12 ->
  let previous := handlePrevMonth selectedYear selectedMonth in
  let next := handleNextMonth selectedYear selectedMonth in
  1 <= previous.2 <= 12
  /\ previous.1 * 12 + previous.2 = selectedYear * 12 + selectedMonth - 1
  /\ 1 <= next.2 <= 12
  /\ next.1 * 12 + next.2 = selectedYear * 12 + selectedMonth + 1
  /\ handleNextMonth previous.1 previous.2 = (selectedYear, selectedMonth)
  /\ handlePrevMonth next.1 next.2 = (selectedYear, selectedMonth).
Proof.
  intros Hmonth. unfold handlePrevMonth, handleNextMonth. cbv zeta.
  destruct (Z.eqb_spec selectedMonth 1) as [E1|E1];
    destruct (Z.eqb_spec selectedMonth 12) as [E12|E12]; cbn [fst snd].
  - lia.
  - subst selectedMonth. cbn. repeat split; try lia; f_equal; lia.
  - subst selectedMonth. cbn. repeat split; try lia; f_equal; lia.
  - assert (H1 : (selectedMonth - 1 =? 12) = false) by (apply Z.eqb_neq; lia).
    assert (H2 : (selectedMonth + 1 =? 1) = false) by (apply Z.eqb_neq; lia).
    rewrite H1, H2. repeat split; try lia; f_equal; lia.
Qed.

Lemma month_navigation_example :
  handlePrevMonth 2026 1 = (2025, 12)
  /\ handleNextMonth 2025 12 = (2026, 1)
  /\ handleNextMonth (handlePrevMonth 2026 1).1 (handlePrevMonth 2026 1).2 = (2026, 1).
Proof.
  split; [reflexivity|]. split; [reflexivity|].
  exact (proj1 (proj2 (proj2 (proj2 (proj2 (month_navigation 2026 1 ltac:(lia))))))).
Defined.

(** X15. The history tab lists exactly the periods of the months before the
    current one, and, for users who are not managers, only the published
    ones among them. *)
Theorem historyPeriods_past (isManager : bool) (currentYear currentMonth : Z)
    (periods : list PeriodSummary) (p : PeriodSummary) :
  p ∈ historyPeriods currentYear currentMonth (visiblePeriods isManager periods)
  <-> p ∈ periods
      /\ (isManager = false -> status p = published)
      /\ (year p < currentYear
          \/ (year p = currentYear /\ month p < currentMonth)).
Proof.
  unfold historyPeriods, visiblePeriods.
  rewrite list_elem_of_In, filter_In.
  assert (Hpast : (if year p <? currentYear then true
                   else if (year p =? currentYear) && (month p <? currentMonth)
                        then true else false) = true
                  <-> year p < currentYear
                      \/ (year p = currentYear /\ month p < currentMonth)).
  { destruct (year p <? currentYear) eqn:E1;
      [apply Z.ltb_lt in E1 | apply Z.ltb_ge in E1].
    - split; [left; exact E1 | reflexivity].
    - destruct (year p =? currentYear) eqn:E2;
        [apply Z.eqb_eq in E2 | apply Z.eqb_neq in E2]; cbn [andb].
      + destruct (month p <? currentMonth) eqn:E3;
          [apply Z.ltb_lt in E3 | apply Z.ltb_ge in E3].
        * split; [right; split; assumption | reflexivity].
        * split; [discriminate | lia].
      + split; [discriminate | lia]. }
  rewrite Hpast. destruct isManager.
  - rewrite <- list_elem_of_In. split; [intros [? ?] | intros (? & _ & ?)]; auto.
    split; [assumption|]. split; [discriminate | assumption].
  - rewrite filter_In, <- list_elem_of_In.
    assert (Hpub : Status_eqb (status p) published = true <-> status p = published)
      by (destruct (status p); split; (reflexivity || discriminate)).
    rewrite Hpub. split.
    + intros [[? ?] ?]. auto.
    + intros (? & Hs & ?). auto.
Qed.

(** X16. The cards of the history tab are the history periods, each once,
    drawn from the latest month to the earliest. *)
Theorem historyCards_latest_first (historyPeriods : list PeriodSummary) :
  historyCards historyPeriods ≡ₚ historyPeriods
  /\ StronglySorted
       (fun a b => year b < year a \/ (year a = year b /\ month b <= month a))
       (historyCards historyPeriods).
Proof.
  split; [apply Array_sort_perm|].
  apply Array_sort_sorted.
  - intros x y. destruct (year x =? year y) eqn:E;
      [apply Z.eqb_eq in E | apply Z.eqb_neq in E]; cbn [negb];
      intros Hb%Z.ltb_lt; lia.
  - intros x y. destruct (year x =? year y) eqn:E;
      [apply Z.eqb_eq in E | apply Z.eqb_neq in E]; cbn [negb];
      intros Hb%Z.ltb_ge; lia.
  - intros x y z. lia.
Qed.

(** * Further properties of the leaderboard page *)

(** X17. For a date in the months 0 to 11: the range of every preset has
    months between 1 and 12 and covers one month ("This Month", "Last
    Month", and the initial custom range), three months ("Last 3 Months")
    or the months of the year so far ("Year to Date"); it ends in the
    current month, except for "Last Month", which ends the month before. *)
Theorem getPresetDateRange_span (preset : PresetRange) (nowYear nowMonth : Z) :
  0 <= nowMonth <= 11 ->
  let range := getPresetDateRange preset nowYear nowMonth in
  let first := startYear range * 12 + startMonth range in
  let last := endYear range * 12 + endMonth range in
  let today := nowYear * 12 + (nowMonth + 1) in
  1 <= startMonth range <= 12
  /\ 1 <= endMonth range <= 12
  /\ last = match preset with last_month => today - 1 | _ => today end
  /\ last - first + 1
     = match preset with
       | last_3_months => 3
       | year_to_date => nowMonth + 1
       | _ => 1
       end.
Proof.
  intros Hmonth. destruct preset; cbn -[Z.mul Z.add Z.sub Z.eqb Z.leb].
  - lia.
  - destruct (nowMonth + 1 =? 1) eqn:E;
      [apply Z.eqb_eq in E | apply Z.eqb_neq in E]; lia.
  - destruct (nowMonth + 1 - 2 <=? 0) eqn:E;
      [apply Z.leb_le in E | apply Z.leb_gt in E];
      cbn -[Z.mul Z.add Z.sub]; lia.
  - lia.
  - lia.
Qed.

Lemma getPresetDateRange_span_example :
  getPresetDateRange last_3_months 2026 0
  = {| startYear := 2025; startMonth := 11; endYear := 2026; endMonth := 1 |}
  /\ (2026 * 12 + 1) - (2025 * 12 + 11) + 1 = 3.
Proof.
  split; [reflexivity|].
  exact (proj2 (proj2 (proj2 (getPresetDateRange_span last_3_months 2026 0 ltac:(lia))))).
Defined.

(** X18. When the months of a range and of a period are between 1 and 12,
    the period is in [periodsInRange] exactly when its month lies between
    the first and the last month of the range, in the order of the
    calendar. *)
Theorem periodsInRange_calendar (periods : list PeriodSummary) (range : DateRange)
    (p : PeriodSummary) :
  1 <= month p <= 12 ->
  1 <= startMonth range <= 12 ->
  1 <= endMonth range <= 12 ->
  p ∈ periodsInRange periods range
  <-> p ∈ periods
      /\ (startYear range < year p
          \/ (startYear range = year p /\ startMonth range <= month p))
      /\ (year p < endYear range
          \/ (year p = endYear range /\ month p <= endMonth range)).
Proof.
  intros Hp Hs He. unfold periodsInRange.
  rewrite list_elem_of_In, filter_In, <- list_elem_of_In.
  cbv zeta. rewrite andb_true_iff, !Z.leb_le. split.
  - intros (Hin & H1 & H2). split; [exact Hin|]. split; lia.
  - intros (Hin & H1 & H2). split; [exact Hin|]. split; lia.
Qed.

Lemma periodsInRange_calendar_example :
  Examples.december
  ∈ periodsInRange [Examples.december] (getPresetDateRange last_3_months 2026 0).
Proof.
  apply (proj2 (periodsInRange_calendar [Examples.december]
                  (getPresetDateRange last_3_months 2026 0) Examples.december
                  ltac:(vm_compute; split; discriminate)
                  ltac:(vm_compute; split; discriminate)
                  ltac:(vm_compute; split; discriminate))).
  split; [left|].
  split; [right; split; [reflexivity | vm_compute; discriminate] | left; reflexivity].
Defined.

Lemma wrap_month_spec (fuel : nat) :
  forall month year,
    1 - month <= Z.of_nat fuel -> month <= 12 ->
    let '(m, y) := wrap_month fuel month year in
    1 <= m <= 12 /\ y * 12 + m = year * 12 + month.
Proof.
  induction fuel as [|fuel IH]; intros month year Hfuel Hmonth; simpl.
  - lia.
  - destruct (month <=? 0) eqn:E; [apply Z.leb_le in E | apply Z.leb_gt in E].
    + specialize (IH (month + 12) (year - 1) ltac:(lia) ltac:(lia)).
      destruct (wrap_month fuel (month + 12) (year - 1)) as [m y]. lia.
    + lia.
Qed.

(** X19. For a current month between 1 and 12, the custom picker offers 24
    months: option [i] is the month [i] months before the current one, with
    a month number between 1 and 12. *)
Theorem monthOptions_months (currentYear currentMonth : Z) (i : nat) :
  1 <= currentMonth <= 12 ->
  (i < 24)%nat ->
  length (monthOptions currentYear currentMonth) = 24%nat
  /\ exists y m,
       monthOptions currentYear currentMonth !! i = Some (y, m)
       /\ 1 <= m <= 12
       /\ y * 12 + m = currentYear * 12 + currentMonth - Z.of_nat i.
Proof.
  intros Hmonth Hi. unfold monthOptions. split; [reflexivity|].
  change (map ?f ?l) with (f <$> l).
  rewrite list_lookup_fmap, lookup_seq_lt by exact Hi. cbn [fmap option_fmap option_map Nat.add].
  pose proof (wrap_month_spec (Z.to_nat (1 - (currentMonth - Z.of_nat i)))
                (currentMonth - Z.of_nat i) currentYear ltac:(lia) ltac:(lia)) as Hw.
  destruct (wrap_month _ _ _) as [m y]. exists y, m. split; [reflexivity | lia].
Qed.

Lemma monthOptions_months_example :
  monthOptions 2026 2 !! 3%nat = Some (2025, 11)
  /\ exists y m,
       monthOptions 2026 2 !! 3%nat = Some (y, m)
       /\ 1 <= m <= 12 /\ y * 12 + m = 2026 * 12 + 2 - 3.
Proof.
  split; [reflexivity|].
  exact (proj2 (monthOptions_months 2026 2 3 ltac:(lia) ltac:(lia))).
Defined.

(** X20. The aggregation reads the progress of six periods at most: the
    seventh and later periods of a range never contribute, whatever progress
    has arrived. *)
Theorem allProgressData_six (isSingleMonth : bool) (periodIds : list string)
    (progressData : nat -> option WeeklyProgressResponse) :
  (length (allProgressData isSingleMonth periodIds progressData) <= 6)%nat
  /\ allProgressData isSingleMonth periodIds progressData
     = allProgressData isSingleMonth (take 6 periodIds) progressData
  /\ forall periodId data,
       (periodId, data) ∈ allProgressData isSingleMonth periodIds progressData ->
       exists k, (k < 6)%nat /\ periodIds !! k = Some periodId
                 /\ progressData k = Some data.
Proof.
  unfold allProgressData. destruct isSingleMonth.
  { split; [simpl; lia|]. split; [reflexivity|]. intros ? ? Hin. inversion Hin. }
  split; [|split].
  - cbn [seq flat_map].
    repeat match goal with
           | |- context [match ?a !! ?k with _ => _ end] => destruct (a !! k)
           | |- context [match progressData ?k with _ => _ end] =>
               destruct (progressData k)
           | |- context [if ?b then _ else _] => destruct b
           end; simpl; lia.
  - cbn [seq flat_map]. rewrite !lookup_take_lt by lia. reflexivity.
  - intros periodId data Hin. apply list_elem_of_In, in_flat_map in Hin as (k & Hk & Hin).
    apply in_seq in Hk. exists k. split; [lia|].
    destruct (periodIds !! k) as [pid|]; [|inversion Hin].
    destruct (progressData k) as [d|]; [|inversion Hin].
    destruct (String.eqb pid ""); [inversion Hin|].
    destruct Hin as [[= -> ->]|[]]. auto.
Qed.

(** ** The month selector *)

Local Open Scope Z_scope.

Lemma String_split_piece (sep : ascii) (s : list ascii) :
  forallb (fun c => negb (Ascii.eqb c sep)) s = true -> String_split sep s = [s].
Proof.
  induction s as [|c s IH]; [reflexivity|]. simpl.
  intros [Hc Hs]%andb_true_iff. apply negb_true_iff in Hc. rewrite Hc, (IH Hs).
  reflexivity.
Qed.

Lemma String_split_app (sep : ascii) (a b : list ascii) :
  forallb (fun c => negb (Ascii.eqb c sep)) a = true ->
  String_split sep (a ++ sep :: b) = a :: String_split sep b.
Proof.
  induction a as [|c a IH]; simpl.
  - intros _. rewrite Ascii.eqb_refl. reflexivity.
  - intros [Hc Ha]%andb_true_iff. apply negb_true_iff in Hc. rewrite Hc, (IH Ha).
    reflexivity.
Qed.

Lemma digit_facts (c : ascii) :
  is_digit c = true ->
  Ascii.eqb c "-" = false /\ is_whitespace c = false
  /\ take_sign (c :: []) = (false, c :: [])
  /\ Ascii.eqb c "x" = false /\ Ascii.eqb c "X" = false.
Proof.
  destruct c as [[] [] [] [] [] [] [] []]; intros Hd; try discriminate Hd;
    repeat split; reflexivity.
Qed.

Lemma take_sign_digit (c : ascii) (cs : list ascii) :
  is_digit c = true -> take_sign (c :: cs) = (false, c :: cs).
Proof.
  destruct c as [[] [] [] [] [] [] [] []]; intros Hd; try discriminate Hd; reflexivity.
Qed.

Lemma digits_no_dash (ds : list ascii) :
  forallb is_digit ds = true ->
  forallb (fun c => negb (Ascii.eqb c "-")) ds = true.
Proof.
  induction ds as [|c ds IH]; [reflexivity|]. simpl.
  intros [Hc Hs]%andb_true_iff. destruct (digit_facts c Hc) as (-> & _).
  apply IH, Hs.
Qed.

Lemma span_digits_all (ds : list ascii) :
  forallb is_digit ds = true -> span_digits ds = (ds, []).
Proof.
  induction ds as [|c ds IH]; [reflexivity|]. simpl.
  intros [Hc Hs]%andb_true_iff. rewrite Hc, (IH Hs). reflexivity.
Qed.

Lemma parseInt_digits (ds : list ascii) :
  forallb is_digit ds = true -> ds <> [] -> parseInt ds = Some (digits_value ds).
Proof.
  intros Hds Hne. destruct ds as [|c ds]; [congruence|]. clear Hne.
  pose proof Hds as Hall. simpl in Hds. apply andb_true_iff in Hds as [Hc Hrest].
  destruct (digit_facts c Hc) as (_ & Hw & _).
  unfold parseInt. cbn [skip_whitespace]. rewrite Hw, (take_sign_digit c ds Hc).
  assert (Hdec : match (span_digits (c :: ds)).1 with
                 | [] => None
                 | d :: ds' => Some (1 * digits_value (d :: ds'))
                 end = Some (digits_value (c :: ds))).
  { rewrite (span_digits_all _ Hall). cbn [fst]. f_equal. lia. }
  destruct ds as [|cx rest]; [exact Hdec|].
  simpl in Hrest. apply andb_true_iff in Hrest as [Hcx _].
  destruct (digit_facts cx Hcx) as (_ & _ & _ & -> & ->).
  rewrite andb_false_r. exact Hdec.
Qed.

Lemma padStart_digits (n : Z) :
  0 <= n ->
  forallb is_digit (padStart 2 "0" (decimal_digits n)) = true
  /\ padStart 2 "0" (decimal_digits n) <> []
  /\ digits_value (padStart 2 "0" (decimal_digits n)) = n.
Proof.
  intros Hn. unfold padStart. fold (zeros (2 - length (decimal_digits n))).
  split; [|split].
  - rewrite forallb_app, zeros_digits, (decimal_digits_digits n Hn). reflexivity.
  - pose proof (decimal_digits_length n). destruct (decimal_digits n); [simpl in *; lia|].
    destruct (zeros _); discriminate.
  - rewrite digits_value_zeros. apply decimal_digits_value, Hn.
Qed.

Lemma selectChange_selectValue (y m : Z) :
  0 <= y -> 0 <= m -> selectChange (selectValue y m) = (Some y, Some m).
Proof.
  intros Hy Hm. unfold selectChange, selectValue, integer_toString.
  replace (y <? 0) with false by (symmetry; apply Z.ltb_ge, Hy).
  replace (m <? 0) with false by (symmetry; apply Z.ltb_ge, Hm).
  rewrite !Z.abs_eq by assumption. cbn [app].
  destruct (padStart_digits m Hm) as (Hpd & Hpne & Hpv).
  rewrite String_split_app by (apply digits_no_dash, decimal_digits_digits, Hy).
  rewrite String_split_piece by (apply digits_no_dash, Hpd).
  cbn [lookup list_lookup mbind option_bind].
  rewrite parseInt_digits.
  - rewrite parseInt_digits by assumption.
    rewrite decimal_digits_value by exact Hy. rewrite Hpv. reflexivity.
  - apply decimal_digits_digits, Hy.
  - pose proof (decimal_digits_length y). destruct (decimal_digits y); [simpl in *; lia|].
    discriminate.
Qed.

(** X21. For a year and a month that are not negative (and below [2^53]):
    the value that the month selector shows for them, handed to its
    [onChange] handler, selects that year and that month again. *)
Theorem month_selector_round_trip (selectedYear selectedMonth : Z) :
  0 <= selectedYear < 2 ^ 53 ->
  0 <= selectedMonth < 2 ^ 53 ->
  selectChange (selectValue selectedYear selectedMonth)
  = (Some selectedYear, Some selectedMonth).
Proof. intros [Hy _] [Hm _]. apply selectChange_selectValue; assumption. Qed.

Lemma month_selector_round_trip_example :
  string_of_list_ascii (selectValue 2026 3) = "2026-03"%string
  /\ selectChange (selectValue 2026 3) = (Some 2026, Some 3).
Proof.
  split; [reflexivity|].
  apply (month_selector_round_trip 2026 3); lia.
Defined.

(** X22. For a date in the years 100 to 200000: the month selector offers
    24 consecutive months, option [i] being the month [i - 12] months from
    the current one, with a month number between 1 and 12; its value is the
    one that the selector shows for that month, and choosing it selects that
    month. Option 12 is the current month. *)
Theorem monthSelectOptions_months (baseYear baseMonth : Z) (i : nat) :
  100 <= baseYear <= 200000 ->
  0 <= baseMonth <= 11 ->
  (i < 24)%nat ->
  exists y m,
    monthSelectOptions baseYear baseMonth !! i = Some (selectValue y m)
    /\ 1 <= m <= 12
    /\ y * 12 + m = baseYear * 12 + (baseMonth + 1) + Z.of_nat i - 12
    /\ selectChange (selectValue y m) = (Some y, Some m)
    /\ (i = 12%nat -> y = baseYear /\ m = baseMonth + 1).
Proof.
  intros Hyear Hmonth Hi. unfold monthSelectOptions.
  change (map ?f ?l) with (f <$> l).
  rewrite list_lookup_fmap, lookup_seq_lt by exact Hi.
  cbn [fmap option_fmap option_map Nat.add]. unfold Date_year_month.
  replace ((0 <=? baseYear) && (baseYear <=? 99)) with false
    by (symmetry; apply andb_false_iff; right; apply Z.leb_gt; lia).
  set (offset := baseMonth + (Z.of_nat i - 12)).
  pose proof (Z.div_mod offset 12 ltac:(lia)) as Hdiv.
  pose proof (Z.mod_pos_bound offset 12 ltac:(lia)) as Hmod.
  assert (Hoff : -12 <= offset <= 22) by (unfold offset; lia).
  assert (Hq : -1 <= offset / 12 <= 1) by lia.
  exists (baseYear + offset / 12), (offset mod 12 + 1).
  split; [reflexivity|]. split; [lia|]. split; [lia|]. split.
  - apply selectChange_selectValue; lia.
  - intros ->. subst offset. replace (baseMonth + (Z.of_nat 12 - 12)) with baseMonth by lia.
    rewrite Z.div_small, Z.mod_small by lia. lia.
Qed.

Lemma monthSelectOptions_months_example :
  map string_of_list_ascii (take 3 (monthSelectOptions 2026 0))
  = ["2025-01"; "2025-02"; "2025-03"]%string
  /\ exists y m,
       monthSelectOptions 2026 0 !! 12%nat = Some (selectValue y m)
       /\ y = 2026 /\ m = 1.
Proof.
  split; [reflexivity|].
  destruct (monthSelectOptions_months 2026 0 12 ltac:(lia) ltac:(lia) ltac:(lia))
    as (y & m & Hopt & _ & _ & _ & Hnow).
  exists y, m. split; [exact Hopt|]. destruct (Hnow eq_refl) as [-> ->]. split; reflexivity.
Defined.

(** ** Awards *)

Local Open Scope Z_scope.

Section SortedHead.
Context {A : Type} (before : A -> A -> bool) (R : A -> A -> Prop).
Hypothesis before_R : forall x y, before x y = true -> R x y.
Hypothesis not_before_R : forall x y, before x y = false -> R y x.
Hypothesis R_trans : forall x y z, R x y -> R y z -> R x z.
Hypothesis R_refl : forall x, R x x.

Lemma head_Array_sort (l : list A) :
  l <> [] ->
  exists first,
    head (Array_sort before l) = Some first
    /\ first ∈ l
    /\ forall x, x ∈ l -> R first x.
Proof.
  intros Hne.
  pose proof (Array_sort_perm before l) as Hperm.
  pose proof (Array_sort_sorted before R before_R not_before_R R_trans l) as Hsorted.
  destruct (Array_sort before l) as [|first rest].
  { apply Permutation_nil_l in Hperm. congruence. }
  exists first. split; [reflexivity|]. split.
  - rewrite <- Hperm. left.
  - intros x Hx. rewrite <- Hperm in Hx.
    apply StronglySorted_inv in Hsorted as [_ Hfirst].
    apply elem_of_cons in Hx as [->|Hx]; [apply R_refl|].
    rewrite List.Forall_forall in Hfirst. apply Hfirst, list_elem_of_In, Hx.
Qed.

End SortedHead.

Lemma StronglySorted_weaken {A : Type} (R R' : A -> A -> Prop) (l : list A) :
  (forall a b, R a b -> R' a b) -> StronglySorted R l -> StronglySorted R' l.
Proof.
  intros Himp. induction 1 as [|x l Hl IH Hx]; constructor; [exact IH|].
  rewrite List.Forall_forall in *. intros y Hy. apply Himp, Hx, Hy.
Qed.

Section SortedAlready.
Context {A : Type} (before : A -> A -> bool).

Lemma sort_insert_last (x : A) (acc : list A) :
  (forall y, y ∈ acc -> before x y = false) -> sort_insert before x acc = acc ++ [x].
Proof.
  induction acc as [|y acc IH]; intros Hacc; [reflexivity|].
  cbn [sort_insert]. rewrite (Hacc y) by left.
  rewrite IH; [reflexivity|]. intros z Hz. apply Hacc. right. exact Hz.
Qed.

Lemma fold_insert_sorted_id (l acc : list A) :
  (forall y x, y ∈ acc -> x ∈ l -> before x y = false) ->
  StronglySorted (fun a b => before b a = false) l ->
  fold_left (fun sorted x => sort_insert before x sorted) l acc = acc ++ l.
Proof.
  revert acc. induction l as [|x l IH]; intros acc Hacc Hl; simpl.
  - rewrite app_nil_r. reflexivity.
  - apply StronglySorted_inv in Hl as [Hl Hx].
    rewrite sort_insert_last by (intros y Hy; apply Hacc; [exact Hy | left]).
    rewrite IH; [rewrite <- app_assoc; reflexivity | | exact Hl].
    intros y z Hy Hz. apply elem_of_app in Hy as [Hy|Hy].
    + apply Hacc; [exact Hy | right; exact Hz].
    + apply list_elem_of_singleton in Hy as ->.
      rewrite List.Forall_forall in Hx. apply Hx, list_elem_of_In, Hz.
Qed.

(** Sorting a list that is in order already gives the list. *)
Lemma Array_sort_sorted_id (l : list A) :
  StronglySorted (fun a b => before b a = false) l -> Array_sort before l = l.
Proof.
  intros Hl. unfold Array_sort. rewrite fold_insert_sorted_id; [reflexivity | | exact Hl].
  intros y x Hy. inversion Hy.
Qed.

End SortedAlready.

Local Open Scope Q_scope.

(** X23. For exact arithmetic, on a leaderboard that is not empty: the
    champion is the first row; "Top Performer" is a row with the greatest
    [achievement_pct]; the streak award goes to a row with the longest
    streak when that streak is positive, and is not given when no row has a
    positive streak. *)
Theorem awards_of_leaderboard (leaderboardData : list (@LeaderboardEntry Q)) :
  leaderboardData <> [] ->
  exists a best,
    awards leaderboardData = Some a
    /\ head leaderboardData = Some (champion a)
    /\ bestAchiever a = Some best
    /\ mostConsistent a = Some best
    /\ best ∈ leaderboardData
    /\ (forall e, e ∈ leaderboardData -> achievement_pct e <= achievement_pct best)
    /\ match streakKing a with
       | Some king =>
           king ∈ leaderboardData
           /\ (0 < streak_days king)%Z
           /\ forall e, e ∈ leaderboardData -> (streak_days e <= streak_days king)%Z
       | None => forall e, e ∈ leaderboardData -> (streak_days e <= 0)%Z
       end.
Proof.
  intros Hne. unfold awards.
  destruct leaderboardData as [|first rest] eqn:Hl; [congruence|]. rewrite <- Hl in *.
  destruct (head_Array_sort pct_before pct_ge) with (l := leaderboardData)
    as (best & Hbest & Hin & Hmax); unfold pct_ge.
  { intros x y E%pct_before_lt. lra. }
  { intros x y E%pct_before_ge. lra. }
  { intros x y z ? ?. lra. }
  { intros x. lra. }
  { congruence. }
  destruct (head_Array_sort
              (fun a b : @LeaderboardEntry Q => (streak_days b - streak_days a <? 0)%Z)
              (fun a b => (streak_days b <= streak_days a)%Z))
    with (l := leaderboardData) as (king & Hking & Hkin & Hkmax).
  { intros x y E%Z.ltb_lt. lia. }
  { intros x y E%Z.ltb_ge. lia. }
  { intros x y z ? ?. lia. }
  { intros x. lia. }
  { congruence. }
  unfold pct_before in Hbest.
  eexists. exists best. split; [reflexivity|]. cbn [champion bestAchiever mostConsistent streakKing].
  rewrite Hbest, Hking. split; [rewrite Hl; reflexivity|].
  split; [reflexivity|]. split; [reflexivity|]. split; [exact Hin|]. split; [exact Hmax|].
  destruct (0 <? streak_days king)%Z eqn:E;
    [apply Z.ltb_lt in E | apply Z.ltb_ge in E].
  - auto.
  - intros e He. specialize (Hkmax e He). lia.
Qed.

Lemma sorted_set_rank (l : list (@LeaderboardEntry Q)) (g : nat -> Z) :
  StronglySorted pct_ge l ->
  StronglySorted pct_ge (imap (fun idx user => set_rank (g idx) user) l).
Proof.
  intros Hl. revert g. induction Hl as [|x l Hl IH Hx]; intros g; [constructor|].
  cbn [imap]. constructor; [apply (IH (fun idx => g (S idx)))|].
  rewrite List.Forall_forall in *. intros e He.
  apply list_elem_of_In, elem_of_lookup_imap in He as (i & y & -> & Hy).
  apply list_elem_of_lookup_2, list_elem_of_In in Hy. exact (Hx y Hy).
Qed.

(** X24. For exact arithmetic, on a leaderboard that is aggregated over
    several months and is not empty: the champion is the row of rank 1, the
    "Top Performer" award goes to the champion, and no streak award is
    given. *)
Theorem awards_of_aggregated_leaderboard (parseFloat : string -> Q)
    (leaderboardRows : option (list LeaderboardRow))
    (allProgressData : list WeeklyProgressResponse) (members : list ShopMember)
    (entries : list (@LeaderboardEntry Q)) :
  leaderboardData parseFloat false leaderboardRows allProgressData members
  = Done entries ->
  entries <> [] ->
  exists a,
    awards entries = Some a
    /\ head entries = Some (champion a)
    /\ rank (champion a) = 1%Z
    /\ bestAchiever a = Some (champion a)
    /\ streakKing a = None.
Proof.
  unfold leaderboardData.
  destruct (0 <? length allProgressData)%nat; [|intros [= <-]; congruence].
  rewrite rankUsers_done. fold pct_before. intros [= <-] Hne.
  set (sorted := Array_sort pct_before (map entryOf (aggregateProgress parseFloat allProgressData))) in *.
  set (entries := imap (fun idx user => set_rank (Z.of_nat idx + 1) user) sorted) in *.
  assert (Hsorted : StronglySorted pct_ge entries)
    by (apply sorted_set_rank, sorted_by_pct).
  assert (Hstreak : forall e, e ∈ entries -> streak_days e = 0%Z).
  { intros e He. apply elem_of_lookup_imap in He as (i & y & -> & Hy).
    apply list_elem_of_lookup_2 in Hy. unfold sorted in Hy.
    rewrite Array_sort_perm in Hy.
    apply list_elem_of_fmap_1 in Hy as (user & -> & _). reflexivity. }
  assert (Hpct : Array_sort pct_before entries = entries).
  { apply Array_sort_sorted_id. revert Hsorted. apply StronglySorted_weaken.
    intros a b. unfold pct_ge, pct_before, zero. exact_ops. intros Hab.
    apply Q_ltb_ge. lra. }
  assert (Hdays : Array_sort
                    (fun a b : @LeaderboardEntry Q => (streak_days b - streak_days a <? 0)%Z)
                    entries = entries).
  { apply Array_sort_sorted_id.
    assert (Hall : Forall (fun e : @LeaderboardEntry Q => streak_days e = 0%Z) entries)
      by (apply Forall_forall; exact Hstreak).
    clear - Hall. induction Hall as [|e l He Hl IH]; constructor; [exact IH|].
    apply List.Forall_forall. intros b Hb.
    rewrite Forall_forall in Hl. rewrite He, (Hl b) by (apply list_elem_of_In, Hb).
    reflexivity. }
  unfold awards. fold pct_before. rewrite Hpct, Hdays.
  destruct entries as [|first rest] eqn:He; [congruence|].
  eexists. split; [reflexivity|]. cbn [champion bestAchiever streakKing head].
  split; [reflexivity|]. split.
  - unfold entries in He. destruct sorted; [discriminate|].
    cbn [imap] in He. injection He as <- _. reflexivity.
  - split; [reflexivity|]. rewrite (Hstreak first) by left. reflexivity.
Qed.

Lemma awards_of_aggregated_leaderboard_example :
  let parseFloat := fun s => match fixed2_value s with
                             | Some c => inject_Z c / 100
                             | None => 0
                             end in
  exists entries a,
    leaderboardData parseFloat false None Examples.twoMonths [] = Done entries
    /\ awards entries = Some a
    /\ user_id (champion a) = "u-ana"%string
    /\ bestAchiever a = Some (champion a)
    /\ streakKing a = None.
Proof.
  intros parseFloat.
  pose (entries := match leaderboardData parseFloat false None Examples.twoMonths [] with
                   | Done entries => entries
                   | DivisionByZero => []
                   end).
  assert (Hdata : leaderboardData parseFloat false None Examples.twoMonths []
                  = Done entries) by (vm_compute; reflexivity).
  assert (Hne : entries <> []) by (vm_compute; discriminate).
  destruct (awards_of_aggregated_leaderboard parseFloat None Examples.twoMonths []
              entries Hdata Hne) as (a & Ha & Hhead & _ & Hbest & Hking).
  exists entries, a. split; [exact Hdata|]. split; [exact Ha|].
  split; [|split; [exact Hbest | exact Hking]].
  assert (Hu : user_id <$> head entries = Some "u-ana"%string)
    by (vm_compute; reflexivity).
  rewrite Hhead in Hu. cbn [fmap option_fmap option_map] in Hu.
  injection Hu as Hu. exact Hu.
Defined.

Lemma awards_of_leaderboard_example :
  let parseFloat := fun s => match fixed2_value s with
                             | Some c => inject_Z c / 100
                             | None => 0
                             end in
  let rows :=
    [ {| row_user_id := "u-ana"; row_rank := 1; row_score := "80.00";
         row_achievement_pct := "90.00"; row_trend := up; row_streak_days := 2;
         row_user_name := None |};
      {| row_user_id := "u-ben"; row_rank := 2; row_score := "70.00";
         row_achievement_pct := "95.00"; row_trend := flat; row_streak_days := 5;
         row_user_name := None |} ] in
  exists a best,
    awards (map (fromRow parseFloat []) rows) = Some a
    /\ bestAchiever a = Some best
    /\ user_id (champion a) = "u-ana"%string
    /\ user_id best = "u-ben"%string.
Proof.
  intros parseFloat rows.
  assert (Hne : map (fromRow parseFloat []) rows <> []) by discriminate.
  destruct (awards_of_leaderboard (map (fromRow parseFloat []) rows) Hne)
    as (a & best & Ha & Hhead & Hbest & _).
  exists a, best. split; [exact Ha|]. split; [exact Hbest|]. split.
  - assert (Hu : user_id <$> head (map (fromRow parseFloat []) rows)
                 = Some "u-ana"%string) by (vm_compute; reflexivity).
    rewrite Hhead in Hu. cbn [fmap option_fmap option_map] in Hu.
    injection Hu as Hu. exact Hu.
  - assert (Hu : user_id <$> (awards (map (fromRow parseFloat []) rows) ≫= bestAchiever)
                 = Some "u-ben"%string) by (vm_compute; reflexivity).
    rewrite Ha in Hu. cbn [mbind option_bind] in Hu. rewrite Hbest in Hu.
    cbn [fmap option_fmap option_map] in Hu. injection Hu as Hu. exact Hu.
Defined.

(** ** The leaderboard of a single month *)

Local Open Scope Z_scope.

Lemma or_else_nonempty (a : option string) (b : string) :
  b <> ""%string -> or_else a b <> ""%string.
Proof.
  intros Hb. unfold or_else. destruct a as [s|]; [|exact Hb].
  destruct (String.eqb s "") eqn:E; [exact Hb|]. apply String.eqb_neq, E.
Qed.

Lemma StronglySorted_map {A B : Type} (R : A -> A -> Prop) (R' : B -> B -> Prop)
    (f : A -> B) (l : list A) :
  (forall a b, R a b -> R' (f a) (f b)) ->
  StronglySorted R l -> StronglySorted R' (map f l).
Proof.
  intros Himp. induction 1 as [|x l Hl IH Hx]; cbn [map]; constructor; [exact IH|].
  rewrite List.Forall_forall in *. intros y Hy.
  apply in_map_iff in Hy as (a & <- & Ha). apply Himp, Hx, Ha.
Qed.

(** X25. For any numbers: the leaderboard of a single month has one row for
    each row of the latest snapshot, in the order of the server's ranks,
    and every row carries a name that is not empty: the name of the row, or
    the member's name, or the member's e-mail address, or "Unknown". *)
Theorem single_month_leaderboard {N : Type} `{JsNumber N} (parseFloat : string -> N)
    (rows : list LeaderboardRow) (allProgressData : list WeeklyProgressResponse)
    (members : list ShopMember) :
  exists entries,
    leaderboardData parseFloat true (Some rows) allProgressData members = Done entries
    /\ length entries = length rows
    /\ map user_id entries ≡ₚ map row_user_id rows
    /\ StronglySorted Z.le (map rank entries)
    /\ Forall (fun e => user_name e <> ""%string) entries.
Proof.
  unfold leaderboardData.
  set (sorted := Array_sort (fun a b => row_rank a - row_rank b <? 0) rows).
  pose proof (Array_sort_perm (fun a b => row_rank a - row_rank b <? 0) rows) as Hperm.
  fold sorted in Hperm.
  eexists. split; [reflexivity|]. split; [|split; [|split]].
  - rewrite length_map. apply Permutation_length, Hperm.
  - rewrite map_map. cbn [user_id fromRow]. change (map ?f ?l) with (f <$> l).
    rewrite Hperm. reflexivity.
  - rewrite map_map. cbn [rank fromRow].
    apply (StronglySorted_map (fun a b => row_rank a <= row_rank b)); [auto|].
    apply Array_sort_sorted.
    + intros x y E%Z.ltb_lt. lia.
    + intros x y E%Z.ltb_ge. lia.
    + intros x y z ? ?. lia.
  - apply Forall_forall. intros e He.
    apply list_elem_of_fmap_1 in He as (row & -> & _). cbn [user_name fromRow].
    apply or_else_nonempty, or_else_nonempty. discriminate.
Qed.

(** * The cached access token *)

(** X26. A token that [getToken] has fetched with a session is served from
    the cache, without another call of [getSession], exactly as long as
    more than 60 seconds are left until the session expires; after that, and
    at any time after [clearTokenCache], the next call fetches the session
    again and returns the token of the session that exists then. *)
Theorem token_cached_until_expiry (cache : TokenCache) (now : Z) (session : Session)
    (expiry : Z) (later : Z) (getSession : option Session) :
  (getToken cache now (Some session)).2 = true ->
  access_token session <> ""%string ->
  expires_at session = Some expiry ->
  let cache' := (getToken cache now (Some session)).1.2 in
  (later + 60000 < expiry * 1000 ->
   getToken cache' later getSession = (Some (access_token session), cache', false))
  /\ (expiry * 1000 <= later + 60000 ->
      (getToken cache' later getSession).1.1 = access_token <$> getSession
      /\ (getToken cache' later getSession).2 = true)
  /\ (getToken (clearTokenCache cache') later getSession).1.1
     = access_token <$> getSession
  /\ (getToken (clearTokenCache cache') later getSession).2 = true.
Proof.
  intros Hmiss Htoken Hexp. unfold getToken in Hmiss |- *.
  destruct (truthy_string (cachedToken cache) && (now + 60000 <? tokenExpiry cache));
    [discriminate|].
  cbn [fst snd fmap option_fmap option_map mbind option_bind cachedToken tokenExpiry
       truthy_string default from_option clearTokenCache andb].
  rewrite Hexp. cbn [default from_option Datatypes.id].
  assert (Hne : String.eqb (access_token session) "" = false)
    by (apply String.eqb_neq, Htoken).
  rewrite Hne. cbn [negb andb]. split; [|split; [|split; reflexivity]]; intros Hlater.
  - replace (later + 60000 <? expiry * 1000) with true
      by (symmetry; apply Z.ltb_lt, Hlater).
    reflexivity.
  - replace (later + 60000 <? expiry * 1000) with false
      by (symmetry; apply Z.ltb_ge, Hlater).
    split; reflexivity.
Qed.

Lemma token_cached_until_expiry_example :
  let session := {| access_token := "jwt-1"; expires_at := Some 1765000000 |} in
  let empty := {| cachedToken := None; tokenExpiry := 0 |} in
  let cache' := (getToken empty 1764996000000 (Some session)).1.2 in
  getToken cache' 1764999000000 None = (Some "jwt-1"%string, cache', false)
  /\ (getToken cache' 1764999950000 None).2 = true
  /\ (getToken (clearTokenCache cache') 1764999000000 None).2 = true.
Proof.
  intros session empty cache'.
  destruct (token_cached_until_expiry empty 1764996000000 session 1765000000
              1764999000000 None eq_refl ltac:(discriminate) eq_refl)
    as (Hhit & _ & _ & Hcleared).
  destruct (token_cached_until_expiry empty 1764996000000 session 1765000000
              1764999950000 None eq_refl ltac:(discriminate) eq_refl) as (_ & Hmiss & _).
  split; [apply Hhit; reflexivity|]. split; [apply Hmiss; discriminate | exact Hcleared].
Defined.

(** * The origin of the API *)

Lemma starts_with_app (word cs : list ascii) :
  starts_with word cs = true -> cs = word ++ drop (length word) cs.
Proof.
  revert cs. induction word as [|w word IH]; intros cs; [reflexivity|].
  destruct cs as [|c cs]; [discriminate|]. cbn [starts_with].
  intros [Hc Hrest]%andb_true_iff. apply Nat.eqb_eq in Hc.
  assert (w = c) as ->.
  { rewrite <- (ascii_nat_embedding w), <- (ascii_nat_embedding c), Hc. reflexivity. }
  cbn [app length drop]. f_equal. apply IH, Hrest.
Qed.

Lemma api_version_shape (cs : list ascii) :
  starts_with (list_ascii_of_string "api/v") cs
  && match drop 5 cs with
     | digit :: rest =>
         (Ascii.eqb digit "1" || Ascii.eqb digit "2")
         && match rest with
            | [] => true
            | [c] => negb (is_line_terminator c)
            | _ => false
            end
     | [] => false
     end = true ->
  exists digit rest,
    cs = list_ascii_of_string "api/v" ++ digit :: rest /\ (length rest <= 1)%nat.
Proof.
  intros [Hstart Hrest]%andb_true_iff. apply starts_with_app in Hstart.
  change (length (list_ascii_of_string "api/v")) with 5%nat in Hstart.
  destruct (drop 5 cs) as [|digit rest]; [discriminate|].
  exists digit, rest. split; [exact Hstart|].
  apply andb_true_iff in Hrest as [_ Hrest].
  destruct rest as [|c [|c' rest]]; [simpl; lia | simpl; lia | discriminate].
Qed.

Lemma matches_api_version_shape (cs : list ascii) :
  matches_api_version cs = true ->
  exists slash digit rest,
    cs = slash ++ list_ascii_of_string "api/v" ++ digit :: rest
    /\ (slash = [] \/ slash = ["/"%char])
    /\ (length rest <= 1)%nat.
Proof.
  unfold matches_api_version. destruct cs as [|c cs].
  - intros (digit & rest & Heq & Hrest)%api_version_shape. discriminate.
  - destruct (Ascii.eqb c "/") eqn:E.
    + apply Ascii.eqb_eq in E as ->.
      intros (digit & rest & -> & Hrest)%api_version_shape.
      exists ["/"%char], digit, rest. auto.
    + intros (digit & rest & Heq & Hrest)%api_version_shape.
      exists [], digit, rest. auto.
Qed.

Lemma strip_api_version_suffix (origin : list ascii) (digit : ascii)
    (trailing : list ascii) :
  digit = "1"%char \/ digit = "2"%char ->
  trailing = [] \/ (exists c, trailing = [c] /\ is_line_terminator c = false) ->
  strip_api_version
    (origin ++ list_ascii_of_string "/api/v" ++ digit :: trailing)
  = origin.
Proof.
  intros Hdigit Htrailing. induction origin as [|c origin IH].
  - assert (Hm : matches_api_version
                   (list_ascii_of_string "/api/v" ++ digit :: trailing) = true).
    { destruct Hdigit as [-> | ->];
        destruct Htrailing as [-> | (c & -> & Hc)]; unfold matches_api_version;
        cbn -[is_line_terminator]; rewrite ?Hc; reflexivity. }
    cbn [app list_ascii_of_string] in Hm |- *. cbn [strip_api_version].
    rewrite Hm. reflexivity.
  - cbn [app strip_api_version].
    destruct (matches_api_version (c :: origin ++ _)) eqn:Hm; [|rewrite IH; reflexivity].
    exfalso. apply matches_api_version_shape in Hm as (slash & d & rest & Heq & Hslash & Hrest).
    assert (Hlen : length (c :: origin ++ list_ascii_of_string "/api/v" ++ digit :: trailing)
                   = length (slash ++ list_ascii_of_string "api/v" ++ d :: rest))
      by (rewrite Heq; reflexivity).
    cbn [length] in Hlen. rewrite !length_app in Hlen. cbn [length list_ascii_of_string] in Hlen.
    destruct Hslash as [-> | ->]; cbn [length] in Hlen; [lia|].
    destruct origin as [|c' origin]; [|cbn [length] in Hlen; lia].
    cbn in Heq. injection Heq as _ Habs. discriminate.
Qed.

Lemma list_ascii_of_string_app (s t : string) :
  list_ascii_of_string (s ++ t) = list_ascii_of_string s ++ list_ascii_of_string t.
Proof. induction s as [|c s IH]; [reflexivity|]. simpl. f_equal. exact IH. Qed.

(** X27. For every origin: when [API_BASE] is the origin followed by
    [/api/v1] or [/api/v2], with nothing or one more character after it
    (such as a closing slash, but also a further digit), [API_ORIGIN] is the
    origin. *)
Theorem API_ORIGIN_strips_version (origin : string) (digit : ascii) (trailing : string) :
  digit = "1"%char \/ digit = "2"%char ->
  trailing = ""%string
  \/ (exists c, trailing = String c "" /\ is_line_terminator c = false) ->
  API_ORIGIN (origin ++ "/api/v" ++ String digit trailing) = origin.
Proof.
  intros Hdigit Htrailing. unfold API_ORIGIN.
  rewrite !list_ascii_of_string_app. cbn [list_ascii_of_string].
  change ("/"%char :: "a"%char :: "p"%char :: "i"%char :: "/"%char :: "v"%char :: [])
    with (list_ascii_of_string "/api/v").
  rewrite strip_api_version_suffix.
  - apply string_of_list_ascii_of_string.
  - exact Hdigit.
  - destruct Htrailing as [-> | (c & -> & Hc)]; [left; reflexivity|].
    right. exists c. auto.
Qed.

Lemma API_ORIGIN_strips_version_example :
  API_ORIGIN "http://localhost:8080/api/v1" = "http://localhost:8080"%string
  /\ API_ORIGIN "https://api.example.com/api/v2/" = "https://api.example.com"%string.
Proof.
  split.
  - exact (API_ORIGIN_strips_version "http://localhost:8080" "1" ""
             (or_introl eq_refl) (or_introl eq_refl)).
  - exact (API_ORIGIN_strips_version "https://api.example.com" "2" "/"
             (or_intror eq_refl) (or_intror (ex_intro _ "/"%char (conj eq_refl eq_refl)))).
Defined.

(** * The weekly breakdown *)

(** X28. A click on an employee's card flips whether that employee is
    expanded and changes nothing for the others; a list without repetitions
    stays without repetitions, and a second click restores the set of
    expanded employees. *)
Theorem toggleEmployee_membership (prev : list string) (employeeId : string) :
  (employeeId ∈ toggleEmployee prev employeeId <-> employeeId ∉ prev)
  /\ (forall other, other <> employeeId ->
        (other ∈ toggleEmployee prev employeeId <-> other ∈ prev))
  /\ (NoDup prev ->
      NoDup (toggleEmployee prev employeeId)
      /\ toggleEmployee (toggleEmployee prev employeeId) employeeId ≡ₚ prev).
Proof.
  assert (Hex : forall l, existsb (String.eqb employeeId) l = true <-> employeeId ∈ l).
  { intros l. rewrite existsb_exists, list_elem_of_In. split.
    - intros (x & Hx & ->%String.eqb_eq). exact Hx.
    - intros Hin. exists employeeId. split; [exact Hin | apply String.eqb_refl]. }
  assert (Hfilter : forall l x,
            x ∈ List.filter (fun id => negb (String.eqb id employeeId)) l
            <-> x ∈ l /\ x <> employeeId).
  { intros l x. rewrite list_elem_of_In, filter_In, <- list_elem_of_In, negb_true_iff.
    rewrite String.eqb_neq. reflexivity. }
  assert (Hkeep : forall l, employeeId ∉ l ->
            List.filter (fun id => negb (String.eqb id employeeId)) l = l).
  { intros l. induction l as [|x l IH]; intros Hnin; [reflexivity|]. cbn [List.filter].
    apply not_elem_of_cons in Hnin as [Hx Hl].
    replace (String.eqb x employeeId) with false
      by (symmetry; apply String.eqb_neq; congruence).
    cbn [negb]. rewrite (IH Hl). reflexivity. }
  unfold toggleEmployee.
  destruct (existsb (String.eqb employeeId) prev) eqn:E.
  - apply Hex in E. split; [|split].
    + rewrite Hfilter. split; [intros [_ Hne]; congruence | contradiction].
    + intros other Hne. rewrite Hfilter. split; [intros [? _] | split]; auto.
    + intros Hnd. set (rest := List.filter _ prev).
      assert (Hrest : employeeId ∉ rest)
        by (unfold rest; rewrite Hfilter; intros [_ Hne]; congruence).
      assert (Hndrest : NoDup rest).
      { unfold rest. clear -Hnd. induction Hnd as [|x l Hx Hl IH]; [constructor|].
        cbn [List.filter]. destruct (negb _); [|exact IH].
        constructor; [|exact IH]. intros Hin.
        apply list_elem_of_In, filter_In in Hin as [Hin _].
        apply Hx, list_elem_of_In, Hin. }
      split; [exact Hndrest|].
      destruct (existsb (String.eqb employeeId) rest) eqn:E'.
      { apply Hex in E'. contradiction. }
      apply NoDup_Permutation; [|exact Hnd|].
      * apply NoDup_app. split; [exact Hndrest|]. split; [|apply NoDup_singleton].
        intros x Hx [->|[]%elem_of_nil]%elem_of_cons. contradiction.
      * intros x. rewrite elem_of_app, list_elem_of_singleton. unfold rest.
        rewrite Hfilter. destruct (decide (x = employeeId)) as [->|Hne].
        -- split; [intros _; exact E | intros _; right; reflexivity].
        -- split; [intros [[? _]|?]; [assumption | contradiction]|].
           intros Hin. left. split; assumption.
  - assert (Hnin : employeeId ∉ prev).
    { intros Hin. apply Hex in Hin. congruence. }
    split; [|split].
    + rewrite elem_of_app, list_elem_of_singleton. split; auto.
    + intros other Hne. rewrite elem_of_app, list_elem_of_singleton. split; [|auto].
      intros [?|?]; [assumption | congruence].
    + intros Hnd. split.
      * apply NoDup_app. split; [exact Hnd|]. split; [|apply NoDup_singleton].
        intros x Hx [->|[]%elem_of_nil]%elem_of_cons. contradiction.
      * replace (existsb (String.eqb employeeId) (prev ++ [employeeId])) with true.
        2:{ symmetry. apply Hex, elem_of_app. right. left. }
        rewrite List.filter_app, (Hkeep prev Hnin). cbn [List.filter].
        rewrite String.eqb_refl. cbn [negb]. rewrite app_nil_r. reflexivity.
Qed.
